(** * order-reader: a shallow embedding of [src/order-reader/index.js]

    The development follows the source top-down: JavaScript values and
    property bags, the string helpers ([trim], [splitLines]), the regular
    expression engine as far as the parser uses it, the field processors
    of [FIELD_TYPES], [FieldDictionary], classification and filing
    ([identifyObjectType], [cookObject]), the header matcher
    ([allMatches], [splitByMatches], [buildDictionaryRegex]),
    [ObjectBuilder] and the line scanner of [OrderParser.parse].

    Modelling conventions.
    - Strings are byte strings; the source is exercised on ASCII reports.
    - A JavaScript object is the list of its own enumerable properties in
      enumeration order (array-index names first, ascending, then the other
      names in creation order).  [ObjectBuilder.store], whose property
      names are the headers found in the input, reads and assigns as the
      language does on a plain object: a read finds the members of
      [Object.prototype], and an assignment of a string to [__proto__]
      creates no property.  Elsewhere a property is read and assigned as
      an own property: there, names that collide with members of
      [Object.prototype] are outside the model.
    - An exception that leaves the handler of ['line'] or ['close'] is the
      result [Err e]: nothing in the source catches it, and the promise of
      [parse] is then never resolved.  A loop that never exits is the
      result [Hang].
    - Numbers are integers.
    - The dictionary is typed: a list of type definitions plus the
      reserved [options] entry.  A processor configuration keeps each
      option optional, as JSON does. *)

From Stdlib Require Import List String Ascii ZArith NArith Lia Bool Arith.
From Stdlib Require Import DecimalString.
Import ListNotations.

Set Warnings "-register-all".

Local Open Scope string_scope.
Local Open Scope list_scope.

Infix "+++" := String.append (at level 60, right associativity).

(** ** Exceptions and results of a call *)

Inductive JsError : Type :=
| ReferenceError (what : string)
| TypeError (what : string)
| Thrown (message : string).

Inductive outcome (A : Type) : Type :=
| Ok (a : A)
| Err (e : JsError)
| Hang.

Arguments Ok {A} a.
Arguments Err {A} e.
Arguments Hang {A}.

Definition bind {A B : Type} (m : outcome A) (f : A -> outcome B) : outcome B :=
  match m with
  | Ok a => f a
  | Err e => Err e
  | Hang => Hang
  end.

Notation "'let*' x ':=' m 'in' k" := (bind m (fun x => k))
  (at level 10, x pattern, m at level 100, k at level 200).

(** ** Strings *)

Definition LF : ascii := "010"%char.
Definition CR : ascii := "013"%char.

Definition DQ : ascii := "034"%char.

Definition newline : string := String LF "".

(** White space removed by [String.prototype.trim], within ASCII. *)
Definition is_ws (c : ascii) : bool :=
  let n := nat_of_ascii c in
  ((9 <=? n)%nat && (n <=? 13)%nat) || (n =? 32)%nat.

Fixpoint trim_left (s : string) : string :=
  match s with
  | "" => ""
  | String c t => if is_ws c then trim_left t else s
  end.

Fixpoint trim_right (s : string) : string :=
  match s with
  | "" => ""
  | String c t =>
      match trim_right t with
      | "" => if is_ws c then "" else String c ""
      | r => String c r
      end
  end.

Definition trim (s : string) : string := trim_right (trim_left s).

Definition is_empty (s : string) : bool :=
  match s with "" => true | _ => false end.

Definition starts_with_lf (s : string) : bool :=
  match s with String c _ => Ascii.eqb c LF | "" => false end.

(** [string.split(/\r?\n/)]: the pieces between line breaks; a carriage
    return directly before a line feed belongs to the break. *)
Fixpoint splitLines (s : string) : list string :=
  match s with
  | "" => [""]
  | String c rest =>
      if Ascii.eqb c LF then "" :: splitLines rest
      else if Ascii.eqb c CR && starts_with_lf rest then splitLines rest
      else match splitLines rest with
           | l :: ls => String c l :: ls
           | [] => [String c ""]
           end
  end.

(** The lines that [readline] emits for a text: it breaks at LF, CR LF
    and a lone CR, and emits what follows the last break only when that
    is not empty. *)
Fixpoint readline_lines (s : string) : list string :=
  match s with
  | "" => []
  | String c rest =>
      if Ascii.eqb c LF then "" :: readline_lines rest
      else if Ascii.eqb c CR then
        if starts_with_lf rest then readline_lines rest
        else "" :: readline_lines rest
      else match readline_lines rest with
           | l :: ls => String c l :: ls
           | [] => [String c ""]
           end
  end.

(** [Array.prototype.join]. *)
Fixpoint join (sep : string) (l : list string) : string :=
  match l with
  | [] => ""
  | [x] => x
  | x :: t => x +++ sep +++ join sep t
  end.

Definition string_of_nat (n : nat) : string :=
  NilZero.string_of_uint (Nat.to_uint n).

Definition string_of_Z (z : Z) : string :=
  NilZero.string_of_int (Z.to_int z).

(** [Array.prototype.slice(start, end)] with JavaScript's treatment of
    negative and out-of-range bounds. *)
Definition clamp_index (len : Z) (k : Z) : nat :=
  Z.to_nat (if (k <? 0)%Z then Z.max (len + k) 0 else Z.min k len).

Definition js_slice {A : Type} (from to : Z) (l : list A) : list A :=
  let len := Z.of_nat (List.length l) in
  let a := clamp_index len from in
  let b := clamp_index len to in
  firstn (b - a) (skipn a l).

Definition js_slice_from {A : Type} (from : Z) (l : list A) : list A :=
  skipn (clamp_index (Z.of_nat (List.length l)) from) l.

(** [Array.prototype.findIndex]: [-1] when nothing is found. *)
Fixpoint findIndex {A : Type} (p : A -> bool) (l : list A) : Z :=
  match l with
  | [] => (-1)%Z
  | x :: t =>
      if p x then 0%Z
      else let r := findIndex p t in
           if (r <? 0)%Z then (-1)%Z else (r + 1)%Z
  end.

(** ** JavaScript values and objects *)

Inductive Val : Type :=
| VUndef
| VNull
| VStr (s : string)
| VArr (items : list Val)
| VObj (props : list (string * Val)).

(** The own properties of an object, in enumeration order. *)
Definition Obj : Type := list (string * Val).

Definition truthy (v : Val) : bool :=
  match v with
  | VUndef | VNull => false
  | VStr s => negb (is_empty s)
  | VArr _ | VObj _ => true
  end.

(** [a === b].  Arrays and objects compare by reference; the parser
    allocates them afresh for every record, so two values taken from
    different records are never the same reference. *)
Definition strict_eq (a b : Val) : bool :=
  match a, b with
  | VUndef, VUndef => true
  | VNull, VNull => true
  | VStr x, VStr y => String.eqb x y
  | _, _ => false
  end.

Fixpoint obj_get (k : string) (o : Obj) : option Val :=
  match o with
  | [] => None
  | (k', v) :: t => if String.eqb k k' then Some v else obj_get k t
  end.

(** [o[k]] as an expression: a missing property reads as [undefined]. *)
Definition prop (k : string) (o : Obj) : Val :=
  match obj_get k o with
  | Some v => v
  | None => VUndef
  end.

Definition obj_has (k : string) (o : Obj) : bool :=
  match obj_get k o with Some _ => true | None => false end.

Definition keys (o : Obj) : list string := map fst o.

(** Array-index property names: canonical decimal numerals below
    [2^32 - 1].  They are enumerated first, in ascending order. *)
Definition digit_of (c : ascii) : option N :=
  let n := N_of_ascii c in
  if ((48 <=? n) && (n <=? 57))%N then Some (n - 48)%N else None.

Fixpoint digits_val (acc : N) (s : string) : option N :=
  match s with
  | "" => Some acc
  | String c t =>
      match digit_of c with
      | Some d => digits_val (acc * 10 + d)%N t
      | None => None
      end
  end.

Definition array_index (k : string) : option N :=
  match k with
  | "" => None
  | String c t =>
      if Ascii.eqb c "0"%char then (if is_empty t then Some 0%N else None)
      else match digits_val 0%N k with
           | Some n => if (n <? 4294967295)%N then Some n else None
           | None => None
           end
  end.

Fixpoint obj_update (k : string) (v : Val) (o : Obj) : Obj :=
  match o with
  | [] => []
  | (k', v') :: t =>
      if String.eqb k k' then (k', v) :: t else (k', v') :: obj_update k v t
  end.

Fixpoint obj_insert_index (n : N) (k : string) (v : Val) (o : Obj) : Obj :=
  match o with
  | [] => [(k, v)]
  | (k', v') :: t =>
      match array_index k' with
      | Some m =>
          if (n <? m)%N then (k, v) :: o
          else (k', v') :: obj_insert_index n k v t
      | None => (k, v) :: o
      end
  end.

(** [o[k] = v]: an existing property keeps its place, a new one is
    created at its place in the enumeration order. *)
Definition obj_set (k : string) (v : Val) (o : Obj) : Obj :=
  if obj_has k o then obj_update k v o
  else match array_index k with
       | Some n => obj_insert_index n k v o
       | None => o ++ [(k, v)]
       end.

(** String conversion as performed by [+] on a string and a value. *)
Fixpoint to_js_string (v : Val) : string :=
  match v with
  | VUndef => "undefined"
  | VNull => "null"
  | VStr s => s
  | VArr l =>
      join "," (map (fun x => match x with
                              | VUndef | VNull => ""
                              | _ => to_js_string x
                              end) l)
  | VObj _ => "[object Object]"
  end.

(** *** JSON.stringify *)

Definition hex_digit (n : nat) : ascii :=
  ascii_of_nat (if (n <? 10)%nat then 48 + n else 87 + n).

Definition json_escape_char (c : ascii) : string :=
  let n := nat_of_ascii c in
  if (n =? 34)%nat then String "\"%char (String DQ "")
  else if (n =? 92)%nat then "\\"
  else if (n =? 8)%nat then "\b"
  else if (n =? 9)%nat then "\t"
  else if (n =? 10)%nat then "\n"
  else if (n =? 12)%nat then "\f"
  else if (n =? 13)%nat then "\r"
  else if (n <? 32)%nat then
    "\u00" +++ String (hex_digit (n / 16)) (String (hex_digit (n mod 16)) "")
  else String c "".

Fixpoint json_escape (s : string) : string :=
  match s with
  | "" => ""
  | String c t => json_escape_char c +++ json_escape t
  end.

Definition json_quote (s : string) : string :=
  String DQ (json_escape s) +++ String DQ "".

Fixpoint JSON_stringify (v : Val) : string :=
  match v with
  | VUndef | VNull => "null"
  | VStr s => json_quote s
  | VArr l => "[" +++ join "," (map JSON_stringify l) +++ "]"
  | VObj o =>
      "{" +++ join "," (flat_map (fun kv =>
                 match kv with
                 | (_, VUndef) => []
                 | (k, x) => [json_quote k +++ ":" +++ JSON_stringify x]
                 end) o) +++ "}"
  end.

(** ** Regular expressions

    The parser uses three kinds of pattern: the default record separator
    [/^_+$/], a custom separator compiled from the dictionary with
    [new RegExp(sep)], and the alternation of escaped header literals.
    A pattern is kept in parsed form. *)

Inductive RegExp : Type :=
| Eps
| Chr (c : ascii)
| Any
| OneOf (cs : list ascii)
| NoneOf (cs : list ascii)
| Seq (a b : RegExp)
| Alt (a b : RegExp)
| Star (a : RegExp)
| Bol
| Eol.

Definition Plus (r : RegExp) : RegExp := Seq r (Star r).

Definition mem_ascii (c : ascii) (cs : list ascii) : bool :=
  existsb (Ascii.eqb c) cs.

Definition line_terminator (c : ascii) : bool :=
  Ascii.eqb c LF || Ascii.eqb c CR.

Definition step_char (ok : ascii -> bool) (s : string) : list string :=
  match s with
  | String c t => if ok c then [t] else []
  | "" => []
  end.

(** The repetition of a matcher [step]: an iteration that consumes
    nothing is rejected, as the language prescribes, so [fuel] need not
    exceed the length of [s]. *)
Fixpoint star_loop (step : string -> list string) (fuel : nat) (s : string)
  : list string :=
  match fuel with
  | O => [s]
  | S f =>
      flat_map (fun s' =>
                  if (String.length s' <? String.length s)%nat
                  then star_loop step f s' else [])
               (step s) ++ [s]
  end.

(** [rmatch n r s]: what can remain of [s] after [r] has matched a prefix
    of it, in the order in which a backtracking matcher tries the
    alternatives (left branch first, longest repetition first).  [n] is
    the length of the whole subject, so that [s] is at the start of the
    subject when it is [n] long. *)
Fixpoint rmatch (n : nat) (r : RegExp) (s : string) : list string :=
  match r with
  | Eps => [s]
  | Chr c => step_char (Ascii.eqb c) s
  | Any => step_char (fun x => negb (line_terminator x)) s
  | OneOf cs => step_char (fun x => mem_ascii x cs) s
  | NoneOf cs => step_char (fun x => negb (mem_ascii x cs)) s
  | Seq a b => flat_map (rmatch n b) (rmatch n a s)
  | Alt a b => rmatch n a s ++ rmatch n b s
  | Star a => star_loop (rmatch n a) (String.length s) s
  | Bol => if (String.length s =? n)%nat then [s] else []
  | Eol => if is_empty s then [s] else []
  end.

(** The leftmost position at or after the current one where the pattern
    matches: the subject from that position, and what remains after the
    match. *)
Fixpoint search (n : nat) (r : RegExp) (s : string) : option (string * string) :=
  match rmatch n r s with
  | rest :: _ => Some (s, rest)
  | [] =>
      match s with
      | "" => None
      | String _ t => search n r t
      end
  end.

Fixpoint drop (k : nat) (s : string) : option string :=
  match k with
  | O => Some s
  | S k' =>
      match s with
      | "" => None
      | String _ t => drop k' t
      end
  end.

Fixpoint take (k : nat) (s : string) : string :=
  match k, s with
  | S k', String c t => String c (take k' t)
  | _, _ => ""
  end.

(** A match object: [m.index] and [m[0]]. *)
Record RMatch : Type := { index : nat; text : string }.

(** [regexp.exec(s)] started at [lastIndex]: the match and the index
    just after it.  A pattern without the [g] flag always starts at 0. *)
Definition exec (r : RegExp) (s : string) (lastIndex : nat)
  : option (RMatch * nat) :=
  match drop lastIndex s with
  | None => None
  | Some suffix =>
      match search (String.length s) r suffix with
      | None => None
      | Some (from, rest) =>
          let i := String.length s - String.length from in
          let t := take (String.length from - String.length rest) from in
          Some ({| index := i; text := t |}, i + String.length t)
      end
  end.

Definition test (r : RegExp) (s : string) : bool :=
  match exec r s 0 with Some _ => true | None => false end.

(** [DEFAULT_RECORD_SEPARATOR = /^_+$/] *)
Definition DEFAULT_RECORD_SEPARATOR : RegExp :=
  Seq Bol (Seq (Plus (Chr "_"%char)) Eol).

(** The pattern that [_.escapeRegExp] makes of a literal. *)
Fixpoint lit (h : string) : RegExp :=
  match h with
  | "" => Eps
  | String c t => Seq (Chr c) (lit t)
  end.

(** [new RegExp(terms.join('|'), 'g')] for escaped literals: joining no
    term at all gives the empty pattern. *)
Fixpoint alternation (terms : list string) : RegExp :=
  match terms with
  | [] => Eps
  | [h] => lit h
  | h :: t => Alt (lit h) (alternation t)
  end.

(** ** Header matcher *)

(** [allMatches]: the loop [while (m = regexp.exec(s)) results.push(m)]
    on a global pattern, whose [lastIndex] is advanced by every match.
    [None] when the loop is still running after [fuel] calls of [exec].
    The failing call that ends the loop leaves [lastIndex] at 0, which is
    where the next line starts. *)
Fixpoint allMatches_from (fuel : nat) (regexp : RegExp) (s : string)
  (lastIndex : nat) : option (list RMatch) :=
  match fuel with
  | O => None
  | S f =>
      match exec regexp s lastIndex with
      | None => Some []
      | Some (m, lastIndex') =>
          option_map (cons m) (allMatches_from f regexp s lastIndex')
      end
  end.

Definition allMatches (fuel : nat) (regexp : RegExp) (s : string)
  : option (list RMatch) :=
  allMatches_from fuel regexp s 0.

Record StringRegion : Type := { value : string; isMatch : bool }.

(** [string.slice(from, to)] for [from <= to]. *)
Definition str_slice (from to : nat) (s : string) : string :=
  substring from (to - from) s.

(** The [forEach] of [splitByMatches]: the regions up to the last match
    and the final cursor. *)
Fixpoint regions_of (s : string) (cursor : nat) (matches : list RMatch)
  : list StringRegion * nat :=
  match matches with
  | [] => ([], cursor)
  | m :: t =>
      let before :=
        if (cursor =? index m)%nat then []
        else [{| value := str_slice cursor (index m) s; isMatch := false |}] in
      let '(rs, c) := regions_of s (index m + String.length (text m)) t in
      (before ++ {| value := text m; isMatch := true |} :: rs, c)
  end.

Definition splitByMatches_of (s : string) (matches : list RMatch)
  : list StringRegion :=
  let '(results, cursor) := regions_of s 0 matches in
  if negb (cursor =? String.length s)%nat || (List.length results =? 0)%nat
  then results ++ [{| value := str_slice cursor (String.length s) s;
                      isMatch := false |}]
  else results.

(** One call of [exec] per match and one that fails: a line of length
    [k] needs at most [k + 2] calls when every match is non-empty. *)
Definition enough_fuel (s : string) : nat := String.length s + 2.

Definition splitByMatches (regexp : RegExp) (s : string)
  : outcome (list StringRegion) :=
  match allMatches (enough_fuel s) regexp s with
  | None => Hang
  | Some matches => Ok (splitByMatches_of s matches)
  end.

(** ** The dictionary *)

(** A processor configuration: an entry of [fields_by_header].  Every
    option may be absent. *)
Record FieldDef : Type := {
  type : string;
  field : option string;
  field_name : option string;
  table_name : option string;
  num_columns : option Z;
  location_field : option string;
  contacts_field : option string
}.

Record BelongsTo : Type := {
  as_ : option string;
  match_on : option string
}.

Record TypeDef : Type := {
  fields : option (list (string * string));
  fields_by_header : option (list (string * FieldDef));
  belongs_to : option BelongsTo
}.

Record Options : Type := {
  record_separator : option RegExp
}.

(** The entries of the dictionary object other than [options], in
    enumeration order, and the [options] entry. *)
Record Dictionary : Type := {
  types : list (string * TypeDef);
  options : option Options
}.

Definition or_empty {A : Type} (o : option (list A)) : list A :=
  match o with Some l => l | None => [] end.

(** A property name given by an optional string: [o[undefined]] reads
    the property called "undefined". *)
Definition key_of (o : option string) : string :=
  match o with Some s => s | None => "undefined" end.

(** ** Field processors *)

(** [new RequiredOption(name)] touches [this] before [super()] has run,
    so evaluating it raises a ReferenceError and nothing of class
    [RequiredOption] is ever thrown. *)
Definition new_RequiredOption (optionName : string) : JsError :=
  ReferenceError "this".

Definition requiredOption {A : Type} (is_truthy : A -> bool)
  (val : option A) (name : string) : outcome A :=
  match val with
  | Some v => if is_truthy v then Ok v else Err (new_RequiredOption name)
  | None => Err (new_RequiredOption name)
  end.

Definition truthy_string (s : string) : bool := negb (is_empty s).
Definition truthy_number (z : Z) : bool := negb (z =? 0)%Z.

(** A configured processor: [function (obj, header, value)]. *)
Definition Processor : Type := Obj -> string -> Val -> outcome Obj.

(** A method of [String.prototype] called on the captured value. *)
Definition as_string (v : Val) (method : string) : outcome string :=
  match v with
  | VStr s => Ok s
  | _ => Err (TypeError (method +++ " is not a function"))
  end.

Definition trimmed (opts : FieldDef) : outcome Processor :=
  let* field := requiredOption truthy_string (field opts) "field" in
  Ok (fun obj header value =>
        let* s := as_string value "value.trim" in
        Ok (obj_set field (VStr (trim s)) obj)).

(** [_.zipObject(props, values)] *)
Fixpoint zipObject_into (acc : Obj) (props : list string) (values : list Val)
  : Obj :=
  match props with
  | [] => acc
  | p :: ps =>
      zipObject_into (obj_set p (hd VUndef values) acc) ps (tl values)
  end.

Definition zipObject (props : list string) (values : list Val) : Obj :=
  zipObject_into [] props values.

(** The lines of the table: all lines but the first, trimmed, blank
    ones removed. *)
Definition tableLines_of (lines : list string) : list string :=
  filter (fun s => negb (is_empty s)) (map trim (js_slice_from 1 lines)).

Definition table_rows (numColumns : Z) (tableLines : list string) : list Val :=
  let numRows :=
    (Z.quot (Z.of_nat (List.length tableLines)) numColumns - 1)%Z in
  let colNames := js_slice 0 numColumns tableLines in
  map (fun i : nat =>
         let rowElems := js_slice ((Z.of_nat i + 1) * numColumns)
                                  ((Z.of_nat i + 2) * numColumns) tableLines in
         VObj (zipObject colNames (map VStr rowElems)))
      (seq 0 (Z.to_nat numRows)).

(** When the lines do not divide into rows the source first evaluates
    [console.log(trimmedLines)]; no [trimmedLines] is in scope, so that
    raises a ReferenceError and the [throw] of the message below it is
    never reached. *)
Definition field_followed_by_table (opts : FieldDef) : outcome Processor :=
  let* fieldName := requiredOption truthy_string (field_name opts) "field_name" in
  let* tableName := requiredOption truthy_string (table_name opts) "table_name" in
  let* numColumns := requiredOption truthy_number (num_columns opts) "num_columns" in
  Ok (fun obj header value =>
        let* s := as_string value "string.split" in
        let lines := splitLines s in
        let simpleVal := trim (hd "" lines) in
        let obj := obj_set fieldName (VStr simpleVal) obj in
        let tableLines := tableLines_of lines in
        if negb (Z.rem (Z.of_nat (List.length tableLines)) numColumns =? 0)%Z
        then Err (ReferenceError "trimmedLines")
        else Ok (obj_set tableName (VArr (table_rows numColumns tableLines)) obj)).

(** The message of the [throw] that the source has after the
    [console.log]. *)
Definition malformed_table_message (header : string) (lines : nat)
  (numColumns : Z) : string :=
  "Table " +++ header +++ " has " +++ string_of_nat lines +++ " lines which"
  +++ " can't cleanly divide " +++ string_of_Z numColumns +++ " columns".

(** [/^prefix/.test(line)] *)
Definition starts_with (prefix line : string) : bool :=
  test (Seq Bol (lit prefix)) line.

(** [exec] of the pattern made of [^], the prefix, a group of any
    characters and [$]: the captured group. *)
Definition capture_after (prefix line : string) : option string :=
  if test (Seq Bol (Seq (lit prefix) (Seq (Star Any) Eol))) line
  then drop (String.length prefix) line
  else None.

Definition val_of_capture (c : option string) : Val :=
  match c with Some s => VStr s | None => VNull end.

(** The loop over [contactLines], two lines at a time. *)
Fixpoint contacts_of (contactLines : list string) : list Val :=
  match contactLines with
  | [] => []
  | contactNameLine :: rest =>
      let contactName := val_of_capture (capture_after "Contact Name " contactNameLine) in
      let contactPhone :=
        match rest with
        | contactPhoneLine :: _ =>
            if truthy_string contactPhoneLine
            then val_of_capture (capture_after "Telephone " contactPhoneLine)
            else VNull
        | [] => VNull
        end in
      let here :=
        if truthy contactName || truthy contactPhone
        then [VObj [("name", contactName); ("phone", contactPhone)]]
        else [] in
      match rest with
      | _ :: rest' => here ++ contacts_of rest'
      | [] => here
      end
  end.

Definition primary_secondary_location (opts : FieldDef) : outcome Processor :=
  let* locationField := requiredOption truthy_string (location_field opts) "location_field" in
  let* contactsField := requiredOption truthy_string (contacts_field opts) "contacts_field" in
  Ok (fun obj header value =>
        let* s := as_string value "string.split" in
        let lines := splitLines s in
        let contactIndex := findIndex (starts_with "Contact ") lines in
        let contactLines :=
          filter (fun s => negb (is_empty (trim s)))
                 (js_slice_from contactIndex lines) in
        let contacts := contacts_of contactLines in
        let secondaryLocationHeader :=
          findIndex (starts_with "Secondary Location") lines in
        let locationLines :=
          js_slice (secondaryLocationHeader + 1) contactIndex lines in
        let location := trim (join newline locationLines) in
        let obj := obj_set contactsField (VArr contacts) obj in
        Ok (obj_set locationField (VStr location) obj)).

(** [FIELD_TYPES[kind]]: [None] when the table has no such entry. *)
Definition FIELD_TYPES (kind : string) : option (FieldDef -> outcome Processor) :=
  if String.eqb kind "trimmed" then Some trimmed
  else if String.eqb kind "field_followed_by_table" then Some field_followed_by_table
  else if String.eqb kind "primary_secondary_location" then Some primary_secondary_location
  else None.

(** The options object [{field: field}] that [process] builds for an
    entry of [fields]. *)
Definition only_field (f : string) : FieldDef :=
  {| type := "trimmed"; field := Some f; field_name := None;
     table_name := None; num_columns := None;
     location_field := None; contacts_field := None |}.

(** ** FieldDictionary *)

(** The setter of [data]: every type gets a [fields_by_header], and the
    dictionary an [options] entry. *)
Definition set_data (newData : Dictionary) : Dictionary :=
  {| types :=
       map (fun entry : string * TypeDef =>
              let '(typeName, typeDef) := entry in
              (typeName,
               {| fields := fields typeDef;
                  fields_by_header :=
                    match fields_by_header typeDef with
                    | Some f => Some f
                    | None => Some []
                    end;
                  belongs_to := belongs_to typeDef |}))
           (types newData);
     options :=
       match options newData with
       | Some o => Some o
       | None => Some {| record_separator := None |}
       end |}.

Record FieldDictionary : Type := { data : Dictionary }.

Definition new_FieldDictionary (newData : Dictionary) : FieldDictionary :=
  {| data := set_data newData |}.

(** The [options] entry is visited like a type, and has neither
    [fields] nor [fields_by_header]. *)
Definition allHeaders (this : FieldDictionary) : list string :=
  flat_map (fun entry : string * TypeDef =>
              map snd (or_empty (fields (snd entry)))
              ++ map fst (or_empty (fields_by_header (snd entry))))
           (types (data this)).

Definition declares (typeDef : TypeDef) (header : string) : bool :=
  existsb (fun h => String.eqb header h) (map snd (or_empty (fields typeDef)))
  || existsb (fun h => String.eqb header h)
             (map fst (or_empty (fields_by_header typeDef))).

Definition typesForHeader (this : FieldDictionary) (header : string)
  : list string :=
  flat_map (fun entry : string * TypeDef =>
              if declares (snd entry) header then [fst entry] else [])
           (types (data this)).

(** [this.data[typeName]] *)
Definition lookup_type (this : FieldDictionary) (typeName : string)
  : option TypeDef :=
  option_map snd
    (find (fun entry : string * TypeDef => String.eqb typeName (fst entry))
          (types (data this))).

Definition process (this : FieldDictionary) (obj : Obj)
  (typeName header : string) (value : Val) : outcome Obj :=
  if String.eqb header "_meta" then Ok (obj_set "_meta" value obj)
  else
    match lookup_type this typeName with
    | None => Err (TypeError "typeDef is undefined")
    | Some typeDef =>
        match fields typeDef with
        | None => Err (TypeError "Object.entries of undefined")
        | Some fs =>
            match find (fun e : string * string => String.eqb (snd e) header) fs with
            | Some (field, _) =>
                let* processor := trimmed (only_field field) in
                processor obj header value
            | None =>
                match fields_by_header typeDef with
                | None => Err (TypeError "Object.entries of undefined")
                | Some fbh =>
                    match find (fun e : string * FieldDef =>
                                  String.eqb (fst e) header) fbh with
                    | Some (_, fieldDef) =>
                        match FIELD_TYPES (type fieldDef) with
                        | None =>
                            Err (TypeError "FIELD_TYPES[fieldDef.type] is not a function")
                        | Some make =>
                            let* processor := make fieldDef in
                            processor obj header value
                        end
                    | None =>
                        Err (Thrown ("No processor found in dictionary for header "
                                     +++ header +++ " in " +++ typeName))
                    end
                end
            end
        end
    end.

Definition ownerOf (this : FieldDictionary) (typeName : string)
  : outcome (option BelongsTo) :=
  match lookup_type this typeName with
  | None => Err (TypeError "this.data[typeName] is undefined")
  | Some typeDef => Ok (belongs_to typeDef)
  end.

Definition recordSeparator (this : FieldDictionary) : outcome RegExp :=
  match options (data this) with
  | None => Err (TypeError "this.data.options is undefined")
  | Some o =>
      match record_separator o with
      | Some sep => Ok sep
      | None => Ok DEFAULT_RECORD_SEPARATOR
      end
  end.

(** ** Classification and filing *)

(** The [forEach] of [identifyObjectType] over the captured headers. *)
Fixpoint identify_from (dictionary : FieldDictionary) (headers : list string)
  (objectType : option string) : outcome (option string) :=
  match headers with
  | [] => Ok objectType
  | header :: rest =>
      match typesForHeader dictionary header with
      | [typeName] =>
          match objectType with
          | None => identify_from dictionary rest (Some typeName)
          | Some current =>
              if String.eqb current typeName
              then identify_from dictionary rest objectType
              else Err (Thrown ("Object can have two or more types: "
                                +++ current +++ " and " +++ typeName
                                +++ " due to header " +++ header))
          end
      | _ => identify_from dictionary rest objectType
      end
  end.

Definition identifyObjectType (rawFields : Obj) (dictionary : FieldDictionary)
  : outcome (option string) :=
  identify_from dictionary (keys rawFields) None.

(** The [forEach] of [cookObject] that runs [dictionary.process]. *)
Fixpoint process_all (dictionary : FieldDictionary) (objectType : string)
  (entries : Obj) (result : Obj) : outcome Obj :=
  match entries with
  | [] => Ok result
  | (header, value) :: rest =>
      let* result' := process dictionary result objectType header value in
      process_all dictionary objectType rest result'
  end.

(** The element of the array that [find] returned is changed in place. *)
Fixpoint mutate_first (p : Obj -> bool) (f : Obj -> Obj) (l : list Obj)
  : list Obj :=
  match l with
  | [] => []
  | o :: t => if p o then f o :: t else o :: mutate_first p f t
  end.

(** [cookObject] returns nothing; its effect is on [currObjects], whose
    new contents are returned here.  The warning for a record without
    owner goes to the console only. *)
Definition cookObject (rawFields : Obj) (currObjects : list Obj)
  (dictionary : FieldDictionary) : outcome (list Obj) :=
  let* objectType := identifyObjectType rawFields dictionary in
  match objectType with
  | None =>
      Err (Thrown ("Object could not be categorized: "
                   +++ JSON_stringify (VObj rawFields)))
  | Some objectType =>
      let* result := process_all dictionary objectType rawFields [] in
      let* owner := ownerOf dictionary objectType in
      match owner with
      | Some owner =>
          let matchField := key_of (match_on owner) in
          let is_owner := fun o : Obj =>
            strict_eq (prop matchField o) (prop matchField result) in
          match find is_owner currObjects with
          | None => Ok currObjects
          | Some ownerObj =>
              let name := key_of (as_ owner) in
              let ownerObj :=
                if negb (truthy (prop name ownerObj))
                then obj_set name (VArr []) ownerObj else ownerObj in
              match prop name ownerObj with
              | VArr items =>
                  Ok (mutate_first is_owner
                        (fun _ => obj_set name (VArr (items ++ [VObj result])) ownerObj)
                        currObjects)
              | _ => Err (TypeError "ownerObj[owner.as].push is not a function")
              end
          end
      | None => Ok (currObjects ++ [result])
      end
  end.

Definition buildDictionaryRegex (dictionary : FieldDictionary) : RegExp :=
  alternation (allHeaders dictionary).

(** ** ObjectBuilder *)

Record ObjectBuilder : Type := { object : Obj }.

Definition new_ObjectBuilder : ObjectBuilder := {| object := [] |}.

(** The file is in strict mode: creating a property on a string that
    sits in [_meta] is a TypeError. *)
Definition warn (this : ObjectBuilder) (warnType message : string)
  : outcome ObjectBuilder :=
  let o := object this in
  let o := if negb (truthy (prop "_meta" o))
           then obj_set "_meta" (VObj []) o else o in
  match prop "_meta" o with
  | VObj meta =>
      let meta := if negb (truthy (prop warnType meta))
                  then obj_set warnType (VArr []) meta else meta in
      match prop warnType meta with
      | VArr items =>
          let meta := obj_set warnType (VArr (items ++ [VStr message])) meta in
          Ok {| object := obj_set "_meta" (VObj meta) o |}
      | _ => Err (TypeError "this.object._meta[warnType].push is not a function")
      end
  | _ => Err (TypeError "Cannot create property on a primitive")
  end.

(** The text that [+] makes of a built-in function. *)
Definition native (name : string) : string :=
  "function " +++ name +++ "() { [native code] }".

(** The members of [Object.prototype], each with the text that [+]
    makes of it; [__proto__] reads as the prototype itself.  All of them
    are truthy. *)
Definition Object_prototype : list (string * string) :=
  [("constructor", native "Object");
   ("__defineGetter__", native "__defineGetter__");
   ("__defineSetter__", native "__defineSetter__");
   ("hasOwnProperty", native "hasOwnProperty");
   ("__lookupGetter__", native "__lookupGetter__");
   ("__lookupSetter__", native "__lookupSetter__");
   ("isPrototypeOf", native "isPrototypeOf");
   ("propertyIsEnumerable", native "propertyIsEnumerable");
   ("toString", native "toString");
   ("valueOf", native "valueOf");
   ("__proto__", "[object Object]");
   ("toLocaleString", native "toLocaleString")].

Definition inherited (name : string) : option string :=
  option_map snd
    (find (fun m : string * string => String.eqb name (fst m))
          Object_prototype).

(** [this.object[field]] as [store] reads it, on an object created by
    [{}]: the own property when there is one, and else the member of
    [Object.prototype] of that name.  [Some shown] when what is read is
    truthy, [shown] being the text that [+] makes of it. *)
Definition stored (o : Obj) (field : string) : option string :=
  match obj_get field o with
  | Some v => if truthy v then Some (to_js_string v) else None
  | None => inherited field
  end.

(** [this.object[field] = value] for a string [value]: the setter of
    [__proto__] ignores a value that is not an object, so that the
    assignment creates no property. *)
Definition assign (field value : string) (o : Obj) : Obj :=
  if String.eqb field "__proto__" && negb (obj_has field o) then o
  else obj_set field (VStr value) o.

Definition repeated_text (field shown : string) : string :=
  "Repeated value for '" +++ field +++ "', '" +++ shown +++ "'".

Definition repeated_message (field : string) (previous : Val) : string :=
  repeated_text field (to_js_string previous).

Definition store (this : ObjectBuilder) (field value : string)
  : outcome ObjectBuilder :=
  let* this :=
    match stored (object this) field with
    | Some shown => warn this "ignored_text" (repeated_text field shown)
    | None => Ok this
    end in
  Ok {| object := assign field value (object this) |}.

Definition isEmpty (this : ObjectBuilder) : bool :=
  match keys (object this) with
  | [] => true
  | [k] => String.eqb k "_meta"
  | _ => false
  end.

(** ** OrderParser *)

Record OrderParser : Type := {
  dictionary : FieldDictionary;
  regex : RegExp
}.

(** The constructor has no [throw], and on a typed dictionary none of
    its property reads can fail. *)
Definition new_OrderParser (dictionary : Dictionary) : outcome OrderParser :=
  let d := new_FieldDictionary dictionary in
  Ok {| dictionary := d; regex := buildDictionaryRegex d |}.

(** The variables that the handlers of [parse] close over: [objects],
    [currObject] and [multilineField] (header and value). *)
Record Scan : Type := {
  objects : list Obj;
  currObject : ObjectBuilder;
  multilineField : option (string * string)
}.

Definition initial : Scan :=
  {| objects := []; currObject := new_ObjectBuilder; multilineField := None |}.

(** [if (multilineField) finishMultilineField()] *)
Definition finishMultilineField (st : Scan) : outcome Scan :=
  match multilineField st with
  | None => Ok st
  | Some (header, value) =>
      let* b := store (currObject st) header value in
      Ok {| objects := objects st; currObject := b; multilineField := None |}
  end.

(** [if (!currObject.isEmpty) cookObject(...)] *)
Definition cook_current (this : OrderParser) (st : Scan) : outcome (list Obj) :=
  if negb (isEmpty (currObject st))
  then cookObject (object (currObject st)) (objects st) (dictionary this)
  else Ok (objects st).

(** The [for] loop over the regions of one line. *)
Fixpoint walk (parts : list StringRegion) (st : Scan) : outcome Scan :=
  match parts with
  | [] => Ok st
  | part :: rest =>
      if negb (isMatch part) then
        match multilineField st with
        | Some (header, v) =>
            walk rest {| objects := objects st; currObject := currObject st;
                         multilineField := Some (header, v +++ value part) |}
        | None =>
            if negb (is_empty (trim (value part))) then
              let* b := warn (currObject st) "ignored_text"
                             ("Ignored header: '" +++ value part +++ "'") in
              walk rest {| objects := objects st; currObject := b;
                           multilineField := None |}
            else walk rest st
        end
      else
        let* st := finishMultilineField st in
        let header := value part in
        match rest with
        | next :: rest' =>
            walk rest' {| objects := objects st; currObject := currObject st;
                          multilineField := Some (header, value next) |}
        | [] =>
            Ok {| objects := objects st; currObject := currObject st;
                  multilineField := Some (header, "") |}
        end
  end.

(** The branch of the ['line'] handler for a record separator. *)
Definition on_separator (this : OrderParser) (st : Scan) : outcome Scan :=
  let* st := finishMultilineField st in
  let* objs := cook_current this st in
  Ok {| objects := objs; currObject := new_ObjectBuilder;
        multilineField := None |}.

(** [if (multilineField) multilineField.value = multilineField.value + '\n'] *)
Definition continue_field (st : Scan) : Scan :=
  match multilineField st with
  | Some (header, v) =>
      {| objects := objects st; currObject := currObject st;
         multilineField := Some (header, v +++ newline) |}
  | None => st
  end.

(** The ['line'] handler. *)
Definition on_line (this : OrderParser) (st : Scan) (line : string)
  : outcome Scan :=
  let* sep := recordSeparator (dictionary this) in
  if test sep line then on_separator this st
  else
    let st := continue_field st in
    let* parts := splitByMatches (regex this) line in
    walk parts st.

(** The ['close'] handler: the value the promise resolves with. *)
Definition on_close (this : OrderParser) (st : Scan) : outcome (list Obj) :=
  let* st := finishMultilineField st in
  cook_current this st.

Fixpoint scan (this : OrderParser) (st : Scan) (lines : list string)
  : outcome Scan :=
  match lines with
  | [] => Ok st
  | line :: rest =>
      let* st' := on_line this st line in
      scan this st' rest
  end.

Definition parse_lines (this : OrderParser) (lines : list string)
  : outcome (list Obj) :=
  let* st := scan this initial lines in
  on_close this st.

(** [parser.parse(text)] for a string. *)
Definition parse (this : OrderParser) (text : string) : outcome (list Obj) :=
  parse_lines this (readline_lines text).

(** [new OrderParser(dictionary).parse(text)] *)
Definition run (dictionary : Dictionary) (text : string) : outcome (list Obj) :=
  let* parser := new_OrderParser dictionary in
  parse parser text.

(** ** Reference semantics of patterns

    [matches n r mid rest]: in a subject of length [n], the pattern [r]
    matches the text [mid] when [rest] is what follows it. *)
Inductive matches (n : nat) : RegExp -> string -> string -> Prop :=
| M_Eps rest : matches n Eps "" rest
| M_Chr c rest : matches n (Chr c) (String c "") rest
| M_Any c rest :
    line_terminator c = false -> matches n Any (String c "") rest
| M_OneOf cs c rest :
    mem_ascii c cs = true -> matches n (OneOf cs) (String c "") rest
| M_NoneOf cs c rest :
    mem_ascii c cs = false -> matches n (NoneOf cs) (String c "") rest
| M_Seq a b m1 m2 rest :
    matches n a m1 (m2 +++ rest) -> matches n b m2 rest ->
    matches n (Seq a b) (m1 +++ m2) rest
| M_AltL a b m rest : matches n a m rest -> matches n (Alt a b) m rest
| M_AltR a b m rest : matches n b m rest -> matches n (Alt a b) m rest
| M_Star0 a rest : matches n (Star a) "" rest
| M_StarS a m1 m2 rest :
    m1 <> "" ->
    matches n a m1 (m2 +++ rest) -> matches n (Star a) m2 rest ->
    matches n (Star a) (m1 +++ m2) rest
| M_Bol rest : String.length rest = n -> matches n Bol "" rest
| M_Eol : matches n Eol "" "".

Fixpoint all_underscores (s : string) : bool :=
  match s with
  | "" => true
  | String c t => Ascii.eqb c "_"%char && all_underscores t
  end.

(** ** Dictionaries and inputs of the test suite *)

Definition plain_type (fs : list (string * string)) : TypeDef :=
  {| fields := Some fs; fields_by_header := None; belongs_to := None |}.

(** [{Order: {fields: {foo: "Foo:"}}}] *)
Definition dict_foo : Dictionary :=
  {| types := [("Order", plain_type [("foo", "Foo:")])]; options := None |}.

(** A dictionary without any type. *)
Definition dict_empty : Dictionary := {| types := []; options := None |}.

Definition text_of_lines (lines : list string) : string := join newline lines.

(** [{options: {record_separator: "---"}, Order: {fields: {foo: "Foo:"}}}] *)
Definition dict_dashes : Dictionary :=
  {| types := [("Order", plain_type [("foo", "Foo:")])];
     options := Some {| record_separator := Some (lit "---") |} |}.

(** [{Order: {fields: {foo: "Foo:", p: "__proto__"}}}]: a type with a
    field whose header is the text [__proto__]. *)
Definition dict_proto : Dictionary :=
  {| types := [("Order", plain_type [("foo", "Foo:"); ("p", "__proto__")])];
     options := None |}.

(** [{Order: {fields: {foo: "Foo:", bar: "Bar:"}}}] *)
Definition dict_foo_bar : Dictionary :=
  {| types := [("Order", plain_type [("foo", "Foo:"); ("bar", "Bar:")])];
     options := None |}.

Definition table_def (columns : option Z) : FieldDef :=
  {| type := "field_followed_by_table"; field := None;
     field_name := Some "due"; table_name := Some "items";
     num_columns := columns;
     location_field := None; contacts_field := None |}.

(** An order with a table under the header [Due:]. *)
Definition dict_table (columns : option Z) : Dictionary :=
  {| types :=
       [("Order",
         {| fields := Some [("foo", "Foo:")];
            fields_by_header := Some [("Due:", table_def columns)];
            belongs_to := None |})];
     options := None |}.

(** The table without [num_columns] under a header that [fields]
    declares as well. *)
Definition dict_shadowed : Dictionary :=
  {| types :=
       [("Order",
         {| fields := Some [("foo", "Foo:"); ("due", "Due:")];
            fields_by_header := Some [("Due:", table_def None)];
            belongs_to := None |})];
     options := None |}.

(** The same with a processor kind that [FIELD_TYPES] does not have. *)
Definition dict_unknown_kind : Dictionary :=
  {| types :=
       [("Order",
         {| fields := Some [("foo", "Foo:")];
            fields_by_header :=
              Some [("Due:",
                     {| type := "date"; field := Some "due";
                        field_name := None; table_name := None;
                        num_columns := None;
                        location_field := None; contacts_field := None |})];
            belongs_to := None |})];
     options := None |}.

(** ** Notions of the specification *)

Definition present_string (o : option string) : bool :=
  match o with Some s => negb (is_empty s) | None => false end.

Definition present_number (o : option Z) : bool :=
  match o with Some z => negb (z =? 0)%Z | None => false end.

(** A processor configuration that names an unknown kind or lacks an
    option that its kind requires. *)
Definition bad_configuration (fd : FieldDef) : bool :=
  if String.eqb (type fd) "trimmed" then negb (present_string (field fd))
  else if String.eqb (type fd) "field_followed_by_table" then
    negb (present_string (field_name fd) && present_string (table_name fd)
          && present_number (num_columns fd))
  else if String.eqb (type fd) "primary_secondary_location" then
    negb (present_string (location_field fd)
          && present_string (contacts_field fd))
  else true.

(** The processor configuration that [process] uses for a header in a
    record of a type: the [trimmed] processor of the field when [fields]
    declares the header, and else the header's entry in
    [fields_by_header].  [_meta] is handed on without a processor. *)
Definition configuration_for (d : FieldDictionary) (typeName header : string)
  : option FieldDef :=
  if String.eqb header "_meta" then None
  else
    match lookup_type d typeName with
    | None => None
    | Some typeDef =>
        match fields typeDef with
        | None => None
        | Some fs =>
            match find (fun e : string * string => String.eqb (snd e) header)
                       fs with
            | Some (field, _) => Some (only_field field)
            | None =>
                match fields_by_header typeDef with
                | None => None
                | Some fbh =>
                    option_map snd
                      (find (fun e : string * FieldDef =>
                               String.eqb (fst e) header) fbh)
                end
            end
        end
    end.

(** The errors of a bad configuration: the ReferenceError that
    [requiredOption] ends in, and the TypeError of calling a processor
    kind that [FIELD_TYPES] does not have. *)
Definition configuration_error (e : JsError) : Prop :=
  e = ReferenceError "this"
  \/ e = TypeError "FIELD_TYPES[fieldDef.type] is not a function".

(** The text [h] stands somewhere in one of the lines. *)
Definition occurs (h : string) (lines : list string) : Prop :=
  exists line pre post, In line lines /\ line = pre +++ h +++ post.

(** Every name that the scanner holds, as a captured header or as the
    header of the open field, stands in a line read so far. *)
Definition seen (lines : list string) (st : Scan) : Prop :=
  (forall k, In k (keys (object (currObject st))) ->
             k = "_meta" \/ occurs k lines)
  /\ (forall h v, multilineField st = Some (h, v) -> occurs h lines).



(** The votes of a raw capture: each captured header that exactly one
    type declares, with that type. *)
Definition vote (d : FieldDictionary) (header : string)
  : list (string * string) :=
  match typesForHeader d header with
  | [typeName] => [(header, typeName)]
  | _ => []
  end.

Definition votes_of (d : FieldDictionary) (headers : list string)
  : list (string * string) :=
  flat_map (vote d) headers.

Definition votes (d : FieldDictionary) (rawFields : Obj)
  : list (string * string) :=
  votes_of d (keys rawFields).

Definition ambiguity_message (current typeName header : string) : string :=
  "Object can have two or more types: " +++ current +++ " and " +++ typeName
  +++ " due to header " +++ header.

(** The dictionary of the test for ownership: [belongs_to] has [by]
    where the parser reads [match_on]. *)
Definition dict_suborders : Dictionary :=
  {| types :=
       [("Order", plain_type [("foo", "Foo:")]);
        ("Suborder",
         {| fields := Some [("foo", "foo:"); ("bar", "bar:")];
            fields_by_header := None;
            belongs_to := Some {| as_ := Some "suborders"; match_on := None |} |})];
     options := None |}.

(** The same with [match_on: "foo"]. *)
Definition dict_owned : Dictionary :=
  {| types :=
       [("Order", plain_type [("foo", "Foo:")]);
        ("Suborder",
         {| fields := Some [("foo", "foo:"); ("bar", "bar:")];
            fields_by_header := None;
            belongs_to := Some {| as_ := Some "suborders";
                                  match_on := Some "foo" |} |})];
     options := None |}.

(** The warnings of a builder: [object._meta.ignored_text]. *)
Definition warnings (b : ObjectBuilder) : list Val :=
  match prop "_meta" (object b) with
  | VObj meta =>
      match prop "ignored_text" meta with
      | VArr l => l
      | _ => []
      end
  | _ => []
  end.

(** One round of the [for] loop of the ['line'] handler: the regions
    that are left, and the variables after the round. *)
Definition walk_step (parts : list StringRegion) (st : Scan)
  : outcome (list StringRegion * Scan) :=
  match parts with
  | [] => Ok ([], st)
  | part :: rest =>
      if negb (isMatch part) then
        match multilineField st with
        | Some (header, v) =>
            Ok (rest, {| objects := objects st; currObject := currObject st;
                         multilineField := Some (header, v +++ value part) |})
        | None =>
            if negb (is_empty (trim (value part))) then
              let* b := warn (currObject st) "ignored_text"
                             ("Ignored header: '" +++ value part +++ "'") in
              Ok (rest, {| objects := objects st; currObject := b;
                           multilineField := None |})
            else Ok (rest, st)
        end
      else
        let* st := finishMultilineField st in
        match rest with
        | next :: rest' =>
            Ok (rest', {| objects := objects st; currObject := currObject st;
                          multilineField := Some (value part, value next) |})
        | [] =>
            Ok ([], {| objects := objects st; currObject := currObject st;
                       multilineField := Some (value part, "") |})
        end
  end.

(** [loop_head parts st rest st']: the loop that starts on [parts] with
    [st] is, after some rounds, about to handle [rest] with [st']. *)
Inductive loop_head : list StringRegion -> Scan ->
                      list StringRegion -> Scan -> Prop :=
| head_start parts st : loop_head parts st parts st
| head_round parts st rest st' rest' st'' :
    parts <> [] ->
    walk_step parts st = Ok (rest, st') ->
    loop_head rest st' rest' st'' ->
    loop_head parts st rest' st''.

(** The moments of a parse at which an open field is finalized: when
    the lines so far are followed by a separator or by the end of the
    input, and when the loop over a line comes to a header. *)
Inductive finalizing (this : OrderParser) : Scan -> Prop :=
| finalizing_between lines st :
    scan this initial lines = Ok st ->
    finalizing this st
| finalizing_at_header lines st0 line sep parts part rest st :
    scan this initial lines = Ok st0 ->
    recordSeparator (dictionary this) = Ok sep ->
    test sep line = false ->
    splitByMatches (regex this) line = Ok parts ->
    loop_head parts (continue_field st0) (part :: rest) st ->
    isMatch part = true ->
    finalizing this st.

(** What the scanner keeps true of the builder: [_meta], when present,
    is the object that [warn] made, and every captured value is a
    non-empty string. *)
Definition builder_ok (o : Obj) : Prop :=
  (obj_get "_meta" o = None
   \/ exists l, obj_get "_meta" o = Some (VObj [("ignored_text", VArr l)]))
  /\ forall k v, k <> "_meta" -> obj_get k o = Some v ->
                 exists s, v = VStr s /\ s <> "".

(** What the loop keeps true at its head: the open field has a declared
    header, and a value that is not empty unless the line is done. *)
Definition head_ok (headers : list string) (rest : list StringRegion)
  (st : Scan) : Prop :=
  builder_ok (object (currObject st))
  /\ forall h v, multilineField st = Some (h, v) ->
                 In h headers /\ (rest <> [] -> v <> "").

(** The regions of a line: the matched ones are declared headers, and
    all but the first one are non-empty. *)
Definition parts_ok (headers : list string) (parts : list StringRegion) : Prop :=
  Forall (fun p => isMatch p = true -> In (value p) headers) parts
  /\ Forall (fun p => value p <> "") (tl parts).

(** The matches of a line, one after the other from [cursor] on, each
    of them non-empty, and within the line. *)
Fixpoint spaced (s : string) (cursor : nat) (ms : list RMatch) : Prop :=
  match ms with
  | [] => cursor <= String.length s
  | m :: t =>
      cursor <= index m /\ text m <> ""
      /\ spaced s (index m + String.length (text m)) t
  end.



Definition with_objects (objs : list Obj) (st : Scan) : Scan :=
  {| objects := objs; currObject := currObject st;
     multilineField := multilineField st |}.


(** A call that comes back, with a value or an exception. *)
Definition returns {A : Type} (m : outcome A) : Prop := m <> Hang.

(** ** Notions for the further properties *)

(** The regions of a line put together again. *)
Definition text_of_regions (parts : list StringRegion) : string :=
  fold_right (fun p acc => value p +++ acc) "" parts.

(** [h] is at the start of [s]. *)
Fixpoint has_prefix (h s : string) : bool :=
  match h, s with
  | "", _ => true
  | String c t, String c' t' => Ascii.eqb c c' && has_prefix t t'
  | String _ _, "" => false
  end.

(** [s] without the carriage returns that stand directly before a line
    feed. *)
Fixpoint without_cr_before_lf (s : string) : string :=
  match s with
  | "" => ""
  | String c t =>
      if Ascii.eqb c CR && starts_with_lf t then without_cr_before_lf t
      else String c (without_cr_before_lf t)
  end.

(** A line feed somewhere in [s]. *)
Fixpoint has_lf (s : string) : bool :=
  match s with
  | "" => false
  | String c t => Ascii.eqb c LF || has_lf t
  end.



Definition ignored_message (line : string) : Val :=
  VStr ("Ignored header: '" +++ line +++ "'").

Definition blank (line : string) : bool := is_empty (trim line).

(** No two free-text regions are next to each other. *)
Fixpoint no_adjacent_unmatched (parts : list StringRegion) : bool :=
  match parts with
  | p :: rest =>
      match rest with
      | q :: _ => (isMatch p || isMatch q) && no_adjacent_unmatched rest
      | [] => true
      end
  | [] => true
  end.

(** The text that continuation lines add to an open field. *)
Definition continuation (lines : list string) : string :=
  fold_right (fun l acc => newline +++ l +++ acc) "" lines.

(** A line in which the pattern is found nowhere and which is not a
    record separator. *)
Definition free_text (this : OrderParser) (sep : RegExp) (line : string) : Prop :=
  test sep line = false /\ exec (regex this) line 0 = None.

(** The builder holds nothing but warnings. *)
Definition only_warnings (b : ObjectBuilder) : Prop :=
  object b = []
  \/ exists l, object b = [("_meta", VObj [("ignored_text", VArr l)])].

(** No header of [hs] stands anywhere in [v], its end included. *)
Fixpoint header_free (hs : list string) (v : string) : bool :=
  negb (existsb (fun h => has_prefix h v) hs)
  && match v with
     | "" => true
     | String _ t => header_free hs t
     end.

(** The lines of a record that has one line for each field: the header
    and, on the same line, the value. *)
Definition field_lines (pairs : list (string * string)) : list string :=
  map (fun p => fst p +++ snd p) pairs.

(** What such a record leaves in the builder when the input ends, the
    field [h0] with value [v0] being open and the builder holding [o]:
    every value but the last one is followed by a line feed. *)
Fixpoint captured (o : Obj) (h0 v0 : string) (pairs : list (string * string))
  : Obj :=
  match pairs with
  | [] => obj_set h0 (VStr v0) o
  | (h, v) :: rest =>
      captured (obj_set h0 (VStr (v0 +++ newline)) o) h v rest
  end.

(** * Properties *)

(** ** Strings and lists *)

Lemma append_assoc (a b c : string) : (a +++ b) +++ c = a +++ (b +++ c).
Proof. induction a as [|x a IH]; simpl; [reflexivity | now rewrite IH]. Qed.

Lemma append_empty_r (a : string) : a +++ "" = a.
Proof. induction a as [|x a IH]; simpl; [reflexivity | now rewrite IH]. Qed.

Lemma length_append (a b : string) :
  String.length (a +++ b) = String.length a + String.length b.
Proof. induction a as [|x a IH]; simpl; [reflexivity | now rewrite IH]. Qed.

Lemma is_empty_true (s : string) : is_empty s = true <-> s = "".
Proof. destruct s; simpl; split; congruence. Qed.

Lemma length_zero_empty (s : string) : String.length s = 0 -> s = "".
Proof. destruct s; simpl; [reflexivity | discriminate]. Qed.

(** ** Objects *)

Lemma obj_get_update_same (k : string) (v : Val) (o : Obj) :
  obj_has k o = true -> obj_get k (obj_update k v o) = Some v.
Proof.
  unfold obj_has.
  induction o as [|[k' v'] t IH]; simpl; [discriminate|].
  destruct (String.eqb k k') eqn:E; simpl; rewrite E; auto.
Qed.

Lemma obj_get_update_other (k k' : string) (v : Val) (o : Obj) :
  k <> k' -> obj_get k' (obj_update k v o) = obj_get k' o.
Proof.
  intros Hne.
  induction o as [|[k0 v0] t IH]; simpl; [reflexivity|].
  destruct (String.eqb k k0) eqn:E; simpl.
  - apply String.eqb_eq in E; subst k0.
    destruct (String.eqb k' k) eqn:E'; [|reflexivity].
    apply String.eqb_eq in E'; congruence.
  - now rewrite IH.
Qed.

Lemma obj_get_insert_same (n : N) (k : string) (v : Val) (o : Obj) :
  obj_get k o = None -> obj_get k (obj_insert_index n k v o) = Some v.
Proof.
  induction o as [|[k0 v0] t IH]; simpl; intros Hnone.
  - now rewrite String.eqb_refl.
  - destruct (String.eqb k k0) eqn:E; [discriminate|].
    destruct (array_index k0) as [m|].
    + destruct (n <? m)%N; simpl.
      * now rewrite String.eqb_refl.
      * rewrite E. now apply IH.
    + simpl. now rewrite String.eqb_refl.
Qed.

Lemma obj_get_insert_other (n : N) (k k' : string) (v : Val) (o : Obj) :
  k <> k' -> obj_get k' (obj_insert_index n k v o) = obj_get k' o.
Proof.
  intros Hne.
  assert (Hk : String.eqb k' k = false) by (apply String.eqb_neq; congruence).
  induction o as [|[k0 v0] t IH]; simpl.
  - now rewrite Hk.
  - destruct (array_index k0) as [m|].
    + destruct (n <? m)%N; simpl.
      * now rewrite Hk.
      * now rewrite IH.
    + simpl. now rewrite Hk.
Qed.

Lemma obj_get_app (k : string) (o1 o2 : Obj) :
  obj_get k (o1 ++ o2) =
  match obj_get k o1 with Some v => Some v | None => obj_get k o2 end.
Proof.
  induction o1 as [|[k0 v0] t IH]; simpl; [reflexivity|].
  now destruct (String.eqb k k0).
Qed.

Lemma obj_get_set_same (k : string) (v : Val) (o : Obj) :
  obj_get k (obj_set k v o) = Some v.
Proof.
  unfold obj_set.
  destruct (obj_has k o) eqn:H.
  - now apply obj_get_update_same.
  - unfold obj_has in H.
    destruct (obj_get k o) eqn:G; [discriminate|].
    destruct (array_index k).
    + now apply obj_get_insert_same.
    + rewrite obj_get_app, G. simpl. now rewrite String.eqb_refl.
Qed.

Lemma obj_get_set_other (k k' : string) (v : Val) (o : Obj) :
  k <> k' -> obj_get k' (obj_set k v o) = obj_get k' o.
Proof.
  intros Hne. unfold obj_set.
  destruct (obj_has k o).
  - now apply obj_get_update_other.
  - destruct (array_index k).
    + now apply obj_get_insert_other.
    + rewrite obj_get_app. destruct (obj_get k' o); [reflexivity|].
      simpl. destruct (String.eqb k' k) eqn:E; [|reflexivity].
      apply String.eqb_eq in E; congruence.
Qed.

Lemma prop_set_same (k : string) (v : Val) (o : Obj) :
  prop k (obj_set k v o) = v.
Proof. unfold prop. now rewrite obj_get_set_same. Qed.

Lemma prop_set_other (k k' : string) (v : Val) (o : Obj) :
  k <> k' -> prop k' (obj_set k v o) = prop k' o.
Proof. intros H. unfold prop. now rewrite obj_get_set_other. Qed.

(** ** Patterns: the matcher against the reference semantics *)

Lemma step_char_In (ok : ascii -> bool) (s rest : string) :
  In rest (step_char ok s) <-> exists c, s = String c rest /\ ok c = true.
Proof.
  destruct s as [|c t]; simpl.
  - split; [intros [] | intros (c & H & _); discriminate].
  - destruct (ok c) eqn:E; simpl; split.
    + intros [<-|[]]. now exists c.
    + intros (c' & H & _). injection H as _ ->. now left.
    + intros [].
    + intros (c' & H & Hok). injection H as -> _. congruence.
Qed.

Lemma flat_map_none {A B : Type} (g : A -> list B) (l : list A) :
  (forall x, g x = []) -> flat_map g l = [].
Proof.
  intros H. induction l as [|x l IH]; simpl; [reflexivity|].
  now rewrite H, IH.
Qed.

Lemma star_loop_fuel (step : string -> list string) :
  forall f1 f2 s,
    String.length s <= f1 -> String.length s <= f2 ->
    star_loop step f1 s = star_loop step f2 s.
Proof.
  induction f1 as [|f1 IH]; intros f2 s H1 H2.
  - assert (s = "") by (apply length_zero_empty; lia). subst s.
    destruct f2; simpl; [reflexivity|].
    now rewrite flat_map_none.
  - destruct f2 as [|f2].
    + assert (s = "") by (apply length_zero_empty; lia). subst s.
      simpl. now rewrite flat_map_none.
    + simpl. f_equal. apply flat_map_ext. intros s'.
      destruct (String.length s' <? String.length s)%nat eqn:L; [|reflexivity].
      apply Nat.ltb_lt in L. apply IH; lia.
Qed.

Lemma star_loop_sound (n : nat) (a : RegExp) :
  (forall s rest, In rest (rmatch n a s) ->
                  exists mid, s = mid +++ rest /\ matches n a mid rest) ->
  forall fuel s rest,
    In rest (star_loop (rmatch n a) fuel s) ->
    exists mid, s = mid +++ rest /\ matches n (Star a) mid rest.
Proof.
  intros Ha. induction fuel as [|f IH]; simpl; intros s rest H.
  - destruct H as [<-|[]]. exists "". split; [reflexivity | constructor].
  - apply in_app_or in H as [H|[<-|[]]].
    + apply in_flat_map in H as (s' & Hs' & Hin).
      destruct (String.length s' <? String.length s)%nat eqn:L; [|destruct Hin].
      apply Nat.ltb_lt in L.
      apply Ha in Hs' as (m1 & -> & M1).
      apply IH in Hin as (m2 & -> & M2).
      exists (m1 +++ m2). split; [now rewrite append_assoc|].
      apply M_StarS; auto.
      intros ->. simpl in L. lia.
    + exists "". split; [reflexivity | constructor].
Qed.

Lemma rmatch_sound (n : nat) (r : RegExp) :
  forall s rest,
    In rest (rmatch n r s) ->
    exists mid, s = mid +++ rest /\ matches n r mid rest.
Proof.
  induction r as [|c| |cs|cs|a IHa b IHb|a IHa b IHb|a IHa| |];
    simpl; intros s rest H.
  - destruct H as [<-|[]]. exists "". split; [reflexivity | constructor].
  - apply step_char_In in H as (x & -> & E). apply Ascii.eqb_eq in E; subst x.
    exists (String c ""). split; [reflexivity | constructor].
  - apply step_char_In in H as (x & -> & E). apply negb_true_iff in E.
    exists (String x ""). split; [reflexivity | now constructor].
  - apply step_char_In in H as (x & -> & E).
    exists (String x ""). split; [reflexivity | now constructor].
  - apply step_char_In in H as (x & -> & E). apply negb_true_iff in E.
    exists (String x ""). split; [reflexivity | now constructor].
  - apply in_flat_map in H as (s' & Hs' & Hin).
    apply IHa in Hs' as (m1 & -> & M1).
    apply IHb in Hin as (m2 & -> & M2).
    exists (m1 +++ m2). split; [now rewrite append_assoc|].
    now apply M_Seq.
  - apply in_app_or in H as [H|H].
    + apply IHa in H as (m & -> & M). exists m. split; [reflexivity|].
      now apply M_AltL.
    + apply IHb in H as (m & -> & M). exists m. split; [reflexivity|].
      now apply M_AltR.
  - now apply (star_loop_sound n a IHa) in H.
  - destruct (String.length s =? n)%nat eqn:E; [|destruct H].
    destruct H as [<-|[]]. apply Nat.eqb_eq in E.
    exists "". split; [reflexivity | now constructor].
  - destruct (is_empty s) eqn:E; [|destruct H].
    destruct H as [<-|[]]. apply is_empty_true in E; subst s.
    exists "". split; [reflexivity | constructor].
Qed.

Lemma rmatch_complete (n : nat) (r : RegExp) (mid rest : string) :
  matches n r mid rest -> In rest (rmatch n r (mid +++ rest)).
Proof.
  induction 1; simpl.
  - now left.
  - rewrite Ascii.eqb_refl. now left.
  - rewrite H. now left.
  - rewrite H. now left.
  - rewrite H. now left.
  - apply in_flat_map. exists (m2 +++ rest). split; [|assumption].
    now rewrite append_assoc.
  - apply in_or_app. now left.
  - apply in_or_app. now right.
  - destruct (String.length rest); simpl; [now left|].
    apply in_or_app. right. now left.
  - rewrite append_assoc.
    destruct m1 as [|c m1]; [congruence|].
    cbn [String.append String.length star_loop].
    apply in_or_app. left.
    apply in_flat_map. exists (m2 +++ rest). split; [exact IHmatches1|].
    replace (String.length (m2 +++ rest) <? S (String.length (m1 +++ m2 +++ rest)))%nat
      with true by (symmetry; apply Nat.ltb_lt; rewrite !length_append; lia).
    simpl in IHmatches2.
    rewrite (star_loop_fuel _ _ (String.length (m2 +++ rest)));
      [assumption | rewrite !length_append; lia | lia].
  - rewrite H, Nat.eqb_refl. now left.
  - now left.
Qed.

Lemma rmatch_suffix (n : nat) (r : RegExp) (s rest : string) :
  In rest (rmatch n r s) -> exists mid, s = mid +++ rest.
Proof. intros H. apply rmatch_sound in H as (mid & E & _). now exists mid. Qed.

(** ** [search], [drop], [take] and [exec] *)

Lemma search_unfold (n : nat) (r : RegExp) (s : string) :
  search n r s =
  match rmatch n r s with
  | rest :: _ => Some (s, rest)
  | [] => match s with "" => None | String _ t => search n r t end
  end.
Proof. destruct s; reflexivity. Qed.

Lemma search_sound (n : nat) (r : RegExp) :
  forall s from rest,
    search n r s = Some (from, rest) ->
    (exists pre, s = pre +++ from) /\
    (exists more, rmatch n r from = rest :: more).
Proof.
  induction s as [|c t IH]; intros from rest H; rewrite search_unfold in H.
  - destruct (rmatch n r "") eqn:E; [discriminate|].
    injection H as <- <-. split; [now exists "" | now exists l].
  - destruct (rmatch n r (String c t)) eqn:E.
    + apply IH in H as [(pre & ->) Hm]. split; [|assumption].
      now exists (String c pre).
    + injection H as <- <-. split; [now exists "" | now exists l].
Qed.

Lemma search_here (n : nat) (r : RegExp) (s rest : string) (more : list string) :
  rmatch n r s = rest :: more -> search n r s = Some (s, rest).
Proof. intros H. rewrite search_unfold. now rewrite H. Qed.

Lemma search_fixed (n : nat) (r : RegExp) (s from rest : string) :
  search n r s = Some (from, rest) -> search n r from = Some (from, rest).
Proof.
  intros H. apply search_sound in H as [_ (more & H)].
  now apply search_here with more.
Qed.

Lemma search_complete (n : nat) (r : RegExp) (from rest : string) :
  In rest (rmatch n r from) ->
  forall pre, search n r (pre +++ from) <> None.
Proof.
  intros Hin. induction pre as [|c pre IH].
  - simpl. rewrite search_unfold.
    destruct (rmatch n r from); [destruct Hin | discriminate].
  - cbn [String.append]. rewrite search_unfold.
    destruct (rmatch n r (String c (pre +++ from))); [exact IH | discriminate].
Qed.

Lemma drop_split (k : nat) :
  forall s suffix,
    drop k s = Some suffix ->
    exists pre, s = pre +++ suffix /\ String.length pre = k.
Proof.
  induction k as [|k IH]; simpl; intros s suffix H.
  - injection H as <-. now exists "".
  - destruct s as [|c t]; [discriminate|].
    apply IH in H as (pre & -> & L). exists (String c pre). simpl.
    split; [reflexivity | now rewrite L].
Qed.

Lemma drop_length_app (pre suffix : string) :
  drop (String.length pre) (pre +++ suffix) = Some suffix.
Proof. induction pre as [|c pre IH]; simpl; auto. Qed.

Lemma drop_beyond (k : nat) :
  forall s, String.length s < k -> drop k s = None.
Proof.
  induction k as [|k IH]; simpl; intros s H; [lia|].
  destruct s as [|c t]; [reflexivity|]. apply IH. simpl in H. lia.
Qed.

Lemma drop_within (k : nat) :
  forall s, k <= String.length s -> drop k s <> None.
Proof.
  induction k as [|k IH]; simpl; intros s H; [discriminate|].
  destruct s as [|c t]; simpl in H; [lia|]. apply IH. lia.
Qed.

Lemma take_length_app (mid rest : string) :
  take (String.length mid) (mid +++ rest) = mid.
Proof.
  induction mid as [|c mid IH]; simpl.
  - now destruct rest.
  - now rewrite IH.
Qed.

Lemma take_prefix (mid rest : string) :
  take (String.length (mid +++ rest) - String.length rest) (mid +++ rest) = mid.
Proof.
  rewrite length_append.
  replace (String.length mid + String.length rest - String.length rest)
    with (String.length mid) by lia.
  apply take_length_app.
Qed.

(** What a successful [exec] returns: the subject splits into what is
    before the match, the match and the rest; the match starts at or
    after [lastIndex], the pattern's first preference there leaves
    [rest], and no earlier start at or after [lastIndex] matches. *)
Lemma exec_spec (r : RegExp) (s : string) (lastIndex : nat) (m : RMatch)
  (lastIndex' : nat) :
  exec r s lastIndex = Some (m, lastIndex') ->
  exists pre rest more,
    s = pre +++ text m +++ rest /\
    String.length pre = index m /\
    lastIndex <= index m /\
    lastIndex' = index m + String.length (text m) /\
    rmatch (String.length s) r (text m +++ rest) = rest :: more.
Proof.
  unfold exec. intros H.
  destruct (drop lastIndex s) as [suffix|] eqn:D; [|discriminate].
  destruct (search (String.length s) r suffix) as [[from rest]|] eqn:S;
    [|discriminate].
  injection H as <- <-. simpl.
  apply drop_split in D as (p0 & -> & L0).
  apply search_sound in S as [(p1 & ->) (more & Hm)].
  assert (Hin : In rest (rmatch (String.length (p0 +++ p1 +++ from)) r from))
    by (rewrite Hm; now left).
  apply rmatch_suffix in Hin as (mid & ->).
  rewrite take_prefix.
  exists (p0 +++ p1), rest, more.
  refine (conj _ (conj _ (conj _ (conj _ _)))).
  - now rewrite append_assoc.
  - rewrite !length_append. lia.
  - rewrite !length_append. lia.
  - rewrite !length_append. lia.
  - exact Hm.
Qed.

(** Conversely, when the pattern matches right at [lastIndex]. *)
Lemma exec_here (r : RegExp) (pre mid rest : string) (more : list string) :
  rmatch (String.length (pre +++ mid +++ rest)) r (mid +++ rest) = rest :: more ->
  exec r (pre +++ mid +++ rest) (String.length pre)
  = Some ({| index := String.length pre; text := mid |},
          String.length pre + String.length mid).
Proof.
  intros Hm. unfold exec.
  rewrite drop_length_app.
  rewrite (search_here _ _ _ _ _ Hm).
  rewrite take_prefix.
  replace (String.length (pre +++ mid +++ rest) - String.length (mid +++ rest))
    with (String.length pre) by (rewrite !length_append; lia).
  reflexivity.
Qed.

(** Running [exec] again from the start of its own match finds the
    same match. *)
Lemma exec_again (r : RegExp) (s : string) (lastIndex : nat) (m : RMatch)
  (lastIndex' : nat) :
  exec r s lastIndex = Some (m, lastIndex') ->
  exec r s (index m) = Some (m, lastIndex').
Proof.
  intros H. apply exec_spec in H as (pre & rest & more & -> & L & _ & -> & Hm).
  rewrite <- L. destruct m as [i t]. simpl in *. subst i.
  now apply exec_here with more.
Qed.

Lemma exec_beyond (r : RegExp) (s : string) (lastIndex : nat) :
  String.length s < lastIndex -> exec r s lastIndex = None.
Proof. intros H. unfold exec. now rewrite drop_beyond. Qed.

Lemma exec_within (r : RegExp) (s : string) (lastIndex : nat) (m : RMatch)
  (lastIndex' : nat) :
  exec r s lastIndex = Some (m, lastIndex') -> lastIndex' <= String.length s.
Proof.
  intros H. apply exec_spec in H as (pre & rest & more & -> & L & _ & -> & _).
  rewrite !length_append. lia.
Qed.

(** [test] finds a match wherever the reference semantics has one. *)
Lemma test_true_iff (r : RegExp) (s : string) :
  test r s = true <->
  exists pre mid post,
    s = pre +++ mid +++ post /\ matches (String.length s) r mid post.
Proof.
  unfold test. split.
  - destruct (exec r s 0) as [[m li]|] eqn:E; [intros _|discriminate].
    apply exec_spec in E as (pre & rest & more & Hs & _ & _ & _ & Hm).
    assert (Hin : In rest (rmatch (String.length s) r (text m +++ rest)))
      by (rewrite Hm; now left).
    apply rmatch_sound in Hin as (mid & E & M).
    exists pre, mid, rest. split; [|assumption]. now rewrite <- E.
  - intros (pre & mid & post & -> & M).
    apply rmatch_complete in M.
    unfold exec. simpl.
    pose proof (search_complete _ _ _ _ M pre) as Hs.
    destruct (search _ r (pre +++ mid +++ post)) as [[from rest]|];
      [reflexivity | congruence].
Qed.

(** ** The alternation of header literals *)

Lemma append_cancel_r (c : string) :
  forall a b, a +++ c = b +++ c -> a = b.
Proof.
  induction a as [|x a IH]; destruct b as [|y b]; simpl; intros H.
  - reflexivity.
  - apply (f_equal String.length) in H. simpl in H.
    rewrite length_append in H. lia.
  - apply (f_equal String.length) in H. simpl in H.
    rewrite length_append in H. lia.
  - injection H as -> H. f_equal. now apply IH.
Qed.

Lemma rmatch_lit (n : nat) (h : string) :
  forall s rest, In rest (rmatch n (lit h) s) <-> s = h +++ rest.
Proof.
  induction h as [|c t IH]; intros s rest.
  - simpl. split; [intros [->|[]]; reflexivity | intros ->; now left].
  - cbn [lit rmatch]. rewrite in_flat_map. split.
    + intros (s' & Hs' & Hin). apply step_char_In in Hs' as (x & -> & E).
      apply Ascii.eqb_eq in E; subst x. apply IH in Hin. now subst s'.
    + intros ->. exists (t +++ rest). split; [|now apply IH].
      simpl. rewrite Ascii.eqb_refl. now left.
Qed.

Lemma rmatch_alternation_sound (n : nat) (hs : list string) (s rest : string) :
  In rest (rmatch n (alternation hs) s) ->
  (hs = [] /\ rest = s) \/ exists h, In h hs /\ s = h +++ rest.
Proof.
  induction hs as [|h t IH].
  - simpl. intros [->|[]]. now left.
  - intros H. right. destruct t as [|h' t'].
    + apply rmatch_lit in H. exists h. split; [now left | assumption].
    + cbn [alternation rmatch] in H. apply in_app_or in H as [H|H].
      * apply rmatch_lit in H. exists h. split; [now left | assumption].
      * destruct (IH H) as [[E _]|(h0 & Hin & E)]; [discriminate|].
        exists h0. split; [now right | assumption].
Qed.

Lemma rmatch_alternation_complete (n : nat) (hs : list string) (h rest : string) :
  In h hs -> In rest (rmatch n (alternation hs) (h +++ rest)).
Proof.
  induction hs as [|h0 t IH]; [intros []|].
  intros Hin. destruct t as [|h' t'].
  - destruct Hin as [->|[]]. now apply rmatch_lit.
  - cbn [alternation rmatch]. apply in_or_app. destruct Hin as [->|Hin].
    + left. now apply rmatch_lit.
    + right. now apply IH.
Qed.

Lemma exec_alternation_text (hs : list string) (s : string) (li : nat)
  (m : RMatch) (li' : nat) :
  exec (alternation hs) s li = Some (m, li') ->
  (hs = [] /\ text m = "") \/ In (text m) hs.
Proof.
  intros H. apply exec_spec in H as (pre & rest & more & _ & _ & _ & _ & Hm).
  assert (Hin : In rest (rmatch (String.length s) (alternation hs) (text m +++ rest)))
    by (rewrite Hm; now left).
  apply rmatch_alternation_sound in Hin as [[E1 E2]|(h & Hin & E)].
  - left. split; [assumption|].
    apply (append_cancel_r rest). simpl. now symmetry.
  - right. apply append_cancel_r in E. now subst h.
Qed.

(** ** [allMatches] *)

(** A match that leaves [lastIndex] where it was is found again by
    every later call. *)
Lemma allMatches_stuck (r : RegExp) (s : string) (li : nat) (m : RMatch) :
  exec r s li = Some (m, li) ->
  forall fuel, allMatches_from fuel r s li = None.
Proof.
  intros H. induction fuel as [|f IH]; simpl; [reflexivity|].
  now rewrite H, IH.
Qed.

(** Every match of a loop that ended is non-empty. *)
Lemma allMatches_empty_match (r : RegExp) (s : string) (li : nat)
  (m : RMatch) (li' : nat) :
  exec r s li = Some (m, li') ->
  text m = "" ->
  forall fuel, allMatches_from fuel r s li = None.
Proof.
  intros H E fuel.
  assert (H' := exec_again _ _ _ _ _ H).
  assert (Hli : li' = index m).
  { apply exec_spec in H as (_ & _ & _ & _ & _ & _ & Hli & _).
    rewrite E in Hli. simpl in Hli. lia. }
  subst li'.
  destruct fuel as [|f]; simpl; [reflexivity|].
  rewrite H. now rewrite (allMatches_stuck _ _ _ _ H').
Qed.

(** With room for one call per character and one more, a loop whose
    matches all advance comes to its end. *)
Lemma allMatches_terminates (r : RegExp) (s : string) :
  (forall li m li', exec r s li = Some (m, li') -> text m <> "") ->
  forall fuel li,
    String.length s + 2 <= fuel + li ->
    1 <= fuel ->
    exists ms, allMatches_from fuel r s li = Some ms.
Proof.
  intros Hadv. induction fuel as [|f IH]; intros li Hf H1; [lia|].
  simpl. destruct (exec r s li) as [[m li']|] eqn:E; [|now exists []].
  assert (Hne := Hadv _ _ _ E).
  assert (Hin := exec_within _ _ _ _ _ E).
  apply exec_spec in E as (pre & rest & more & _ & _ & Hle & Hli & _).
  assert (0 < String.length (text m))
    by (destruct (text m); [congruence | simpl; lia]).
  destruct (IH li') as (ms & ->); [lia | lia |].
  now exists (m :: ms).
Qed.

(** When the pattern matches at every position, no call of [exec]
    fails and the loop has no end. *)
Lemma allMatches_never_ends (r : RegExp) (s : string) :
  (forall from, rmatch (String.length s) r from <> []) ->
  forall fuel li, li <= String.length s -> allMatches_from fuel r s li = None.
Proof.
  intros Hall. induction fuel as [|f IH]; intros li Hli; simpl; [reflexivity|].
  destruct (exec r s li) as [[m li']|] eqn:E.
  - rewrite IH; [reflexivity|]. now apply exec_within in E.
  - exfalso. unfold exec in E.
    destruct (drop li s) as [suffix|] eqn:D.
    + specialize (Hall suffix). rewrite search_unfold in E.
      destruct (rmatch (String.length s) r suffix) eqn:R; [congruence|discriminate].
    + now apply drop_within in D.
Qed.

(** The fuel of [splitByMatches] is adequate: a loop that is still
    running after [enough_fuel] calls never ends. *)
Lemma allMatches_fuel_adequate (r : RegExp) (s : string) :
  forall fuel li,
    li <= String.length s ->
    String.length s + 2 <= fuel + li ->
    allMatches_from fuel r s li = None ->
    forall fuel', allMatches_from fuel' r s li = None.
Proof.
  induction fuel as [|f IH]; intros li Hli Hf H fuel'; [lia|].
  simpl in H. destruct (exec r s li) as [[m li']|] eqn:E; [|discriminate].
  destruct (string_dec (text m) "") as [Hempty|Hne].
  - now apply (allMatches_empty_match r s li m li').
  - destruct (allMatches_from f r s li') eqn:Ef; [discriminate|].
    assert (Hin := exec_within _ _ _ _ _ E).
    assert (Hadv : li < li').
    { apply exec_spec in E as (_ & _ & _ & _ & _ & Hle & -> & _).
      destruct (text m); [congruence | simpl; lia]. }
    destruct fuel' as [|f']; [reflexivity|]. simpl. rewrite E.
    rewrite (IH li' Hin ltac:(lia) Ef f'). reflexivity.
Qed.

Lemma splitByMatches_Hang (r : RegExp) (s : string) :
  splitByMatches r s = Hang <-> forall fuel, allMatches fuel r s = None.
Proof.
  unfold splitByMatches, allMatches. split.
  - destruct (allMatches_from (enough_fuel s) r s 0) eqn:E; [discriminate|].
    intros _. apply (allMatches_fuel_adequate r s (enough_fuel s) 0);
      [lia | unfold enough_fuel; lia | assumption].
  - intros H. now rewrite H.
Qed.

(** ** No part of the parser but [allMatches] can fail to return *)

Lemma returns_bind {A B : Type} (m : outcome A) (f : A -> outcome B) :
  returns m -> (forall a, returns (f a)) -> returns (bind m f).
Proof.
  unfold returns. destruct m; simpl; intros Hm Hf; [apply Hf | discriminate | congruence].
Qed.

Lemma returns_Ok {A : Type} (a : A) : returns (Ok a).
Proof. discriminate. Qed.

Lemma returns_Err {A : Type} (e : JsError) : returns (@Err A e).
Proof. discriminate. Qed.

Ltac returns_step :=
  repeat first
    [ apply returns_Ok
    | apply returns_Err
    | apply returns_bind; [|intros ?]
    | match goal with
      | |- returns (match ?x with _ => _ end) => destruct x
      | |- returns (if ?x then _ else _) => destruct x
      | |- returns (let '(_, _) := ?x in _) => destruct x
      end ].

Lemma returns_warn (b : ObjectBuilder) (t m : string) : returns (warn b t m).
Proof. unfold warn. returns_step. Qed.

Lemma returns_store (b : ObjectBuilder) (f v : string) : returns (store b f v).
Proof.
  unfold store. apply returns_bind; [|intros; apply returns_Ok].
  destruct (stored (object b) f); [apply returns_warn | apply returns_Ok].
Qed.

Lemma returns_requiredOption {A : Type} (t : A -> bool) (o : option A)
  (name : string) : returns (requiredOption t o name).
Proof. unfold requiredOption. returns_step. Qed.

Lemma returns_as_string (v : Val) (m : string) : returns (as_string v m).
Proof. unfold as_string. returns_step. Qed.

Lemma returns_processor (make : FieldDef -> outcome Processor) (fd : FieldDef)
  (obj : Obj) (h : string) (v : Val) (kind : string) :
  FIELD_TYPES kind = Some make ->
  returns (let* processor := make fd in processor obj h v).
Proof.
  unfold FIELD_TYPES. intros H.
  destruct (String.eqb kind "trimmed");
    [|destruct (String.eqb kind "field_followed_by_table");
      [|destruct (String.eqb kind "primary_secondary_location");
        [|discriminate]]];
    injection H as <-.
  - unfold trimmed, requiredOption.
    destruct (field fd) as [f|]; [|apply returns_Err].
    destruct (truthy_string f); [|apply returns_Err]. simpl.
    apply returns_bind; [apply returns_as_string | intros; apply returns_Ok].
  - unfold field_followed_by_table, requiredOption.
    destruct (field_name fd) as [f|]; [|apply returns_Err].
    destruct (truthy_string f); [|apply returns_Err].
    destruct (table_name fd) as [t|]; [|apply returns_Err].
    destruct (truthy_string t); [|apply returns_Err].
    destruct (num_columns fd) as [c|]; [|apply returns_Err].
    destruct (truthy_number c); [|apply returns_Err]. simpl.
    apply returns_bind; [apply returns_as_string | intros].
    destruct (negb _); [apply returns_Err | apply returns_Ok].
  - unfold primary_secondary_location, requiredOption.
    destruct (location_field fd) as [f|]; [|apply returns_Err].
    destruct (truthy_string f); [|apply returns_Err].
    destruct (contacts_field fd) as [t|]; [|apply returns_Err].
    destruct (truthy_string t); [|apply returns_Err]. simpl.
    apply returns_bind; [apply returns_as_string | intros; apply returns_Ok].
Qed.

Lemma returns_process (d : FieldDictionary) (obj : Obj) (T h : string) (v : Val) :
  returns (process d obj T h v).
Proof.
  unfold process.
  destruct (String.eqb h "_meta"); [apply returns_Ok|].
  destruct (lookup_type d T) as [td|]; [|apply returns_Err].
  destruct (fields td) as [fs|]; [|apply returns_Err].
  destruct (find _ fs) as [[f0 h0]|].
  - now apply returns_processor with "trimmed".
  - destruct (fields_by_header td) as [fbh|]; [|apply returns_Err].
    destruct (find _ fbh) as [[h0 fd]|]; [|apply returns_Err].
    destruct (FIELD_TYPES (type fd)) as [make|] eqn:F; [|apply returns_Err].
    now apply returns_processor with (type fd).
Qed.

Lemma returns_process_all (d : FieldDictionary) (T : string) :
  forall entries acc, returns (process_all d T entries acc).
Proof.
  induction entries as [|[h v] rest IH]; intros acc; simpl.
  - apply returns_Ok.
  - apply returns_bind; [apply returns_process | intros; apply IH].
Qed.

Lemma returns_identify_from (d : FieldDictionary) :
  forall headers ot, returns (identify_from d headers ot).
Proof.
  induction headers as [|h rest IH]; intros ot; simpl.
  - apply returns_Ok.
  - destruct (typesForHeader d h) as [|t [|t' ts]]; try apply IH.
    destruct ot as [c|]; [|apply IH].
    destruct (String.eqb c t); [apply IH | apply returns_Err].
Qed.

Lemma returns_cookObject (raw : Obj) (objs : list Obj) (d : FieldDictionary) :
  returns (cookObject raw objs d).
Proof.
  unfold cookObject, identifyObjectType.
  apply returns_bind; [apply returns_identify_from | intros [T|]];
    [|apply returns_Err].
  apply returns_bind; [apply returns_process_all | intros r].
  apply returns_bind; [unfold ownerOf; returns_step | intros [ow|]];
    [|apply returns_Ok].
  returns_step.
Qed.

Lemma returns_finishMultilineField (st : Scan) : returns (finishMultilineField st).
Proof.
  unfold finishMultilineField. destruct (multilineField st) as [[h v]|].
  - apply returns_bind; [apply returns_store | intros; apply returns_Ok].
  - apply returns_Ok.
Qed.

Lemma returns_cook_current (this : OrderParser) (st : Scan) :
  returns (cook_current this st).
Proof.
  unfold cook_current. destruct (negb _);
    [apply returns_cookObject | apply returns_Ok].
Qed.

Lemma returns_on_separator (this : OrderParser) (st : Scan) :
  returns (on_separator this st).
Proof.
  unfold on_separator.
  apply returns_bind; [apply returns_finishMultilineField | intros st'].
  apply returns_bind; [apply returns_cook_current | intros; apply returns_Ok].
Qed.

Lemma returns_walk : forall parts st, returns (walk parts st).
Proof.
  fix IH 1. intros [|part rest] st; simpl; [apply returns_Ok|].
  destruct (negb (isMatch part)).
  - destruct (multilineField st) as [[h v]|]; [apply IH|].
    destruct (negb _); [|apply IH].
    apply returns_bind; [apply returns_warn | intros; apply IH].
  - apply returns_bind; [apply returns_finishMultilineField | intros st'].
    destruct rest as [|next rest']; [apply returns_Ok | apply IH].
Qed.

Lemma returns_on_line (this : OrderParser) (st : Scan) (line : string) :
  returns (splitByMatches (regex this) line) ->
  returns (on_line this st line).
Proof.
  intros Hs. unfold on_line.
  apply returns_bind.
  - unfold recordSeparator. returns_step.
  - intros sep. destruct (test sep line); [apply returns_on_separator|].
    apply returns_bind; [assumption | intros; apply returns_walk].
Qed.

(** ** Termination of the header matcher *)

Lemma rmatch_empty_subject (n : nat) (r : RegExp) (more : list string) (x : string) :
  rmatch n r "" = x :: more -> x = "".
Proof.
  intros H.
  assert (Hin : In x (rmatch n r "")) by (rewrite H; now left).
  apply rmatch_suffix in Hin as (mid & E).
  destruct mid; simpl in E; [now symmetry | discriminate].
Qed.

(** C10: when the dictionary declares headers and each of them is a
    non-empty string, [allMatches] returns on every line within
    [enough_fuel] calls of [exec], and so do [splitByMatches] and the
    ['line'] handler; when it declares no header, or the empty string as
    a header, the pattern matches the empty string at the end of the line
    without moving [lastIndex], and [allMatches] is still running after
    any number of calls. *)
Theorem C10_allMatches_terminates_iff_headers_nonempty
  (d : Dictionary) (this : OrderParser) :
  new_OrderParser d = Ok this ->
  (allHeaders (dictionary this) <> [] ->
   Forall (fun h => h <> "") (allHeaders (dictionary this)) ->
   forall line,
     (exists ms, allMatches (enough_fuel line) (regex this) line = Some ms)
     /\ (exists parts, splitByMatches (regex this) line = Ok parts)
     /\ (forall st, returns (on_line this st line)))
  /\
  (allHeaders (dictionary this) = [] \/ In "" (allHeaders (dictionary this)) ->
   forall line,
     exec (regex this) line (String.length line)
     = Some ({| index := String.length line; text := "" |}, String.length line)
     /\ (forall fuel, allMatches fuel (regex this) line = None)
     /\ splitByMatches (regex this) line = Hang).
Proof.
  intros Hnew. injection Hnew as <-. cbn [dictionary regex].
  set (fd := new_FieldDictionary d). unfold buildDictionaryRegex.
  split.
  - intros Hne Hall line.
    assert (Hterm : exists ms,
               allMatches (enough_fuel line) (alternation (allHeaders fd)) line
               = Some ms).
    { apply allMatches_terminates; unfold enough_fuel; try lia.
      intros li m li' E. apply exec_alternation_text in E as [[E _]|Hin].
      - contradiction.
      - rewrite Forall_forall in Hall. now apply Hall. }
    assert (Hsplit : exists parts,
               splitByMatches (alternation (allHeaders fd)) line = Ok parts).
    { destruct Hterm as (ms & E). unfold splitByMatches. rewrite E. eauto. }
    refine (conj Hterm (conj Hsplit _)).
    intros st. apply returns_on_line. cbn [regex]. unfold buildDictionaryRegex.
    destruct Hsplit as (parts & ->). apply returns_Ok.
  - intros Hbad line.
    assert (Hevery : forall from,
               rmatch (String.length line) (alternation (allHeaders fd)) from <> []).
    { intros from. destruct Hbad as [->|Hin].
      - simpl. discriminate.
      - apply (rmatch_alternation_complete (String.length line) _ _ from) in Hin.
        simpl in Hin. intros E. rewrite E in Hin. destruct Hin. }
    assert (Hnever : forall fuel,
               allMatches fuel (alternation (allHeaders fd)) line = None).
    { intros fuel. apply allMatches_never_ends; [assumption | lia]. }
    refine (conj _ (conj Hnever _)).
    + destruct (rmatch (String.length line) (alternation (allHeaders fd)) "")
        as [|x more] eqn:R; [now apply Hevery in R|].
      assert (x = "") by now apply rmatch_empty_subject in R. subst x.
      pose proof (exec_here (alternation (allHeaders fd)) line "" "" more) as H.
      simpl in H. rewrite append_empty_r, Nat.add_0_r in H. now apply H.
    + unfold splitByMatches. now rewrite Hnever.
Qed.

(** The test suite's dictionary terminates on its line; the dictionary
    without types does not. *)
Lemma C10_witness :
  (exists parts, splitByMatches (alternation ["Foo:"]) "Foo: 3" = Ok parts)
  /\ splitByMatches Eps "Foo: 3" = Hang.
Proof.
  split.
  - refine (proj1 (proj2 (proj1
      (C10_allMatches_terminates_iff_headers_nonempty dict_foo _ eq_refl)
      _ _ "Foo: 3"))).
    + simpl. discriminate.
    + simpl. repeat constructor; discriminate.
  - refine (proj2 (proj2 (proj2
      (C10_allMatches_terminates_iff_headers_nonempty dict_empty _ eq_refl)
      _ "Foo: 3"))).
    left. reflexivity.
Defined.

(** ** Record separators *)

Lemma matches_Seq_inv (n : nat) (a b : RegExp) (mid rest : string) :
  matches n (Seq a b) mid rest ->
  exists m1 m2, mid = m1 +++ m2 /\ matches n a m1 (m2 +++ rest)
                /\ matches n b m2 rest.
Proof. inversion 1; subst. now exists m1, m2. Qed.

Lemma matches_Bol_inv (n : nat) (mid rest : string) :
  matches n Bol mid rest -> mid = "" /\ String.length rest = n.
Proof. inversion 1; subst. now split. Qed.

Lemma matches_Eol_inv (n : nat) (mid rest : string) :
  matches n Eol mid rest -> mid = "" /\ rest = "".
Proof. inversion 1; subst. now split. Qed.

Lemma matches_Chr_inv (n : nat) (c : ascii) (mid rest : string) :
  matches n (Chr c) mid rest -> mid = String c "".
Proof. now inversion 1. Qed.

Lemma all_underscores_app (a b : string) :
  all_underscores (a +++ b) = all_underscores a && all_underscores b.
Proof.
  induction a as [|c a IH]; simpl; [reflexivity|].
  now rewrite IH, andb_assoc.
Qed.

Lemma matches_star_underscores (n : nat) (mid rest : string) :
  matches n (Star (Chr "_"%char)) mid rest -> all_underscores mid = true.
Proof.
  intros H. remember (Star (Chr "_"%char)) as r eqn:E.
  induction H; try discriminate; [reflexivity|].
  injection E as ->.
  rewrite all_underscores_app, IHmatches2 by reflexivity.
  apply matches_Chr_inv in H0. subst m1. reflexivity.
Qed.

Lemma star_underscores_matches (n : nat) (rest : string) :
  forall mid, all_underscores mid = true ->
              matches n (Star (Chr "_"%char)) mid rest.
Proof.
  induction mid as [|c t IH]; simpl; intros H; [constructor|].
  apply andb_true_iff in H as [Hc Ht]. apply Ascii.eqb_eq in Hc; subst c.
  apply (M_StarS n (Chr "_"%char) (String "_"%char "") t rest).
  - discriminate.
  - constructor.
  - now apply IH.
Qed.

(** The default separator matches exactly the non-empty lines made of
    underscores. *)
Lemma test_default_separator (line : string) :
  test DEFAULT_RECORD_SEPARATOR line
  = negb (is_empty line) && all_underscores line.
Proof.
  apply eq_true_iff_eq. rewrite test_true_iff. split.
  - intros (pre & mid & post & E & M). unfold DEFAULT_RECORD_SEPARATOR, Plus in M.
    apply matches_Seq_inv in M as (m1 & m2 & -> & MB & M).
    apply matches_Bol_inv in MB as [-> LB].
    apply matches_Seq_inv in M as (m3 & m4 & -> & MP & ME).
    apply matches_Eol_inv in ME as [-> ->].
    apply matches_Seq_inv in MP as (m5 & m6 & -> & MC & MS).
    apply matches_Chr_inv in MC. subst m5.
    apply matches_star_underscores in MS.
    assert (pre = "").
    { apply length_zero_empty. rewrite E in LB. simpl in LB.
      rewrite !append_empty_r in LB. rewrite length_append in LB.
      simpl in LB. lia. }
    subst pre. subst line. simpl. rewrite !append_empty_r. simpl.
    now rewrite MS.
  - intros H. apply andb_true_iff in H as [Hne Hu].
    destruct line as [|c t]; [discriminate|].
    simpl in Hu. apply andb_true_iff in Hu as [Hc Ht].
    apply Ascii.eqb_eq in Hc; subst c.
    exists "", (String "_"%char t), "". split.
    + simpl. now rewrite append_empty_r.
    + unfold DEFAULT_RECORD_SEPARATOR, Plus.
      apply (M_Seq _ Bol _ "" (String "_"%char t) "").
      * constructor. simpl. now rewrite append_empty_r.
      * replace (String "_"%char t) with ((String "_"%char "" +++ t) +++ "")
          by (simpl; now rewrite append_empty_r).
        apply M_Seq; [|constructor].
        apply M_Seq; [constructor|].
        now apply star_underscores_matches.
Qed.

Lemma on_line_separator (this : OrderParser) (st : Scan) (line : string)
  (sep : RegExp) :
  recordSeparator (dictionary this) = Ok sep ->
  test sep line = true ->
  on_line this st line = on_separator this st.
Proof. intros Hs Ht. unfold on_line. rewrite Hs. simpl. now rewrite Ht. Qed.

(** C9: a custom [record_separator] is used as it is, so a line that
    contains a text which the pattern matches where it stands is handled
    as a record separator, whatever is before and after that text; the
    default separator accepts exactly the non-empty lines that are
    underscores from end to end. *)
Theorem C9_custom_separator_is_not_anchored
  (d : Dictionary) (this : OrderParser) :
  new_OrderParser d = Ok this ->
  (forall o sep,
      options d = Some o -> record_separator o = Some sep ->
      recordSeparator (dictionary this) = Ok sep
      /\ forall pre mid post,
           matches (String.length (pre +++ mid +++ post)) sep mid post ->
           test sep (pre +++ mid +++ post) = true
           /\ forall st, on_line this st (pre +++ mid +++ post)
                         = on_separator this st)
  /\
  ((forall o, options d = Some o -> record_separator o = None) ->
   recordSeparator (dictionary this) = Ok DEFAULT_RECORD_SEPARATOR
   /\ forall line,
        test DEFAULT_RECORD_SEPARATOR line
        = negb (is_empty line) && all_underscores line).
Proof.
  intros Hnew. injection Hnew as <-. cbn [dictionary]. split.
  - intros o sep Ho Hsep.
    assert (Hrs : recordSeparator (new_FieldDictionary d) = Ok sep).
    { unfold recordSeparator, new_FieldDictionary, set_data. simpl.
      rewrite Ho. now rewrite Hsep. }
    split; [assumption|]. intros pre mid post M.
    assert (Ht : test sep (pre +++ mid +++ post) = true).
    { apply test_true_iff. now exists pre, mid, post. }
    split; [assumption|]. intros st. now apply on_line_separator with sep.
  - intros Hdef. split; [|apply test_default_separator].
    unfold recordSeparator, new_FieldDictionary, set_data. simpl.
    destruct (options d) as [o|]; simpl; [|reflexivity].
    now rewrite (Hdef o eq_refl).
Qed.

(** With [record_separator: "---"] the line [a---b] is a separator;
    with the default, [a___b] is not. *)
Lemma C9_witness :
  test (lit "---") "a---b" = true
  /\ test DEFAULT_RECORD_SEPARATOR "a___b" = false.
Proof.
  split.
  - refine (proj1 (proj2 (proj1
      (C9_custom_separator_is_not_anchored dict_dashes _ eq_refl)
      _ (lit "---") eq_refl eq_refl) "a" "---" "b" _)).
    apply (M_Seq 5 (Chr "-"%char) (lit "--") "-" "--" "b"); [constructor|].
    apply (M_Seq 5 (Chr "-"%char) (lit "-") "-" "-" "b"); [constructor|].
    apply (M_Seq 5 (Chr "-"%char) Eps "-" "" "b"); constructor.
  - rewrite (proj2 (proj2
      (C9_custom_separator_is_not_anchored dict_foo _ eq_refl)
      (fun o H => match H in _ = x return
                        match x with Some o' => record_separator o' = None
                                   | None => True end
                  with eq_refl => I end))).
    reflexivity.
Defined.

(** ** Field processors *)


Lemma js_slice_within {A : Type} (a b : Z) (l : list A) :
  (0 <= a)%Z -> (a <= b)%Z -> (b <= Z.of_nat (List.length l))%Z ->
  js_slice a b l = firstn (Z.to_nat (b - a)) (skipn (Z.to_nat a) l).
Proof.
  intros Ha Hab Hb. unfold js_slice, clamp_index.
  replace (a <? 0)%Z with false by (symmetry; apply Z.ltb_ge; lia).
  replace (b <? 0)%Z with false by (symmetry; apply Z.ltb_ge; lia).
  rewrite !Z.min_l by lia. f_equal. lia.
Qed.

(** A table whose lines do not divide into rows ends in the
    ReferenceError of [console.log(trimmedLines)]. *)
Lemma table_not_divisible (opts : FieldDef) (p : Processor) (C : Z)
  (obj : Obj) (header s : string) :
  field_followed_by_table opts = Ok p ->
  num_columns opts = Some C ->
  Z.rem (Z.of_nat (List.length (tableLines_of (splitLines s)))) C <> 0%Z ->
  p obj header (VStr s) = Err (ReferenceError "trimmedLines").
Proof.
  unfold field_followed_by_table, requiredOption. intros Hp HC Hrem.
  destruct (field_name opts) as [f|]; [|discriminate].
  destruct (truthy_string f); [|discriminate].
  destruct (table_name opts) as [t|]; [|discriminate].
  destruct (truthy_string t); [|discriminate].
  rewrite HC in Hp. destruct (truthy_number C); [|discriminate].
  simpl in Hp. injection Hp as <-. simpl.
  apply Z.eqb_neq in Hrem. now rewrite Hrem.
Qed.

(** C2: three table lines under a two-column table.  The parse fails,
    but with the ReferenceError raised by [console.log(trimmedLines)],
    not with the message that names the header and the line count. *)
Theorem C2_malformed_table_raises_ReferenceError :
  run (dict_table (Some 2%Z))
      (text_of_lines ["Foo: 1"; "Due: today"; "A"; "B"; "1"])
  = Err (ReferenceError "trimmedLines")
  /\ ReferenceError "trimmedLines"
     <> Thrown (malformed_table_message "Due:" 3 2).
Proof. split; [vm_compute; reflexivity | discriminate]. Qed.

(** C4: two headers side by side.  [Bar:] is a region of its own and a
    match, yet it becomes the value of [Foo:] and is never opened as a
    field; the claim has [foo] empty and [bar] holding [x]. *)
Theorem C4_adjacent_header_is_swallowed :
  splitByMatches (alternation ["Foo:"; "Bar:"]) "Foo:Bar: x"
  = Ok [ {| value := "Foo:"; isMatch := true |};
         {| value := "Bar:"; isMatch := true |};
         {| value := " x"; isMatch := false |} ]
  /\ run dict_foo_bar "Foo:Bar: x" = Ok [[("foo", VStr "Bar: x")]]
  /\ run dict_foo_bar "Foo:Bar: x"
     <> Ok [[("foo", VStr ""); ("bar", VStr "x")]].
Proof.
  split; [vm_compute; reflexivity|].
  split; [vm_compute; reflexivity|].
  vm_compute. discriminate.
Qed.

Lemma nth_map_seq {A : Type} (f : nat -> A) (n i : nat) (d : A) :
  i < n -> nth i (map f (seq 0 n)) d = f i.
Proof.
  intros H.
  rewrite (nth_indep _ d (f 0)) by (now rewrite length_map, length_seq).
  rewrite map_nth. now rewrite seq_nth.
Qed.

Lemma truthy_string_nonempty (s : string) : s <> "" -> truthy_string s = true.
Proof. destruct s; [congruence | reflexivity]. Qed.




(** ** Processor configurations *)

(** A bad configuration makes the processor's factory fail. *)
Lemma bad_configuration_fails (fd : FieldDef) (obj : Obj) (h : string) (v : Val) :
  bad_configuration fd = true ->
  match FIELD_TYPES (type fd) with
  | None => True
  | Some make =>
      (let* processor := make fd in processor obj h v)
      = Err (ReferenceError "this")
  end.
Proof.
  unfold bad_configuration, FIELD_TYPES. intros H.
  destruct (String.eqb (type fd) "trimmed").
  { unfold trimmed, requiredOption, present_string, truthy_string in *.
    destruct (field fd) as [f|]; [destruct (is_empty f)|];
      simpl in *; try reflexivity; discriminate. }
  destruct (String.eqb (type fd) "field_followed_by_table").
  { unfold field_followed_by_table, requiredOption, present_string,
      present_number, truthy_string, truthy_number in *.
    destruct (field_name fd) as [f|]; [destruct (is_empty f)|];
      (destruct (table_name fd) as [t|]; [destruct (is_empty t)|]);
      (destruct (num_columns fd) as [c|]; [destruct (c =? 0)%Z|]);
      simpl in *; try reflexivity; discriminate. }
  destruct (String.eqb (type fd) "primary_secondary_location"); [|exact I].
  unfold primary_secondary_location, requiredOption, present_string,
    truthy_string in *.
  destruct (location_field fd) as [f|]; [destruct (is_empty f)|];
    (destruct (contacts_field fd) as [t|]; [destruct (is_empty t)|]);
    simpl in *; try reflexivity; discriminate.
Qed.

Lemma process_bad_configuration (d : FieldDictionary)
  (typeName : string) (typeDef : TypeDef) (fs : list (string * string))
  (fbh : list (string * FieldDef)) (header : string) (fieldDef : FieldDef)
  (obj : Obj) (value : Val) :
  lookup_type d typeName = Some typeDef ->
  fields typeDef = Some fs ->
  find (fun e : string * string => String.eqb (snd e) header) fs = None ->
  fields_by_header typeDef = Some fbh ->
  find (fun e : string * FieldDef => String.eqb (fst e) header) fbh
  = Some (header, fieldDef) ->
  header <> "_meta" ->
  bad_configuration fieldDef = true ->
  process d obj typeName header value = Err (ReferenceError "this")
  \/ process d obj typeName header value
     = Err (TypeError "FIELD_TYPES[fieldDef.type] is not a function").
Proof.
  intros Hty Hfs Hnone Hfbh Hfind Hmeta Hbad.
  unfold process.
  replace (String.eqb header "_meta") with false
    by (symmetry; now apply String.eqb_neq).
  rewrite Hty, Hfs, Hnone, Hfbh, Hfind.
  pose proof (bad_configuration_fails fieldDef obj header value Hbad) as H.
  destruct (FIELD_TYPES (type fieldDef)) as [make|]; [left | right];
    [exact H | reflexivity].
Qed.

(** C1, as stated, fails: the parser for a table without [num_columns],
    and the one for an unknown processor kind, are constructed without
    error and parse a report that does not use the header; the error
    comes up in the parse of a report that does. *)
Lemma C1_counterexample :
  bad_configuration (table_def None) = true
  /\ (exists this, new_OrderParser (dict_table None) = Ok this)
  /\ run (dict_table None) "Foo: 1" = Ok [[("foo", VStr "1")]]
  /\ run (dict_table None) (text_of_lines ["Foo: 1"; "Due: today"])
     = Err (ReferenceError "this")
  /\ (exists this, new_OrderParser dict_unknown_kind = Ok this)
  /\ run dict_unknown_kind "Foo: 1" = Ok [[("foo", VStr "1")]]
  /\ run dict_unknown_kind (text_of_lines ["Foo: 1"; "Due: today"])
     = Err (TypeError "FIELD_TYPES[fieldDef.type] is not a function").
Proof.
  split; [reflexivity|].
  split; [eexists; reflexivity|].
  split; [vm_compute; reflexivity|].
  split; [vm_compute; reflexivity|].
  split; [eexists; reflexivity|].
  split; [vm_compute; reflexivity|].
  vm_compute; reflexivity.
Qed.

(** ** Classification *)

Lemma votes_of_cons (d : FieldDictionary) (h : string) (rest : list string) :
  votes_of d (h :: rest) = vote d h ++ votes_of d rest.
Proof. reflexivity. Qed.

Lemma identify_from_step (d : FieldDictionary) (h : string)
  (rest : list string) (ot : option string) :
  identify_from d (h :: rest) ot =
  match vote d h with
  | [(_, typeName)] =>
      match ot with
      | None => identify_from d rest (Some typeName)
      | Some current =>
          if String.eqb current typeName then identify_from d rest ot
          else Err (Thrown (ambiguity_message current typeName h))
      end
  | _ => identify_from d rest ot
  end.
Proof.
  unfold vote. simpl.
  destruct (typesForHeader d h) as [|t [|t' ts]]; reflexivity.
Qed.

Lemma vote_shape (d : FieldDictionary) (h : string) :
  vote d h = [] \/ exists t, vote d h = [(h, t)].
Proof.
  unfold vote. destruct (typesForHeader d h) as [|t [|t' ts]]; eauto.
Qed.

(** Votes that all agree with the current type leave it in place. *)
Lemma identify_from_agree (d : FieldDictionary) (T : string) :
  forall headers,
    (forall h t, In (h, t) (votes_of d headers) -> t = T) ->
    identify_from d headers (Some T) = Ok (Some T).
Proof.
  induction headers as [|h rest IH]; intros Hall; [reflexivity|].
  rewrite identify_from_step. rewrite votes_of_cons in Hall.
  destruct (vote_shape d h) as [E|(t & E)]; rewrite E in *.
  - apply IH. intros h0 t0 Hin. now apply (Hall h0 t0).
  - assert (t = T) by (apply (Hall h t); now left). subst t.
    rewrite String.eqb_refl. apply IH.
    intros h0 t0 Hin. apply (Hall h0 t0). now right.
Qed.

(** A vote against the current type is an error: the first one is
    reported. *)
Lemma identify_from_conflict (d : FieldDictionary) (T : string) :
  forall headers,
    (exists h t, In (h, t) (votes_of d headers) /\ t <> T) ->
    exists h t,
      In (h, t) (votes_of d headers) /\ t <> T
      /\ identify_from d headers (Some T)
         = Err (Thrown (ambiguity_message T t h)).
Proof.
  induction headers as [|h rest IH]; intros (h0 & t0 & Hin & Hne);
    [destruct Hin|].
  rewrite identify_from_step. rewrite votes_of_cons in *.
  destruct (vote_shape d h) as [E|(t & E)]; rewrite E in *.
  - destruct IH as (h1 & t1 & Hin1 & Hne1 & Hid); [now exists h0, t0|].
    now exists h1, t1.
  - destruct (String.eqb T t) eqn:Et.
    + apply String.eqb_eq in Et. subst t.
      destruct Hin as [Hin|Hin]; [injection Hin as _ <-; congruence|].
      destruct IH as (h1 & t1 & Hin1 & Hne1 & Hid); [now exists h0, t0|].
      exists h1, t1. split; [now right | now split].
    + apply String.eqb_neq in Et.
      exists h, t. split; [now left | split; [congruence | reflexivity]].
Qed.

Lemma identify_from_none (d : FieldDictionary) :
  forall headers,
    identify_from d headers None =
    match votes_of d headers with
    | [] => Ok None
    | (_, T) :: _ => identify_from d headers (Some T)
    end.
Proof.
  induction headers as [|h rest IH]; [reflexivity|].
  rewrite votes_of_cons.
  destruct (vote_shape d h) as [E|(t & E)].
  - rewrite E. cbn [app]. rewrite identify_from_step, E, IH.
    destruct (votes_of d rest) as [|[h1 t1] vs]; [reflexivity|].
    now rewrite identify_from_step, E.
  - rewrite E. cbn [app]. rewrite !identify_from_step, E.
    now rewrite String.eqb_refl.
Qed.

(** C6: the votes of a raw capture are its headers that exactly one
    type declares.  Without votes, cooking fails with the message for a
    record that could not be categorized; with two votes for different
    types it fails with the ambiguity message, which names the type of
    the first vote and the first vote against it; with votes that all
    name one type, that type is the result of the classification. *)
Theorem C6_classification_by_votes
  (d : FieldDictionary) (rawFields : Obj) (currObjects : list Obj) :
  (votes d rawFields = [] ->
   identifyObjectType rawFields d = Ok None
   /\ cookObject rawFields currObjects d
      = Err (Thrown ("Object could not be categorized: "
                     +++ JSON_stringify (VObj rawFields))))
  /\
  (forall h1 t1 h2 t2,
      In (h1, t1) (votes d rawFields) -> In (h2, t2) (votes d rawFields) ->
      t1 <> t2 ->
      exists h0 t h t',
        In (h0, t) (votes d rawFields) /\ In (h, t') (votes d rawFields)
        /\ t' <> t
        /\ identifyObjectType rawFields d
           = Err (Thrown (ambiguity_message t t' h))
        /\ cookObject rawFields currObjects d
           = Err (Thrown (ambiguity_message t t' h)))
  /\
  (forall T,
      votes d rawFields <> [] ->
      (forall h t, In (h, t) (votes d rawFields) -> t = T) ->
      identifyObjectType rawFields d = Ok (Some T))
  /\
  (forall this st e,
      dictionary this = d ->
      multilineField st = None ->
      object (currObject st) = rawFields ->
      objects st = currObjects ->
      isEmpty (currObject st) = false ->
      cookObject rawFields currObjects d = Err e ->
      on_separator this st = Err e /\ on_close this st = Err e).
Proof.
  unfold votes, identifyObjectType.
  split; [|split; [|split]];
    [| | |intros this st e <- Hopen <- <- Hne Hcook;
          unfold on_separator, on_close, finishMultilineField, cook_current;
          rewrite Hopen; cbn [bind]; rewrite Hne; cbn [negb];
          rewrite Hcook; now split].
  - intros Hnone.
    assert (Hid : identify_from d (keys rawFields) None = Ok None)
      by (now rewrite identify_from_none, Hnone).
    split; [assumption|].
    unfold cookObject, identifyObjectType. now rewrite Hid.
  - intros h1 t1 h2 t2 H1 H2 Hne.
    rewrite identify_from_none.
    destruct (votes_of d (keys rawFields)) as [|[h0 t] vs] eqn:Ev;
      [destruct H1|].
    assert (Hex : exists h t', In (h, t') (votes_of d (keys rawFields)) /\ t' <> t).
    { rewrite Ev. destruct (string_dec t1 t) as [->|Hd].
      - exists h2, t2. split; [assumption | congruence].
      - exists h1, t1. now split. }
    destruct (identify_from_conflict d t _ Hex) as (h & t' & Hin & Hne' & Hid).
    exists h0, t, h, t'. rewrite Ev in Hin.
    split; [now left|]. split; [assumption|]. split; [assumption|].
    split; [assumption|].
    unfold cookObject, identifyObjectType.
    now rewrite identify_from_none, Ev, Hid.
  - intros T Hne Hall. rewrite identify_from_none.
    destruct (votes_of d (keys rawFields)) as [|[h0 t] vs] eqn:Ev;
      [congruence|].
    assert (t = T) by (apply (Hall h0 t); now left). subst t.
    apply identify_from_agree. now rewrite Ev.
Qed.

(** A capture without votes, one with votes for two types, and one
    whose votes agree, under the dictionary of orders and suborders. *)
Lemma C6_witness :
  cookObject [("Baz:", VStr "1")] [] (new_FieldDictionary dict_suborders)
  = Err (Thrown ("Object could not be categorized: "
                 +++ JSON_stringify (VObj [("Baz:", VStr "1")])))
  /\ (exists t h t',
        cookObject [("Foo:", VStr "1"); ("bar:", VStr "x")] []
                   (new_FieldDictionary dict_suborders)
        = Err (Thrown (ambiguity_message t t' h)))
  /\ identifyObjectType [("foo:", VStr "1"); ("bar:", VStr "x")]
                        (new_FieldDictionary dict_suborders)
     = Ok (Some "Suborder").
Proof.
  split; [|split].
  - apply (proj1 (C6_classification_by_votes
                    (new_FieldDictionary dict_suborders)
                    [("Baz:", VStr "1")] [])).
    reflexivity.
  - destruct (proj1 (proj2 (C6_classification_by_votes
                      (new_FieldDictionary dict_suborders)
                      [("Foo:", VStr "1"); ("bar:", VStr "x")] []))
                "Foo:" "Order" "bar:" "Suborder")
      as (h0 & t & h & t' & _ & _ & _ & _ & H).
    + vm_compute. now left.
    + vm_compute. right. now left.
    + discriminate.
    + now exists t, h, t'.
  - apply (proj1 (proj2 (proj2 (C6_classification_by_votes
                    (new_FieldDictionary dict_suborders)
                    [("foo:", VStr "1"); ("bar:", VStr "x")] [])))).
    + vm_compute. discriminate.
    + intros h t Hin. vm_compute in Hin.
      destruct Hin as [E|[E|[]]]; now injection E as _ <-.
Defined.

(** ** Filing *)



Lemma mutate_first_first (p : Obj -> bool) (f : Obj -> Obj)
  (before : list Obj) (x : Obj) (after : list Obj) :
  (forall o, In o before -> p o = false) -> p x = true ->
  mutate_first p f (before ++ x :: after) = before ++ f x :: after.
Proof.
  intros Hb Hx. induction before as [|o t IH]; simpl.
  - now rewrite Hx.
  - rewrite (Hb o) by now left. f_equal. apply IH.
    intros o' H. apply Hb. now right.
Qed.



(** ** The regions of a line *)

Lemma length_substring :
  forall s n m,
    n + m <= String.length s -> String.length (substring n m s) = m.
Proof.
  induction s as [|c s IH]; intros n m H; simpl in H.
  - assert (n = 0) by lia. assert (m = 0) by lia. subst. reflexivity.
  - destruct n as [|n]; destruct m as [|m]; simpl.
    + reflexivity.
    + rewrite IH; [reflexivity | lia].
    + apply IH. lia.
    + apply IH. lia.
Qed.

Lemma str_slice_nonempty (a b : nat) (s : string) :
  a < b -> b <= String.length s -> str_slice a b s <> "".
Proof.
  intros Hab Hb E. apply (f_equal String.length) in E.
  unfold str_slice in E. rewrite length_substring in E by lia.
  simpl in E. lia.
Qed.

Lemma allMatches_spaced (r : RegExp) (s : string) :
  forall fuel li ms,
    li <= String.length s ->
    allMatches_from fuel r s li = Some ms -> spaced s li ms.
Proof.
  induction fuel as [|f IH]; intros li ms Hli H; [discriminate|].
  pose proof (allMatches_empty_match r s li) as Hempty.
  simpl in H. destruct (exec r s li) as [[m li']|] eqn:E.
  - destruct (allMatches_from f r s li') as [t|] eqn:Et; [|discriminate].
    injection H as <-. simpl.
    assert (Hne : text m <> "").
    { intros Htext. specialize (Hempty m li' eq_refl Htext (S f)).
      simpl in Hempty. rewrite E, Et in Hempty. discriminate. }
    assert (Hin := exec_within _ _ _ _ _ E).
    apply exec_spec in E as (_ & _ & _ & _ & _ & Hle & -> & _).
    split; [assumption|]. split; [assumption|]. now apply IH.
  - injection H as <-. exact Hli.
Qed.

Lemma allMatches_texts (hs : list string) (s : string) :
  forall fuel li ms,
    allMatches_from fuel (alternation hs) s li = Some ms ->
    Forall (fun m => In (text m) hs) ms.
Proof.
  induction fuel as [|f IH]; intros li ms H; [discriminate|].
  pose proof (allMatches_empty_match (alternation hs) s li) as Hempty.
  simpl in H. destruct (exec (alternation hs) s li) as [[m li']|] eqn:E.
  - destruct (allMatches_from f (alternation hs) s li') as [t|] eqn:Et;
      [|discriminate].
    injection H as <-. constructor; [|now apply IH in Et].
    destruct (exec_alternation_text _ _ _ _ _ E) as [[_ Htext]|Hin];
      [|assumption].
    specialize (Hempty m li' eq_refl Htext (S f)).
    simpl in Hempty. rewrite E, Et in Hempty. discriminate.
  - injection H as <-. constructor.
Qed.

Lemma spaced_within (s : string) :
  forall ms cursor, spaced s cursor ms -> cursor <= String.length s.
Proof.
  induction ms as [|m t IH]; simpl; intros cursor H; [assumption|].
  destruct H as (H1 & _ & H2). apply IH in H2. lia.
Qed.

Lemma regions_of_ok (hs : list string) (s : string) :
  forall ms cursor rs c,
    spaced s cursor ms ->
    Forall (fun m => In (text m) hs) ms ->
    regions_of s cursor ms = (rs, c) ->
    Forall (fun p => value p <> ""
                     /\ (isMatch p = true -> In (value p) hs)) rs
    /\ c <= String.length s.
Proof.
  induction ms as [|m t IH]; intros cursor rs c Hsp Htexts H; simpl in H.
  - injection H as <- <-. split; [constructor | exact Hsp].
  - destruct Hsp as (Hle & Hne & Hsp).
    inversion Htexts as [|m0 t0 Hin Hrest]; subst.
    destruct (regions_of s (index m + String.length (text m)) t)
      as [rs' c'] eqn:R.
    injection H as <- <-.
    destruct (IH _ _ _ Hsp Hrest R) as [Hrs Hc].
    split; [|assumption].
    assert (Hmatch : Forall (fun p => value p <> ""
                                      /\ (isMatch p = true -> In (value p) hs))
                            ({| value := text m; isMatch := true |} :: rs'))
      by (constructor; [now split | assumption]).
    destruct (cursor =? index m)%nat eqn:Ec; [exact Hmatch|].
    apply Nat.eqb_neq in Ec. simpl. constructor; [|exact Hmatch].
    split; [|discriminate]. simpl.
    apply spaced_within in Hsp.
    apply str_slice_nonempty; lia.
Qed.

Lemma splitByMatches_regions (hs : list string) (s : string)
  (parts : list StringRegion) :
  splitByMatches (alternation hs) s = Ok parts ->
  Forall (fun p => value p <> ""
                   /\ (isMatch p = true -> In (value p) hs)) parts
  \/ exists v, parts = [{| value := v; isMatch := false |}].
Proof.
  unfold splitByMatches, allMatches.
  destruct (allMatches_from (enough_fuel s) (alternation hs) s 0)
    as [ms|] eqn:E; [|discriminate].
  intros H. injection H as <-.
  pose proof (allMatches_spaced _ _ _ _ _ (Nat.le_0_l _) E) as Hsp.
  pose proof (allMatches_texts _ _ _ _ _ E) as Htexts.
  unfold splitByMatches_of.
  destruct (regions_of s 0 ms) as [rs c] eqn:R.
  destruct (regions_of_ok hs s _ _ _ _ Hsp Htexts R) as [Hrs Hc].
  destruct rs as [|r0 rs'].
  - simpl. rewrite orb_true_r. right. eexists. reflexivity.
  - cbn [List.length Nat.eqb]. rewrite orb_false_r. left.
    destruct (c =? String.length s)%nat eqn:Ec; simpl; [exact Hrs|].
    apply Nat.eqb_neq in Ec.
    change (r0 :: rs' ++ [{| value := str_slice c (String.length s) s;
                             isMatch := false |}])
      with ((r0 :: rs') ++ [{| value := str_slice c (String.length s) s;
                               isMatch := false |}]).
    apply Forall_app. split; [exact Hrs|].
    constructor; [|constructor]. split; [|discriminate]. simpl.
    apply str_slice_nonempty; lia.
Qed.

Lemma splitByMatches_parts_ok (hs : list string) (s : string)
  (parts : list StringRegion) :
  splitByMatches (alternation hs) s = Ok parts -> parts_ok hs parts.
Proof.
  intros H. apply splitByMatches_regions in H as [H|(v & ->)].
  - split.
    + eapply Forall_impl; [|exact H]. intros p [_ Hp]. exact Hp.
    + destruct parts as [|p t]; [constructor|]. simpl.
      inversion H as [|p0 t0 _ Ht]; subst.
      eapply Forall_impl; [|exact Ht]. intros q [Hq _]. exact Hq.
  - split; [|constructor]. constructor; [discriminate | constructor].
Qed.

Lemma parts_ok_tl (hs : list string) (parts : list StringRegion) :
  parts_ok hs parts -> parts_ok hs (tl parts).
Proof.
  intros [H1 H2]. destruct parts as [|p t]; [now split|]. simpl in *.
  inversion H1; subst. split; [assumption|].
  destruct t as [|q t']; [constructor|]. simpl. now inversion H2.
Qed.

(** ** ObjectBuilder *)

Lemma warnings_set_other (k : string) (v : Val) (o : Obj) :
  k <> "_meta" ->
  warnings {| object := obj_set k v o |} = warnings {| object := o |}.
Proof. intros H. unfold warnings. simpl. now rewrite prop_set_other. Qed.

Lemma warn_first (o : Obj) (message : string) :
  obj_get "_meta" o = None ->
  warn {| object := o |} "ignored_text" message
  = Ok {| object :=
            obj_set "_meta" (VObj [("ignored_text", VArr [VStr message])])
                    (obj_set "_meta" (VObj []) o) |}.
Proof.
  intros H. unfold warn. cbv zeta. cbn [object]. unfold prop.
  rewrite H. cbn [truthy negb]. rewrite obj_get_set_same. reflexivity.
Qed.

Lemma warn_more (o : Obj) (l : list Val) (message : string) :
  obj_get "_meta" o = Some (VObj [("ignored_text", VArr l)]) ->
  warn {| object := o |} "ignored_text" message
  = Ok {| object :=
            obj_set "_meta"
                    (VObj [("ignored_text", VArr (l ++ [VStr message]))]) o |}.
Proof.
  intros H. unfold warn. cbv zeta. cbn [object]. unfold prop.
  rewrite H. cbn [truthy negb]. rewrite H. reflexivity.
Qed.

Lemma warn_ok (b : ObjectBuilder) (message : string) :
  builder_ok (object b) ->
  exists b',
    warn b "ignored_text" message = Ok b'
    /\ builder_ok (object b')
    /\ warnings b' = warnings b ++ [VStr message]
    /\ forall k, k <> "_meta" -> obj_get k (object b') = obj_get k (object b).
Proof.
  destruct b as [o]. cbn [object]. intros [Hmeta Hvals].
  destruct Hmeta as [Hnone|(l & Hsome)].
  - rewrite (warn_first _ _ Hnone). eexists. split; [reflexivity|].
    cbn [object]. split; [|split].
    + split.
      * right. eexists. apply obj_get_set_same.
      * intros k v Hk Hget. rewrite !obj_get_set_other in Hget by congruence.
        now apply (Hvals k).
    + unfold warnings, prop. cbn [object].
      now rewrite obj_get_set_same, Hnone.
    + intros k Hk. now rewrite !obj_get_set_other by congruence.
  - rewrite (warn_more _ _ _ Hsome). eexists. split; [reflexivity|].
    cbn [object]. split; [|split].
    + split.
      * right. eexists. apply obj_get_set_same.
      * intros k v Hk Hget. rewrite obj_get_set_other in Hget by congruence.
        now apply (Hvals k).
    + unfold warnings, prop. cbn [object].
      now rewrite obj_get_set_same, Hsome.
    + intros k Hk. now rewrite obj_get_set_other by congruence.
Qed.

Lemma assign_get_other (field value k : string) (o : Obj) :
  k <> field -> obj_get k (assign field value o) = obj_get k o.
Proof.
  intros H. unfold assign.
  destruct (String.eqb field "__proto__" && negb (obj_has field o));
    [reflexivity|].
  apply obj_get_set_other. congruence.
Qed.

Lemma assign_get_same (field value : string) (o : Obj) :
  obj_get field o <> None \/ field <> "__proto__" ->
  obj_get field (assign field value o) = Some (VStr value).
Proof.
  intros H. unfold assign, obj_has.
  destruct (String.eqb field "__proto__") eqn:E; cbn [andb];
    [|apply obj_get_set_same].
  destruct (obj_get field o) eqn:G; cbn [negb]; [apply obj_get_set_same|].
  apply String.eqb_eq in E. destruct H; congruence.
Qed.

Lemma assign_builder_ok (field value : string) (o : Obj) :
  field <> "_meta" -> value <> "" ->
  builder_ok o -> builder_ok (assign field value o).
Proof.
  intros Hfield Hvalue [Hm Hv]. split.
  - now rewrite assign_get_other by congruence.
  - intros k v Hk Hget. destruct (string_dec k field) as [->|Hne].
    + unfold assign in Hget.
      destruct (String.eqb field "__proto__" && negb (obj_has field o));
        [now apply (Hv field)|].
      rewrite obj_get_set_same in Hget. injection Hget as <-.
      now exists value.
    + rewrite assign_get_other in Hget by assumption. now apply (Hv k).
Qed.

Lemma warnings_assign (field value : string) (o : Obj) :
  field <> "_meta" ->
  warnings {| object := assign field value o |} = warnings {| object := o |}.
Proof.
  intros H. unfold warnings, prop. cbn [object].
  now rewrite assign_get_other by congruence.
Qed.

Lemma stored_own (o : Obj) (field : string) (previous : Val) :
  builder_ok o -> field <> "_meta" ->
  obj_get field o = Some previous ->
  stored o field = Some (to_js_string previous).
Proof.
  intros Hok Hfield Hget. unfold stored. rewrite Hget.
  destruct (proj2 Hok field previous Hfield Hget) as (s & -> & Hs).
  cbn [truthy].
  now replace (negb (is_empty s)) with true
    by (symmetry; now apply truthy_string_nonempty).
Qed.

Lemma store_ok (b : ObjectBuilder) (field value : string) :
  builder_ok (object b) -> field <> "_meta" ->
  exists b',
    store b field value = Ok b'
    /\ (obj_get field (object b) <> None \/ field <> "__proto__" ->
        prop field (object b') = VStr value)
    /\ (forall k, k <> field -> k <> "_meta" ->
                  obj_get k (object b') = obj_get k (object b))
    /\ warnings b'
       = warnings b
         ++ match stored (object b) field with
            | Some shown => [VStr (repeated_text field shown)]
            | None => []
            end
    /\ (value <> "" -> builder_ok (object b')).
Proof.
  intros Hok Hfield. unfold store.
  assert (Hstep : exists b1,
             match stored (object b) field with
             | Some shown => warn b "ignored_text" (repeated_text field shown)
             | None => Ok b
             end = Ok b1
             /\ builder_ok (object b1)
             /\ warnings b1
                = warnings b
                  ++ match stored (object b) field with
                     | Some shown => [VStr (repeated_text field shown)]
                     | None => []
                     end
             /\ forall k, k <> "_meta" ->
                          obj_get k (object b1) = obj_get k (object b)).
  { destruct (stored (object b) field) as [shown|].
    - apply warn_ok. assumption.
    - exists b. rewrite app_nil_r.
      exact (conj eq_refl (conj Hok (conj eq_refl (fun _ _ => eq_refl)))). }
  destruct Hstep as (b1 & -> & Hok1 & Hw1 & Hsame1). cbn [bind].
  eexists. split; [reflexivity|]. cbn [object].
  split; [|split; [|split]].
  - intros H. unfold prop. rewrite assign_get_same; [reflexivity|].
    now rewrite (Hsame1 field Hfield).
  - intros k Hk Hm. rewrite assign_get_other by assumption.
    now apply Hsame1.
  - rewrite warnings_assign by assumption. destruct b1 as [o1]. exact Hw1.
  - intros Hvalue. now apply assign_builder_ok.
Qed.

(** ** The loop over the regions of a line *)

Lemma walk_unfold (part : StringRegion) (rest : list StringRegion) (st : Scan) :
  walk (part :: rest) st
  = let* x := walk_step (part :: rest) st in walk (fst x) (snd x).
Proof.
  simpl. destruct (negb (isMatch part)).
  - destruct (multilineField st) as [[h v]|]; [reflexivity|].
    destruct (negb (is_empty (trim (value part)))); [|reflexivity].
    now destruct (warn (currObject st) "ignored_text" _).
  - destruct (finishMultilineField st) as [st1| |]; simpl; try reflexivity.
    now destruct rest.
Qed.

Lemma walk_step_shorter (part : StringRegion) (rest : list StringRegion)
  (st : Scan) (rest1 : list StringRegion) (st1 : Scan) :
  walk_step (part :: rest) st = Ok (rest1, st1) ->
  List.length rest1 <= List.length rest.
Proof.
  simpl. destruct (negb (isMatch part)).
  - destruct (multilineField st) as [[h v]|].
    + intros H. injection H as <- _. lia.
    + destruct (negb (is_empty (trim (value part)))).
      * destruct (warn (currObject st) "ignored_text" _); simpl;
          try discriminate.
        intros H. injection H as <- _. lia.
      * intros H. injection H as <- _. lia.
  - destruct (finishMultilineField st) as [st0| |]; simpl; try discriminate.
    destruct rest as [|next rest']; intros H; injection H as <- _; simpl; lia.
Qed.

Lemma walk_loop_head :
  forall n parts st st',
    List.length parts <= n ->
    walk parts st = Ok st' -> loop_head parts st [] st'.
Proof.
  induction n as [|n IH]; intros parts st st' Hn H.
  - destruct parts; [|simpl in Hn; lia]. simpl in H. injection H as <-.
    constructor.
  - destruct parts as [|part rest].
    + simpl in H. injection H as <-. constructor.
    + rewrite walk_unfold in H.
      destruct (walk_step (part :: rest) st) as [[rest1 st1]| |] eqn:E;
        simpl in H; try discriminate.
      apply head_round with rest1 st1; [discriminate | assumption |].
      apply IH; [|assumption].
      apply walk_step_shorter in E. simpl in Hn. lia.
Qed.

Lemma append_nonempty_l (a b : string) : a <> "" -> a +++ b <> "".
Proof. destruct a; [congruence | discriminate]. Qed.

Lemma finishMultilineField_ok (hs : list string) (parts : list StringRegion)
  (st st1 : Scan) :
  ~ In "_meta" hs ->
  head_ok hs parts st -> parts <> [] ->
  finishMultilineField st = Ok st1 ->
  builder_ok (object (currObject st1)) /\ objects st1 = objects st.
Proof.
  intros Hmeta [Hb Hf] Hparts. unfold finishMultilineField.
  destruct (multilineField st) as [[h v]|] eqn:E.
  - destruct (Hf h v eq_refl) as [Hin Hv].
    assert (Hh : h <> "_meta") by (intros ->; contradiction).
    destruct (store_ok (currObject st) h v Hb Hh) as (b & -> & _ & _ & _ & Hok).
    cbn [bind]. intros H. injection H as <-. cbn [currObject objects].
    split; [|reflexivity]. now apply Hok, Hv.
  - intros H. injection H as <-. now split.
Qed.

Lemma walk_step_ok (hs : list string) (parts : list StringRegion) (st : Scan)
  (rest : list StringRegion) (st' : Scan) :
  ~ In "_meta" hs ->
  parts_ok hs parts -> head_ok hs parts st ->
  walk_step parts st = Ok (rest, st') ->
  parts_ok hs rest /\ head_ok hs rest st'.
Proof.
  intros Hmeta Hparts Hhead H.
  destruct parts as [|part tail].
  - simpl in H. injection H as <- <-. now split.
  - pose proof (parts_ok_tl _ _ Hparts) as Htail. simpl in Htail.
    unfold walk_step in H. destruct (isMatch part) eqn:Em; cbn [negb] in H.
    + destruct (finishMultilineField st) as [st1| |] eqn:F; cbn [bind] in H;
        try discriminate.
      destruct (finishMultilineField_ok hs _ _ _ Hmeta Hhead
                  ltac:(discriminate) F) as [Hb _].
      assert (Hin : In (value part) hs).
      { destruct Hparts as [H1 _]. inversion H1; subst. auto. }
      destruct tail as [|next rest']; injection H as <- <-.
      * split; [assumption|]. split; [exact Hb|].
        cbn [multilineField]. intros h v E. injection E as <- <-.
        split; [assumption | congruence].
      * split; [now apply parts_ok_tl in Htail|]. split; [exact Hb|].
        cbn [multilineField]. intros h v E. injection E as <- <-.
        split; [assumption|]. intros _.
        destruct Hparts as [_ H2]. simpl in H2. now inversion H2.
    + destruct Hhead as [Hb Hf].
      destruct (multilineField st) as [[h v]|] eqn:E.
      * injection H as <- <-. split; [assumption|]. split; [exact Hb|].
        cbn [multilineField]. intros h' v' E'. injection E' as <- <-.
        destruct (Hf h v eq_refl) as [Hin Hv]. split; [assumption|].
        intros _. apply append_nonempty_l. apply Hv. discriminate.
      * destruct (negb (is_empty (trim (value part)))).
        -- destruct (warn_ok (currObject st)
                       ("Ignored header: '" +++ value part +++ "'") Hb)
             as (b & Hw & Hok & _).
           rewrite Hw in H. cbn [bind] in H. injection H as <- <-.
           split; [assumption|]. split; [exact Hok|].
           cbn [multilineField]. discriminate.
        -- injection H as <- <-. split; [assumption|]. split; [exact Hb|].
           rewrite E. discriminate.
Qed.

Lemma loop_head_ok (hs : list string) :
  ~ In "_meta" hs ->
  forall parts st rest st',
    loop_head parts st rest st' ->
    parts_ok hs parts -> head_ok hs parts st ->
    parts_ok hs rest /\ head_ok hs rest st'.
Proof.
  intros Hmeta parts st rest st' H.
  induction H as [|parts st rest st1 rest' st' Hne Hstep Hloop IH];
    intros Hparts Hhead; [now split|].
  destruct (walk_step_ok hs _ _ _ _ Hmeta Hparts Hhead Hstep) as [Hp Hh].
  now apply IH.
Qed.

(** ** What the scanner keeps true *)

Lemma head_ok_initial (hs : list string) : head_ok hs [] initial.
Proof.
  split.
  - split; [now left | intros k v _ H; discriminate].
  - intros h v H. discriminate.
Qed.

Lemma head_ok_continue (hs : list string) (parts : list StringRegion)
  (st : Scan) :
  head_ok hs [] st -> head_ok hs parts (continue_field st).
Proof.
  intros [Hb Hf]. unfold continue_field.
  destruct (multilineField st) as [[h v]|] eqn:E.
  - split; [exact Hb|]. cbn [multilineField].
    intros h' v' E'. injection E' as <- <-.
    split; [now apply (Hf h v)|]. intros _.
    destruct v; discriminate.
  - split; [exact Hb|]. rewrite E. discriminate.
Qed.

Lemma on_line_ok (this : OrderParser) (line : string) (st st' : Scan) :
  regex this = alternation (allHeaders (dictionary this)) ->
  ~ In "_meta" (allHeaders (dictionary this)) ->
  head_ok (allHeaders (dictionary this)) [] st ->
  on_line this st line = Ok st' ->
  head_ok (allHeaders (dictionary this)) [] st'.
Proof.
  intros Hre Hmeta Hst. unfold on_line.
  destruct (recordSeparator (dictionary this)) as [sep| |];
    cbn [bind]; try discriminate.
  destruct (test sep line).
  - unfold on_separator.
    destruct (finishMultilineField st) as [st1| |]; cbn [bind];
      try discriminate.
    destruct (cook_current this st1) as [objs| |]; cbn [bind];
      try discriminate.
    intros H. injection H as <-. split.
    + split; [now left | intros k v _ H; discriminate].
    + intros h v H. discriminate.
  - destruct (splitByMatches (regex this) line) as [parts| |] eqn:Es;
      cbn [bind]; try discriminate.
    rewrite Hre in Es. apply splitByMatches_parts_ok in Es.
    intros H. apply (walk_loop_head _ _ _ _ (le_n _)) in H.
    apply (loop_head_ok _ Hmeta _ _ _ _ H Es).
    now apply head_ok_continue.
Qed.

Lemma scan_ok (this : OrderParser) :
  regex this = alternation (allHeaders (dictionary this)) ->
  ~ In "_meta" (allHeaders (dictionary this)) ->
  forall lines st st',
    head_ok (allHeaders (dictionary this)) [] st ->
    scan this st lines = Ok st' ->
    head_ok (allHeaders (dictionary this)) [] st'.
Proof.
  intros Hre Hmeta. induction lines as [|line rest IH]; intros st st' Hst H.
  - simpl in H. now injection H as <-.
  - simpl in H. destruct (on_line this st line) as [st1| |] eqn:E;
      cbn [bind] in H; try discriminate.
    apply (IH st1 st'); [|assumption].
    now apply (on_line_ok this line st st1).
Qed.

Lemma finalizing_ok (this : OrderParser) (st : Scan) :
  regex this = alternation (allHeaders (dictionary this)) ->
  ~ In "_meta" (allHeaders (dictionary this)) ->
  finalizing this st ->
  exists rest, head_ok (allHeaders (dictionary this)) rest st.
Proof.
  intros Hre Hmeta H.
  destruct H as [lines st Hscan
                |lines st0 line sep parts part rest st Hscan _ _ Hsplit Hloop _].
  - exists []. apply (scan_ok this Hre Hmeta lines initial st);
      [apply head_ok_initial | assumption].
  - exists (part :: rest).
    rewrite Hre in Hsplit. apply splitByMatches_parts_ok in Hsplit.
    apply (loop_head_ok _ Hmeta _ _ _ _ Hloop Hsplit).
    apply head_ok_continue.
    apply (scan_ok this Hre Hmeta lines initial st0);
      [apply head_ok_initial | assumption].
Qed.

Lemma warn_get_other (b b' : ObjectBuilder) (warnType message k : string) :
  warn b warnType message = Ok b' -> k <> "_meta" ->
  obj_get k (object b') = obj_get k (object b).
Proof.
  destruct b as [o]. unfold warn. cbn [object]. intros H Hk.
  set (o1 := if negb (truthy (prop "_meta" o))
             then obj_set "_meta" (VObj []) o else o) in *.
  assert (H1 : obj_get k o1 = obj_get k o).
  { unfold o1. destruct (negb _); [|reflexivity].
    apply obj_get_set_other. congruence. }
  destruct (prop "_meta" o1) as [| | | |meta]; try discriminate.
  destruct (prop warnType _) as [| | |items|]; try discriminate.
  injection H as <-. cbn [object].
  rewrite obj_get_set_other by congruence. exact H1.
Qed.

(** X24: whenever a parse finalizes a field whose header the current
    record already holds as a property of its own, [store] succeeds,
    adds to [ignored_text] the message "Repeated value for" with the
    header and the value that was stored, and leaves the new value under
    the header.  The dictionary must not declare [_meta], which is the
    channel of the warnings, as a header. *)
Theorem X24_repeated_header_warns_and_keeps_latest
  (d : Dictionary) (this : OrderParser) (st : Scan)
  (field value : string) (previous : Val) :
  new_OrderParser d = Ok this ->
  ~ In "_meta" (allHeaders (dictionary this)) ->
  finalizing this st ->
  multilineField st = Some (field, value) ->
  obj_get field (object (currObject st)) = Some previous ->
  exists b,
    finishMultilineField st
    = Ok {| objects := objects st; currObject := b; multilineField := None |}
    /\ warnings b
       = warnings (currObject st) ++ [VStr (repeated_message field previous)]
    /\ prop field (object b) = VStr value.
Proof.
  intros Hnew Hmeta Hfin Hopen Hprev.
  assert (Hre : regex this = alternation (allHeaders (dictionary this)))
    by (injection Hnew as <-; reflexivity).
  destruct (finalizing_ok this st Hre Hmeta Hfin) as (rest & Hb & Hf).
  destruct (Hf field value Hopen) as [Hin _].
  assert (Hfield : field <> "_meta") by (intros ->; contradiction).
  destruct (store_ok (currObject st) field value Hb Hfield)
    as (b & Hstore & Hprop & _ & Hwarn & _).
  exists b. rewrite (stored_own _ _ _ Hb Hfield Hprev) in Hwarn.
  unfold finishMultilineField. rewrite Hopen, Hstore. cbn [bind].
  split; [reflexivity|]. split; [exact Hwarn|].
  apply Hprop. left. congruence.
Qed.

(** After the lines [Foo: 1] and [Foo: 2] the field [Foo:] is open with
    [ 2], and the record holds [ 1] and a newline for it. *)
Lemma X24_witness :
  exists b,
    finishMultilineField
      {| objects := [];
         currObject := {| object := [("Foo:", VStr (" 1" +++ newline))] |};
         multilineField := Some ("Foo:", " 2") |}
    = Ok {| objects := []; currObject := b; multilineField := None |}
    /\ warnings b
       = [] ++ [VStr (repeated_message "Foo:" (VStr (" 1" +++ newline)))]
    /\ prop "Foo:" (object b) = VStr " 2".
Proof.
  pose (this := {| dictionary := new_FieldDictionary dict_foo;
                   regex := buildDictionaryRegex
                              (new_FieldDictionary dict_foo) |}).
  pose (st := {| objects := [];
                 currObject :=
                   {| object := [("Foo:", VStr (" 1" +++ newline))] |};
                 multilineField := Some ("Foo:", " 2") |}).
  refine (X24_repeated_header_warns_and_keeps_latest
            dict_foo this st "Foo:" " 2" (VStr (" 1" +++ newline))
            eq_refl _
            (finalizing_between this ["Foo: 1"; "Foo: 2"] st eq_refl)
            eq_refl eq_refl).
  simpl. intros [H|[]]. discriminate.
Defined.

(** C5: the scenario of the claim is as the claim has it, but the
    claim fails for the header [__proto__].  The record below has the
    field [foo] and twice the header [__proto__].  Each time that header
    is finalized, [store] reads [Object.prototype] under its name, takes
    that for a stored value and warns with the text [[object Object]];
    the assignment then creates no property.  The record is returned
    with two warnings, neither of which reports the value [ a] stored
    before, and without any value for the header. *)
Theorem C5_header_proto_is_warned_about_and_never_kept :
  run dict_foo (text_of_lines ["Foo: 1"; "Foo: 2"; "____"; "Foo: 3"])
  = Ok [ [("foo", VStr "2");
          ("_meta",
           VObj [("ignored_text",
                  VArr [VStr ("Repeated value for 'Foo:', ' 1"
                              +++ newline +++ "'")])])];
         [("foo", VStr "3")] ]
  /\ run dict_proto
         (text_of_lines ["Foo: 1"; "__proto__ a"; "__proto__ b"])
     = Ok [ [("foo", VStr "1");
             ("_meta",
              VObj [("ignored_text",
                     VArr [VStr "Repeated value for '__proto__', '[object Object]'";
                           VStr "Repeated value for '__proto__', '[object Object]'"])])] ]
  /\ (forall (b : ObjectBuilder) (value : string),
        obj_get "__proto__" (object b) = None ->
        store b "__proto__" value
        = warn b "ignored_text"
               "Repeated value for '__proto__', '[object Object]'").
Proof.
  split; [vm_compute; reflexivity|].
  split; [vm_compute; reflexivity|].
  intros b value H. unfold store, stored. rewrite H.
  change (inherited "__proto__") with (Some "[object Object]").
  cbv beta iota.
  change (repeated_text "__proto__" "[object Object]")
    with "Repeated value for '__proto__', '[object Object]'".
  destruct (warn b "ignored_text" _) as [b1| |] eqn:E; cbn [bind];
    [|reflexivity|reflexivity].
  assert (H1 : obj_get "__proto__" (object b1) = None).
  { rewrite (warn_get_other _ _ _ _ "__proto__" E); [assumption|].
    discriminate. }
  unfold assign, obj_has. rewrite H1. now destruct b1.
Qed.

(** ** Lines of a text *)





(** ** Parsing a concatenation *)

Lemma scan_app (this : OrderParser) :
  forall l1 l2 st,
    scan this st (l1 ++ l2)
    = let* st' := scan this st l1 in scan this st' l2.
Proof.
  induction l1 as [|line rest IH]; intros l2 st; [reflexivity|].
  simpl. destruct (on_line this st line); simpl; auto.
Qed.















(** ** The scenarios of the test suite *)

Example parses_simple_fields :
  run {| types := [("Order", plain_type [("foo", "Foo: ")])]; options := None |}
      "Foo: 3"
  = Ok [[("foo", VStr "3")]]
  /\ run {| types := [("Order", plain_type [("fizz", "Fizz  : ");
                                            ("buzz", "buz:")])];
            options := None |}
         (text_of_lines ["buz: one"; "Fizz  : two"])
     = Ok [[("buzz", VStr "one"); ("fizz", VStr "two")]].
Proof. split; vm_compute; reflexivity. Qed.

Example parses_multiline_fields :
  run dict_foo (text_of_lines ["Foo:"; "Line 1"; "Line 2"; "Line 3"; ""])
  = Ok [[("foo", VStr (text_of_lines ["Line 1"; "Line 2"; "Line 3"]))]]
  /\ run {| types := [("Order", plain_type [("fizz", "Fizz:");
                                            ("buzz", "Buzz:")])];
            options := None |}
         (text_of_lines ["Fizz: Line 1"; "Line 2"; "  Buzz:"; "Line 3"; "Line 4"])
     = Ok [[("fizz", VStr (text_of_lines ["Line 1"; "Line 2"]));
            ("buzz", VStr (text_of_lines ["Line 3"; "Line 4"]))]].
Proof. split; vm_compute; reflexivity. Qed.

Example parses_objects_separated_by_underscores :
  run dict_foo (text_of_lines ["Foo: 1"; "____"; "Foo: 2"; "_____"; "Foo: 3"])
  = Ok [[("foo", VStr "1")]; [("foo", VStr "2")]; [("foo", VStr "3")]].
Proof. vm_compute. reflexivity. Qed.

Example allows_a_custom_record_separator :
  run {| types := [("Order", plain_type [("foo", "Foo:")])];
         options :=
           Some {| record_separator :=
                     Some (Seq Bol (Seq (lit "---") Eol)) |} |}
      (text_of_lines ["Foo: 1"; "---"; "Foo: 2"; "---"; "Foo: 3"])
  = Ok [[("foo", VStr "1")]; [("foo", VStr "2")]; [("foo", VStr "3")]].
Proof. vm_compute. reflexivity. Qed.

Example attaches_warnings_on_ignored_text :
  run dict_foo (text_of_lines ["Hello there"; "Foo: 1"; "___";
                               "Not in a field"; "Foo: 2"])
  = Ok [ [("_meta", VObj [("ignored_text",
                           VArr [VStr "Ignored header: 'Hello there'"])]);
          ("foo", VStr "1")];
         [("_meta", VObj [("ignored_text",
                           VArr [VStr "Ignored header: 'Not in a field'"])]);
          ("foo", VStr "2")] ].
Proof. vm_compute. reflexivity. Qed.

Example objects_belong_to_other_objects :
  run dict_suborders (text_of_lines ["Foo: 1"; "__"; "foo: 1"; "bar: hello"])
  = Ok [[("foo", VStr "1");
         ("suborders", VArr [VObj [("foo", VStr "1"); ("bar", VStr "hello")]])]].
Proof. vm_compute. reflexivity. Qed.

Example ignores_objects_with_only_ignored_text :
  run dict_foo (text_of_lines ["Nothing in here"; "__"; "Nothing here either"])
  = Ok [].
Proof. vm_compute. reflexivity. Qed.

(** * Further properties of the code *)

(** ** [splitByMatches] covers the line *)

Lemma take_all (s : string) : take (String.length s) s = s.
Proof. induction s as [|c t IH]; simpl; [reflexivity | now rewrite IH]. Qed.

Lemma substring_take (m : nat) :
  forall s, substring 0 m s = take m s.
Proof.
  induction m as [|m IH]; intros s.
  - now destruct s.
  - destruct s as [|c t]; simpl; [reflexivity | now rewrite IH].
Qed.

Lemma substring_drop (m : nat) :
  forall n s suffix,
    drop n s = Some suffix -> substring n m s = take m suffix.
Proof.
  induction n as [|n IH]; intros s suffix H.
  - simpl in H. injection H as <-. apply substring_take.
  - destruct s as [|c t]; [discriminate|]. simpl in H. simpl.
    now apply IH.
Qed.

Lemma take_drop (k : nat) :
  forall x y, drop k x = Some y -> take k x +++ y = x.
Proof.
  induction k as [|k IH]; intros x y H.
  - simpl in H. injection H as <-. now destruct x.
  - destruct x as [|c t]; [discriminate|]. simpl in *. now rewrite (IH t y H).
Qed.

Lemma drop_drop (a : nat) :
  forall k s x, drop a s = Some x -> drop (a + k) s = drop k x.
Proof.
  induction a as [|a IH]; intros k s x H.
  - simpl in H. now injection H as <-.
  - destruct s as [|c t]; [discriminate|]. simpl in *. now apply IH.
Qed.

Lemma drop_all (s : string) : drop (String.length s) s = Some "".
Proof. induction s as [|c t IH]; simpl; auto. Qed.

(** Every match of a loop that ended sits in the line at its index. *)
Lemma allMatches_located (r : RegExp) (s : string) :
  forall fuel li ms,
    allMatches_from fuel r s li = Some ms ->
    Forall (fun m => exists rest,
                       drop (index m) s = Some (text m +++ rest)) ms.
Proof.
  induction fuel as [|f IH]; intros li ms H; [discriminate|].
  simpl in H. destruct (exec r s li) as [[m li']|] eqn:E.
  - destruct (allMatches_from f r s li') as [t|] eqn:Et; [|discriminate].
    injection H as <-. constructor; [|now apply IH in Et].
    apply exec_spec in E as (pre & rest & more & -> & L & _).
    exists rest. rewrite <- L. apply drop_length_app.
  - injection H as <-. constructor.
Qed.

Lemma regions_of_text (s : string) :
  forall ms cursor rs c x,
    spaced s cursor ms ->
    Forall (fun m => exists rest,
                       drop (index m) s = Some (text m +++ rest)) ms ->
    regions_of s cursor ms = (rs, c) ->
    drop cursor s = Some x ->
    exists y, drop c s = Some y /\ x = text_of_regions rs +++ y.
Proof.
  induction ms as [|m t IH]; intros cursor rs c x Hsp Hloc H Hx; simpl in H.
  - injection H as <- <-. exists x. now split.
  - destruct Hsp as (Hle & Hne & Hsp).
    inversion Hloc as [|m0 t0 (rest & Hm) Hrest]; subst.
    destruct (regions_of s (index m + String.length (text m)) t)
      as [rs' c'] eqn:R.
    injection H as <- <-.
    assert (Hafter : drop (index m + String.length (text m)) s = Some rest).
    { rewrite (drop_drop _ _ _ _ Hm). apply drop_length_app. }
    destruct (IH _ _ _ _ Hsp Hrest R Hafter) as (y & Hy & Erest).
    exists y. split; [assumption|].
    assert (Hgap : drop (index m - cursor) x = Some (text m +++ rest)).
    { rewrite <- (drop_drop _ _ _ _ Hx).
      now replace (cursor + (index m - cursor)) with (index m) by lia. }
    assert (Ex : x = take (index m - cursor) x +++ text m +++ rest)
      by (symmetry; now apply take_drop).
    destruct (cursor =? index m)%nat eqn:Ec.
    + apply Nat.eqb_eq in Ec. rewrite Ec, Nat.sub_diag in Ex. simpl in Ex.
      replace (take 0 x) with "" in Ex by now destruct x.
      simpl. rewrite append_assoc, <- Erest. exact Ex.
    + cbn [app text_of_regions fold_right value].
      unfold str_slice. rewrite (substring_drop _ _ _ _ Hx).
      fold (text_of_regions rs'). rewrite !append_assoc, <- Erest. exact Ex.
Qed.

Lemma splitByMatches_text
  (regexp : RegExp) (s : string) (parts : list StringRegion) :
  splitByMatches regexp s = Ok parts -> text_of_regions parts = s.
Proof.
  unfold splitByMatches, allMatches.
  destruct (allMatches_from (enough_fuel s) regexp s 0) as [ms|] eqn:E;
    [|discriminate].
  intros H. injection H as <-.
  pose proof (allMatches_spaced _ _ _ _ _ (Nat.le_0_l _) E) as Hsp.
  pose proof (allMatches_located _ _ _ _ _ E) as Hloc.
  unfold splitByMatches_of.
  destruct (regions_of s 0 ms) as [rs c] eqn:R.
  destruct (regions_of_text s ms 0 rs c s Hsp Hloc R eq_refl) as (y & Hy & Es).
  assert (Htail : str_slice c (String.length s) s = y).
  { unfold str_slice. rewrite (substring_drop _ _ _ _ Hy).
    apply drop_split in Hy as (pre & -> & L).
    rewrite length_append, L.
    replace (c + String.length y - c) with (String.length y) by lia.
    apply take_all. }
  assert (Happ : forall a b,
             text_of_regions (a ++ b)
             = text_of_regions a +++ text_of_regions b).
  { induction a as [|q a IH]; intros b; simpl; [reflexivity|].
    now rewrite IH, append_assoc. }
  destruct (negb (c =? String.length s)%nat || (List.length rs =? 0)%nat)
    eqn:Ecase.
  - rewrite Happ. simpl. rewrite Htail, append_empty_r. now symmetry.
  - apply orb_false_iff in Ecase as [Ec _]. apply negb_false_iff in Ec.
    apply Nat.eqb_eq in Ec. subst c.
    rewrite drop_all in Hy. injection Hy as <-.
    rewrite append_empty_r in Es. now symmetry.
Qed.

(** X1: the regions that [splitByMatches] returns, put end to end, are
    the line: nothing of it is lost and nothing is added. *)
Theorem X1_splitByMatches_covers_the_line
  (regexp : RegExp) (s : string) (parts : list StringRegion) :
  splitByMatches regexp s = Ok parts -> text_of_regions parts = s.
Proof. apply splitByMatches_text. Qed.

(** A line of three regions under the dictionary of [Foo:]. *)
Lemma X1_witness :
  text_of_regions [ {| value := "a "; isMatch := false |};
                    {| value := "Foo:"; isMatch := true |};
                    {| value := " 1"; isMatch := false |} ]
  = "a Foo: 1".
Proof.
  exact (X1_splitByMatches_covers_the_line
           (alternation ["Foo:"]) "a Foo: 1" _ eq_refl).
Defined.

(** ** The shape of the regions *)

Lemma substring_all (s : string) : str_slice 0 (String.length s) s = s.
Proof.
  unfold str_slice. rewrite Nat.sub_0_r, substring_take. apply take_all.
Qed.

Lemma allMatches_from_S (f : nat) (r : RegExp) (s : string) (li : nat) :
  allMatches_from (S f) r s li
  = match exec r s li with
    | None => Some []
    | Some (m, li') => option_map (cons m) (allMatches_from f r s li')
    end.
Proof. reflexivity. Qed.

Lemma splitByMatches_no_match (regexp : RegExp) (s : string) :
  exec regexp s 0 = None ->
  splitByMatches regexp s = Ok [{| value := s; isMatch := false |}].
Proof.
  intros H. unfold splitByMatches, allMatches, enough_fuel.
  rewrite Nat.add_comm. cbn [Nat.add allMatches_from]. rewrite H.
  unfold splitByMatches_of. cbn [regions_of List.length Nat.eqb].
  rewrite orb_true_r. cbn [app]. now rewrite substring_all.
Qed.

(** The last region made by the [forEach] is a match, and an unmatched
    region is always followed by one. *)
Lemma regions_of_alternate (s : string) :
  forall ms cursor rs c,
    regions_of s cursor ms = (rs, c) ->
    no_adjacent_unmatched rs = true
    /\ (forall d, isMatch (last rs d) = true \/ rs = [])
    /\ (ms <> [] -> exists m, In m ms /\
                             In {| value := text m; isMatch := true |} rs).
Proof.
  induction ms as [|m t IH]; intros cursor rs c H; simpl in H.
  - injection H as <- <-. split; [reflexivity|]. split; [now right | congruence].
  - destruct (regions_of s (index m + String.length (text m)) t)
      as [rs' c'] eqn:R.
    injection H as <- <-.
    destruct (IH _ _ _ R) as (Hadj & Hlast & _).
    assert (Hm : no_adjacent_unmatched
                   ({| value := text m; isMatch := true |} :: rs') = true).
    { cbn [no_adjacent_unmatched isMatch]. destruct rs'; [reflexivity|].
      exact Hadj. }
    assert (Hl : forall d,
               isMatch (last ({| value := text m; isMatch := true |} :: rs') d)
               = true).
    { intros d. destruct rs' as [|q rs'']; [reflexivity|].
      destruct (Hlast d) as [Hq|Hq]; [|discriminate].
      exact Hq. }
    split; [|split].
    + destruct (cursor =? index m)%nat; [exact Hm|].
      cbn [app]. cbn [no_adjacent_unmatched isMatch].
      rewrite orb_true_r. exact Hm.
    + intros d. left. destruct (cursor =? index m)%nat; [apply Hl|].
      cbn [app]. exact (Hl d).
    + intros _. exists m. split; [now left|].
      apply in_or_app. right. now left.
Qed.

Lemma no_adjacent_unmatched_app (rs : list StringRegion) (p : StringRegion) :
  no_adjacent_unmatched rs = true ->
  (forall d, isMatch (last rs d) = true \/ rs = []) ->
  no_adjacent_unmatched (rs ++ [p]) = true.
Proof.
  induction rs as [|q rs IH]; intros Hadj Hlast; [reflexivity|].
  destruct rs as [|q' rs'].
  - cbn. destruct (Hlast p) as [H|H]; [|discriminate].
    simpl in H. now rewrite H.
  - cbn [app no_adjacent_unmatched] in *.
    apply andb_true_iff in Hadj as [H1 H2]. rewrite H1. cbn [andb].
    apply IH; [exact H2|].
    intros d. destruct (Hlast d) as [H|H]; [|discriminate]. now left.
Qed.

(** X2: the regions of a line under the header pattern.  Either the
    line has the single region that is the whole line, unmatched; or
    every region is non-empty and every matched region is a declared
    header.  In both cases no two unmatched regions are neighbours. *)
Theorem X2_regions_are_headers_and_free_text
  (hs : list string) (s : string) (parts : list StringRegion) :
  splitByMatches (alternation hs) s = Ok parts ->
  (parts = [{| value := s; isMatch := false |}]
   \/ Forall (fun p => value p <> ""
                       /\ (isMatch p = true -> In (value p) hs)) parts)
  /\ no_adjacent_unmatched parts = true.
Proof.
  intros H. split.
  - destruct (splitByMatches_regions hs s parts H) as [Hall|(v & ->)];
      [now right|].
    left. apply splitByMatches_text in H. simpl in H.
    rewrite append_empty_r in H. now subst v.
  - unfold splitByMatches, allMatches in H.
    destruct (allMatches_from (enough_fuel s) (alternation hs) s 0)
      as [ms|]; [|discriminate].
    injection H as <-. unfold splitByMatches_of.
    destruct (regions_of s 0 ms) as [rs c] eqn:R.
    destruct (regions_of_alternate s ms 0 rs c R) as (Hadj & Hlast & _).
    destruct (negb (c =? String.length s)%nat || (List.length rs =? 0)%nat);
      [|exact Hadj].
    now apply no_adjacent_unmatched_app.
Qed.

Lemma X2_witness :
  ([ {| value := "Foo:"; isMatch := true |};
     {| value := "Bar:"; isMatch := true |};
     {| value := " x"; isMatch := false |} ]
   = [{| value := "Foo:Bar: x"; isMatch := false |}]
   \/ Forall (fun p => value p <> ""
                       /\ (isMatch p = true -> In (value p) ["Foo:"; "Bar:"]))
             [ {| value := "Foo:"; isMatch := true |};
               {| value := "Bar:"; isMatch := true |};
               {| value := " x"; isMatch := false |} ])
  /\ no_adjacent_unmatched
       [ {| value := "Foo:"; isMatch := true |};
         {| value := "Bar:"; isMatch := true |};
         {| value := " x"; isMatch := false |} ] = true.
Proof.
  exact (X2_regions_are_headers_and_free_text
           ["Foo:"; "Bar:"] "Foo:Bar: x" _ eq_refl).
Defined.

(** X3: a line yields the single region that is the whole line,
    unmatched, exactly when the pattern is found nowhere in it. *)
Theorem X3_line_without_match_is_one_region
  (regexp : RegExp) (s : string) (parts : list StringRegion) :
  splitByMatches regexp s = Ok parts ->
  (exec regexp s 0 = None
   <-> parts = [{| value := s; isMatch := false |}])
  /\ (exec regexp s 0 = None <-> forallb (fun p => negb (isMatch p)) parts = true).
Proof.
  intros H.
  assert (Hno : exec regexp s 0 = None ->
                parts = [{| value := s; isMatch := false |}]).
  { intros E. rewrite (splitByMatches_no_match _ _ E) in H.
    now injection H as <-. }
  assert (Hsome : forallb (fun p => negb (isMatch p)) parts = true ->
                  exec regexp s 0 = None).
  { intros Hall. unfold splitByMatches, allMatches, enough_fuel in H.
    rewrite Nat.add_comm in H. cbn [Nat.add] in H.
    rewrite allMatches_from_S in H.
    destruct (exec regexp s 0) as [[m li]|]; [|reflexivity].
    destruct (allMatches_from _ regexp s li) as [t|]; [|discriminate].
    cbn [option_map] in H. injection H as <-.
    unfold splitByMatches_of in Hall.
    destruct (regions_of s 0 (m :: t)) as [rs c] eqn:R.
    destruct (regions_of_alternate s _ 0 rs c R) as (_ & _ & Hin).
    destruct Hin as (m' & _ & Hin); [discriminate|].
    assert (Hin' : In {| value := text m'; isMatch := true |}
                      (if negb (c =? String.length s)%nat
                          || (List.length rs =? 0)%nat
                       then rs ++ [{| value := str_slice c (String.length s) s;
                                      isMatch := false |}]
                       else rs)).
    { destruct (negb _ || _); [apply in_or_app; now left | assumption]. }
    rewrite forallb_forall in Hall. apply Hall in Hin'. discriminate. }
  split; split; auto.
  - intros ->. now apply Hsome.
  - intros E. now rewrite (Hno E).
Qed.

Lemma X3_witness :
  (exec (alternation ["Foo:"]) "Line 1" 0 = None
   <-> [{| value := "Line 1"; isMatch := false |}]
       = [{| value := "Line 1"; isMatch := false |}])
  /\ (exec (alternation ["Foo:"]) "Line 1" 0 = None
      <-> forallb (fun p => negb (isMatch p))
                  [{| value := "Line 1"; isMatch := false |}] = true).
Proof.
  exact (X3_line_without_match_is_one_region
           (alternation ["Foo:"]) "Line 1" _ eq_refl).
Defined.

(** ** Which header is matched *)

Lemma has_prefix_iff (h : string) :
  forall s, has_prefix h s = true <-> exists rest, s = h +++ rest.
Proof.
  induction h as [|c t IH]; intros s.
  - simpl. split; [intros _; now exists s | reflexivity].
  - destruct s as [|c' t']; simpl.
    + split; [discriminate | intros (rest & H); discriminate].
    + rewrite andb_true_iff, IH. split.
      * intros [Hc (rest & ->)]. apply Ascii.eqb_eq in Hc; subst c'.
        now exists rest.
      * intros (rest & H). injection H as -> ->.
        split; [apply Ascii.eqb_refl | now exists rest].
Qed.

Lemma rmatch_lit_cases (n : nat) (h : string) :
  forall x,
    (has_prefix h x = false /\ rmatch n (lit h) x = [])
    \/ (exists r, x = h +++ r /\ has_prefix h x = true
                  /\ rmatch n (lit h) x = [r]).
Proof.
  induction h as [|c t IH]; intros x.
  - right. exists x. now repeat split.
  - destruct x as [|c' t']; [now left|].
    cbn [lit rmatch step_char has_prefix].
    destruct (Ascii.eqb c c') eqn:E; [|now left].
    apply Ascii.eqb_eq in E; subst c'.
    cbn [flat_map andb]. rewrite app_nil_r.
    destruct (IH t') as [[H1 H2]|(r & -> & H1 & H2)].
    + left. now split.
    + right. exists r. now repeat split.
Qed.

Lemma rmatch_alternation_flat (n : nat) (hs : list string) (x : string) :
  hs <> [] ->
  rmatch n (alternation hs) x = flat_map (fun h => rmatch n (lit h) x) hs.
Proof.
  induction hs as [|h t IH]; [congruence|]. intros _.
  destruct t as [|h' t'].
  - cbn [alternation flat_map]. now rewrite app_nil_r.
  - change (rmatch n (alternation (h :: h' :: t')) x)
      with (rmatch n (lit h) x ++ rmatch n (alternation (h' :: t')) x).
    rewrite IH by discriminate. reflexivity.
Qed.

(** The pattern's first preference is the first header of the list that
    is at the start of the text. *)
Lemma rmatch_alternation_first (n : nat) (hs : list string) (x r : string)
  (more : list string) :
  hs <> [] ->
  rmatch n (alternation hs) x = r :: more ->
  exists h, find (fun h => has_prefix h x) hs = Some h /\ x = h +++ r.
Proof.
  intros Hne. rewrite rmatch_alternation_flat by assumption. clear Hne.
  induction hs as [|h t IH]; [discriminate|].
  cbn [flat_map find].
  destruct (rmatch_lit_cases n h x) as [[H1 H2]|(r' & Hx & H1 & H2)];
    rewrite H1, H2.
  - exact IH.
  - cbn [app]. intros H. injection H as <- _. now exists h.
Qed.

Lemma search_leftmost (n : nat) (r : RegExp) :
  forall s from rest,
    search n r s = Some (from, rest) ->
    forall q1 q2,
      s = q1 +++ q2 +++ from -> q2 <> "" -> rmatch n r (q2 +++ from) = [].
Proof.
  induction s as [|c t IH]; intros from rest H q1 q2 Hs Hq2;
    rewrite search_unfold in H.
  - destruct q1; destruct q2; simpl in Hs; congruence.
  - destruct (rmatch n r (String c t)) as [|x l] eqn:E.
    + destruct q1 as [|c1 q1'].
      * simpl in Hs. now rewrite <- Hs.
      * simpl in Hs. injection Hs as _ Hs. now apply (IH from rest H q1' q2).
    + injection H as <- _. exfalso.
      apply (f_equal String.length) in Hs. rewrite !length_append in Hs.
      destruct q2; [congruence | simpl in Hs; lia].
Qed.

Lemma drop_inside (j : nat) :
  forall p from x,
    drop j (p +++ from) = Some x -> j < String.length p ->
    exists q1 q2, p = q1 +++ q2 /\ q2 <> "" /\ x = q2 +++ from.
Proof.
  induction j as [|j IH]; intros p from x H Hj.
  - simpl in H. injection H as <-. exists "", p.
    split; [reflexivity|]. split; [|reflexivity].
    destruct p; [simpl in Hj; lia | discriminate].
  - destruct p as [|c p']; [simpl in Hj; lia|]. simpl in H, Hj.
    destruct (IH p' from x H ltac:(lia)) as (q1 & q2 & -> & Hq & ->).
    now exists (String c q1), q2.
Qed.

(** X4: what [exec] returns on the header pattern.  The match is the
    first header, in the order of the dictionary, that stands at the
    start of the text from the match on; and from [lastIndex] up to the
    match no header stands at any position. *)
Theorem X4_leftmost_position_then_first_header
  (hs : list string) (s : string) (lastIndex : nat) (m : RMatch)
  (lastIndex' : nat) :
  hs <> [] ->
  exec (alternation hs) s lastIndex = Some (m, lastIndex') ->
  exists rest,
    drop (index m) s = Some (text m +++ rest)
    /\ lastIndex <= index m
    /\ find (fun h => has_prefix h (text m +++ rest)) hs = Some (text m)
    /\ forall k x h,
         lastIndex <= k < index m -> drop k s = Some x -> In h hs ->
         has_prefix h x = false.
Proof.
  intros Hne H.
  pose proof (exec_spec _ _ _ _ _ H) as (pre & rest & more & Hs & L & Hle & _ & Hm).
  exists rest.
  assert (Hdrop : drop (index m) s = Some (text m +++ rest))
    by (rewrite Hs, <- L; apply drop_length_app).
  split; [assumption|]. split; [assumption|]. split.
  - destruct (rmatch_alternation_first _ _ _ _ _ Hne Hm) as (h & Hfind & E).
    apply append_cancel_r in E. rewrite Hfind. now rewrite E.
  - intros k x h Hk Hx Hin.
    unfold exec in H.
    destruct (drop lastIndex s) as [suffix|] eqn:D; [|discriminate].
    destruct (search (String.length s) (alternation hs) suffix)
      as [[from rest']|] eqn:Sr; [|discriminate].
    injection H as Hm' _.
    pose proof (search_sound _ _ _ _ _ Sr) as [(p1 & Hp1) _].
    assert (Hidx : index m = String.length s - String.length from)
      by (now rewrite <- Hm').
    pose proof (drop_split _ _ _ D) as (p0 & Hp0 & L0).
    assert (Hk' : drop (k - lastIndex) suffix = Some x).
    { rewrite <- (drop_drop _ _ _ _ D).
      now replace (lastIndex + (k - lastIndex)) with k by lia. }
    rewrite Hp1 in Hk'.
    assert (Hlen : k - lastIndex < String.length p1).
    { rewrite Hp0, Hp1, !length_append in Hidx. lia. }
    destruct (drop_inside _ _ _ _ Hk' Hlen) as (q1 & q2 & Hq & Hq2 & ->).
    assert (Hnone : rmatch (String.length s) (alternation hs) (q2 +++ from) = []).
    { apply (search_leftmost _ _ _ _ _ Sr q1 q2); [|assumption].
      now rewrite Hp1, Hq, append_assoc. }
    destruct (has_prefix h (q2 +++ from)) eqn:Hp; [|reflexivity].
    apply has_prefix_iff in Hp as (r & Hr).
    pose proof (rmatch_alternation_complete (String.length s) hs h r Hin) as Hc.
    rewrite <- Hr, Hnone in Hc. destruct Hc.
Qed.

(** With [Cost Center:] declared before [Cost Center Description:] the
    longer header is still found where only it stands. *)
Lemma X4_witness :
  exists rest,
    drop 2 "x Cost Center Description: y"
    = Some ("Cost Center Description:" +++ rest)
    /\ 0 <= 2
    /\ find (fun h => has_prefix h ("Cost Center Description:" +++ rest))
            ["Cost Center:"; "Cost Center Description:"]
       = Some "Cost Center Description:"
    /\ forall k x h,
         0 <= k < 2 -> drop k "x Cost Center Description: y" = Some x ->
         In h ["Cost Center:"; "Cost Center Description:"] ->
         has_prefix h x = false.
Proof.
  exact (X4_leftmost_position_then_first_header
           ["Cost Center:"; "Cost Center Description:"]
           "x Cost Center Description: y" 0
           {| index := 2; text := "Cost Center Description:" |} 26
           ltac:(discriminate) eq_refl).
Defined.

(** ** Headers and the types that declare them *)

Lemma declares_iff (td : TypeDef) (h : string) :
  declares td h = true
  <-> In h (map snd (or_empty (fields td))
            ++ map fst (or_empty (fields_by_header td))).
Proof.
  unfold declares. rewrite orb_true_iff, in_app_iff, !existsb_exists.
  split.
  - intros [(x & Hin & E)|(x & Hin & E)];
      apply String.eqb_eq in E; subst x; [now left | now right].
  - intros [Hin|Hin]; [left | right]; exists h;
      (split; [assumption | apply String.eqb_refl]).
Qed.

Lemma allHeaders_typesForHeader (d : FieldDictionary) (h : string) :
  In h (allHeaders d) <-> typesForHeader d h <> [].
Proof.
  unfold allHeaders, typesForHeader.
  induction (types (data d)) as [|[name td] rest IH]; cbn [flat_map fst snd].
  - split; [intros [] | congruence].
  - rewrite in_app_iff, IH, <- declares_iff.
    destruct (declares td h); cbn [app].
    + split; [discriminate | now left].
    + split; [intros [H|H]; [discriminate | exact H] | now right].
Qed.

(** X5: the matcher and the classifier agree on what a header is.  A
    string is one of [allHeaders] exactly when [typesForHeader] finds a
    type for it; so every region that the parser's pattern matches has
    at least one type, and can only fail to vote by having several. *)
Theorem X5_matched_headers_have_a_type
  (d : Dictionary) (this : OrderParser) (line : string)
  (parts : list StringRegion) :
  new_OrderParser d = Ok this ->
  splitByMatches (regex this) line = Ok parts ->
  (forall h, In h (allHeaders (dictionary this))
             <-> typesForHeader (dictionary this) h <> [])
  /\ Forall (fun p => isMatch p = true ->
                      typesForHeader (dictionary this) (value p) <> []) parts.
Proof.
  intros Hnew H. split; [intros h; apply allHeaders_typesForHeader|].
  injection Hnew as <-. cbn [regex dictionary] in *.
  unfold buildDictionaryRegex in H.
  apply splitByMatches_parts_ok in H as [H _].
  eapply Forall_impl; [|exact H]. intros p Hp Hm.
  now apply allHeaders_typesForHeader, Hp.
Qed.

Lemma X5_witness :
  (forall h, In h (allHeaders (new_FieldDictionary dict_suborders))
             <-> typesForHeader (new_FieldDictionary dict_suborders) h <> [])
  /\ Forall (fun p => isMatch p = true ->
                      typesForHeader (new_FieldDictionary dict_suborders)
                                     (value p) <> [])
            [ {| value := "foo:"; isMatch := true |};
              {| value := " 1"; isMatch := false |} ].
Proof.
  exact (X5_matched_headers_have_a_type dict_suborders _ "foo: 1" _
           eq_refl eq_refl).
Defined.

(** ** Filing never loses a record *)

Lemma find_split {A : Type} (p : A -> bool) :
  forall l x,
    find p l = Some x ->
    exists before after,
      l = before ++ x :: after
      /\ (forall o, In o before -> p o = false) /\ p x = true.
Proof.
  induction l as [|y t IH]; intros x H; [discriminate|].
  simpl in H. destruct (p y) eqn:E.
  - injection H as <-. exists [], t. split; [reflexivity|].
    split; [intros o [] | assumption].
  - destruct (IH x H) as (before & after & -> & Hb & Hx).
    exists (y :: before), after. split; [reflexivity|].
    split; [|assumption]. intros o [<-|Ho]; [assumption | now apply Hb].
Qed.

(** X6: what [cookObject] does to the top-level records when it
    returns.  It leaves them as they are (a record without owner is
    dropped), or adds one record at the end, or changes one record in
    place, and then only its [as] property, which becomes an array with
    the new record at its end.  No record is removed or moved. *)
Theorem X6_cookObject_keeps_the_records
  (rawFields : Obj) (currObjects objs' : list Obj) (d : FieldDictionary) :
  cookObject rawFields currObjects d = Ok objs' ->
  objs' = currObjects
  \/ (exists r, objs' = currObjects ++ [r])
  \/ (exists before o after o' name items r,
        currObjects = before ++ o :: after
        /\ objs' = before ++ o' :: after
        /\ (forall k, k <> name -> obj_get k o' = obj_get k o)
        /\ prop name o' = VArr (items ++ [VObj r])
        /\ (prop name o = VArr items
            \/ (truthy (prop name o) = false /\ items = []))).
Proof.
  unfold cookObject.
  destruct (identifyObjectType rawFields d) as [[T|]| |]; cbn [bind];
    try discriminate.
  destruct (process_all d T rawFields []) as [result| |]; cbn [bind];
    try discriminate.
  destruct (ownerOf d T) as [[owner|]| |]; cbn [bind]; try discriminate.
  - set (is_owner := fun o : Obj =>
           strict_eq (prop (key_of (match_on owner)) o)
                     (prop (key_of (match_on owner)) result)).
    set (name := key_of (as_ owner)).
    destruct (find is_owner currObjects) as [ownerObj|] eqn:F.
    + destruct (find_split _ _ _ F) as (before & after & -> & Hb & Hx).
      destruct (truthy (prop name ownerObj)) eqn:Ht; cbn [negb].
      * destruct (prop name ownerObj) as [| | |items|] eqn:Hp;
          try discriminate.
        intros H. injection H as <-.
        rewrite (mutate_first_first _ _ _ _ _ Hb Hx).
        right. right.
        exists before, ownerObj, after,
          (obj_set name (VArr (items ++ [VObj result])) ownerObj),
          name, items, result.
        split; [reflexivity|]. split; [reflexivity|].
        split; [intros k Hk; now apply obj_get_set_other|].
        split; [apply prop_set_same | now left].
      * rewrite prop_set_same.
        intros H. injection H as <-.
        rewrite (mutate_first_first _ _ _ _ _ Hb Hx).
        right. right.
        exists before, ownerObj, after,
          (obj_set name (VArr ([] ++ [VObj result]))
             (obj_set name (VArr []) ownerObj)),
          name, [], result.
        split; [reflexivity|]. split; [reflexivity|].
        split; [intros k Hk; now rewrite !obj_get_set_other|].
        split; [apply prop_set_same | now right].
    + intros H. injection H as <-. now left.
  - intros H. injection H as <-. right. left. now exists result.
Qed.

(** A suborder filed under its order. *)
Lemma X6_witness :
  [[("foo", VStr "1");
    ("suborders", VArr [VObj [("foo", VStr "1"); ("bar", VStr "hello")]])]]
  = [[("foo", VStr "1")]]
  \/ (exists r,
        [[("foo", VStr "1");
          ("suborders", VArr [VObj [("foo", VStr "1"); ("bar", VStr "hello")]])]]
        = [[("foo", VStr "1")]] ++ [r])
  \/ (exists before o after o' name items r,
        [[("foo", VStr "1")]] = before ++ o :: after
        /\ [[("foo", VStr "1");
             ("suborders",
              VArr [VObj [("foo", VStr "1"); ("bar", VStr "hello")]])]]
           = before ++ o' :: after
        /\ (forall k, k <> name -> obj_get k o' = obj_get k o)
        /\ prop name o' = VArr (items ++ [VObj r])
        /\ (prop name o = VArr items
            \/ (truthy (prop name o) = false /\ items = []))).
Proof.
  exact (X6_cookObject_keeps_the_records
           [("foo:", VStr "1"); ("bar:", VStr "hello")]
           [[("foo", VStr "1")]] _ (new_FieldDictionary dict_owned) eq_refl).
Defined.

(** ** Separator lines *)

Lemma on_separator_fresh (this : OrderParser) (objs : list Obj) :
  on_separator this (with_objects objs initial)
  = Ok (with_objects objs initial).
Proof. reflexivity. Qed.

Lemma on_separator_shape (this : OrderParser) (st st1 : Scan) :
  on_separator this st = Ok st1 -> st1 = with_objects (objects st1) initial.
Proof.
  unfold on_separator.
  destruct (finishMultilineField st) as [s0| |]; cbn [bind]; try discriminate.
  destruct (cook_current this s0) as [objs| |]; cbn [bind]; try discriminate.
  intros H. injection H as <-. reflexivity.
Qed.

Lemma scan_separators_fresh (this : OrderParser) (sep : RegExp)
  (objs : list Obj) :
  recordSeparator (dictionary this) = Ok sep ->
  forall more rest,
    Forall (fun l => test sep l = true) more ->
    scan this (with_objects objs initial) (more ++ rest)
    = scan this (with_objects objs initial) rest.
Proof.
  intros Hsep. induction more as [|l more IH]; intros rest Hall;
    [reflexivity|].
  inversion Hall as [|l0 m0 Hl Hmore]; subst.
  cbn [app scan].
  rewrite (on_line_separator this _ l sep Hsep Hl), on_separator_fresh.
  cbn [bind]. now apply IH.
Qed.

(** X7: a run of separator lines does what its first line does: the
    lines after it in the run change nothing, whatever follows. *)
Theorem X7_run_of_separators_is_one_separator
  (this : OrderParser) (sep : RegExp) (st : Scan) (S : string)
  (more rest : list string) :
  recordSeparator (dictionary this) = Ok sep ->
  test sep S = true ->
  Forall (fun l => test sep l = true) more ->
  scan this st (S :: more ++ rest) = scan this st (S :: rest).
Proof.
  intros Hsep HS Hmore. cbn [scan].
  rewrite (on_line_separator this st S sep Hsep HS).
  destruct (on_separator this st) as [st1| |] eqn:E; cbn [bind];
    try reflexivity.
  rewrite (on_separator_shape this st st1 E).
  now apply scan_separators_fresh with sep.
Qed.

Lemma X7_witness :
  scan {| dictionary := new_FieldDictionary dict_foo;
          regex := buildDictionaryRegex (new_FieldDictionary dict_foo) |}
       initial ("____" :: ["__"; "_"] ++ ["Foo: 2"])
  = scan {| dictionary := new_FieldDictionary dict_foo;
            regex := buildDictionaryRegex (new_FieldDictionary dict_foo) |}
         initial ("____" :: ["Foo: 2"]).
Proof.
  refine (X7_run_of_separators_is_one_separator
            {| dictionary := new_FieldDictionary dict_foo;
               regex := buildDictionaryRegex (new_FieldDictionary dict_foo) |}
            DEFAULT_RECORD_SEPARATOR initial "____" ["__"; "_"] ["Foo: 2"]
            eq_refl eq_refl _).
  repeat constructor.
Defined.

Lemma on_close_after_separator (this : OrderParser) (st : Scan) :
  (let* st1 := on_separator this st in on_close this st1) = on_close this st.
Proof.
  unfold on_separator, on_close.
  destruct (finishMultilineField st) as [s0| |]; cbn [bind]; try reflexivity.
  destruct (cook_current this s0) as [objs| |]; cbn [bind]; reflexivity.
Qed.

(** X8: separator lines before the first record and after the last one
    do not change what [parse] returns: the same records, or the same
    error. *)
Theorem X8_separators_around_the_input
  (this : OrderParser) (sep : RegExp) (before lines after : list string) :
  recordSeparator (dictionary this) = Ok sep ->
  Forall (fun l => test sep l = true) before ->
  Forall (fun l => test sep l = true) after ->
  parse_lines this (before ++ lines ++ after) = parse_lines this lines.
Proof.
  intros Hsep Hb Ha. unfold parse_lines.
  change initial with (with_objects [] initial).
  rewrite (scan_separators_fresh this sep [] Hsep before _ Hb).
  rewrite scan_app.
  destruct (scan this (with_objects [] initial) lines) as [st| |];
    cbn [bind]; try reflexivity.
  destruct after as [|S more]; [reflexivity|].
  inversion Ha as [|S0 m0 HS Hmore]; subst.
  cbn [scan]. rewrite (on_line_separator this st S sep Hsep HS).
  rewrite <- (on_close_after_separator this st).
  destruct (on_separator this st) as [st1| |] eqn:E; cbn [bind];
    try reflexivity.
  rewrite (on_separator_shape this st st1 E).
  rewrite <- (app_nil_r more).
  rewrite (scan_separators_fresh this sep _ Hsep more [] Hmore).
  reflexivity.
Qed.

Lemma X8_witness :
  parse_lines {| dictionary := new_FieldDictionary dict_foo;
                 regex := buildDictionaryRegex (new_FieldDictionary dict_foo) |}
              (["___"] ++ ["Foo: 1"] ++ ["__"; "_"])
  = parse_lines {| dictionary := new_FieldDictionary dict_foo;
                   regex := buildDictionaryRegex
                              (new_FieldDictionary dict_foo) |}
                ["Foo: 1"].
Proof.
  refine (X8_separators_around_the_input
            {| dictionary := new_FieldDictionary dict_foo;
               regex := buildDictionaryRegex (new_FieldDictionary dict_foo) |}
            DEFAULT_RECORD_SEPARATOR ["___"] ["Foo: 1"] ["__"; "_"]
            eq_refl _ _); repeat constructor.
Defined.

(** ** Lines without a header *)

Lemma on_line_free_text (this : OrderParser) (sep : RegExp) (st : Scan)
  (line : string) :
  recordSeparator (dictionary this) = Ok sep ->
  free_text this sep line ->
  on_line this st line
  = walk [{| value := line; isMatch := false |}] (continue_field st).
Proof.
  intros Hsep [Ht He]. unfold on_line. rewrite Hsep. cbn [bind].
  rewrite Ht, (splitByMatches_no_match _ _ He). reflexivity.
Qed.

(** X9: lines in which no header is found, read while no field is open.
    Each line that is not blank adds one warning [Ignored header: '...']
    to the record being built, in the order of the lines; blank lines add
    nothing; the fields of the record, the finished records and the open
    field are as before. *)
Theorem X9_free_text_becomes_warnings
  (this : OrderParser) (sep : RegExp) (lines : list string) (st : Scan) :
  recordSeparator (dictionary this) = Ok sep ->
  Forall (free_text this sep) lines ->
  multilineField st = None ->
  builder_ok (object (currObject st)) ->
  exists b,
    scan this st lines
    = Ok {| objects := objects st; currObject := b; multilineField := None |}
    /\ warnings b
       = warnings (currObject st)
         ++ map ignored_message (filter (fun l => negb (blank l)) lines)
    /\ (forall k, k <> "_meta" ->
                  obj_get k (object b) = obj_get k (object (currObject st)))
    /\ builder_ok (object b).
Proof.
  intros Hsep Hall. revert st.
  induction Hall as [|line rest Hline Hrest IH]; intros st Hnone Hok.
  - exists (currObject st). cbn [scan map filter]. rewrite app_nil_r.
    destruct st as [objs b mf]. cbn in *. subst mf.
    refine (conj eq_refl (conj eq_refl (conj (fun _ _ => eq_refl) Hok))).
  - cbn [scan]. rewrite (on_line_free_text this sep st line Hsep Hline).
    unfold continue_field. rewrite Hnone. cbn [walk isMatch negb value].
    rewrite Hnone. cbn [filter]. unfold blank at 1.
    destruct (is_empty (trim line)); cbn [negb bind].
    + destruct (IH st Hnone Hok) as (b & Hscan & Hw & Hk & Hb).
      exists b. exact (conj Hscan (conj Hw (conj Hk Hb))).
    + destruct (warn_ok (currObject st) ("Ignored header: '" +++ line +++ "'")
                        Hok) as (b1 & Hwarn & Hok1 & Hw1 & Hk1).
      rewrite Hwarn. cbn [bind].
      destruct (IH {| objects := objects st; currObject := b1;
                      multilineField := None |} eq_refl Hok1)
        as (b & Hscan & Hw & Hk & Hb).
      exists b. cbn [objects currObject] in *.
      split; [assumption|]. split; [|split; [|assumption]].
      * rewrite Hw, Hw1, <- app_assoc. reflexivity.
      * intros k Hne. rewrite (Hk k Hne). now apply Hk1.
Qed.

Lemma X9_witness :
  exists b,
    scan {| dictionary := new_FieldDictionary dict_foo;
            regex := buildDictionaryRegex (new_FieldDictionary dict_foo) |}
         initial ["hello"; "  "; "world"]
    = Ok {| objects := objects initial; currObject := b;
            multilineField := None |}
    /\ warnings b
       = warnings (currObject initial)
         ++ map ignored_message
                (filter (fun l => negb (blank l)) ["hello"; "  "; "world"])
    /\ (forall k, k <> "_meta" ->
                  obj_get k (object b)
                  = obj_get k (object (currObject initial)))
    /\ builder_ok (object b).
Proof.
  refine (X9_free_text_becomes_warnings
            {| dictionary := new_FieldDictionary dict_foo;
               regex := buildDictionaryRegex (new_FieldDictionary dict_foo) |}
            DEFAULT_RECORD_SEPARATOR ["hello"; "  "; "world"] initial
            eq_refl _ eq_refl _).
  - repeat constructor.
  - split; [now left | intros k v _ H; discriminate H].
Defined.

Lemma warn_only_warnings (b : ObjectBuilder) (message : string) :
  only_warnings b ->
  exists b', warn b "ignored_text" message = Ok b' /\ only_warnings b'.
Proof.
  destruct b as [o]. intros [H|(l & H)]; cbn [object] in H; subst o.
  - eexists. split; [reflexivity|]. right. eexists. reflexivity.
  - eexists. split; [reflexivity|]. right. eexists. reflexivity.
Qed.

Lemma only_warnings_isEmpty (b : ObjectBuilder) :
  only_warnings b -> isEmpty b = true.
Proof.
  destruct b as [o]. intros [H|(l & H)]; cbn [object] in H; subst o;
    reflexivity.
Qed.

Lemma scan_without_headers (this : OrderParser) (sep : RegExp) :
  recordSeparator (dictionary this) = Ok sep ->
  forall lines b,
    Forall (fun l => test sep l = true \/ exec (regex this) l 0 = None) lines ->
    only_warnings b ->
    exists b',
      scan this {| objects := []; currObject := b; multilineField := None |}
           lines
      = Ok {| objects := []; currObject := b'; multilineField := None |}
      /\ only_warnings b'.
Proof.
  intros Hsep. induction lines as [|line rest IH]; intros b Hall Hb.
  - exists b. now split.
  - inversion Hall as [|l0 r0 Hline Hrest]; subst. cbn [scan].
    destruct (test sep line) eqn:Ht.
    + rewrite (on_line_separator this _ line sep Hsep Ht).
      unfold on_separator, finishMultilineField, cook_current.
      cbn [multilineField bind currObject objects].
      rewrite (only_warnings_isEmpty b Hb). cbn [negb bind].
      apply IH; [assumption | now left].
    + destruct Hline as [Hline|Hline]; [discriminate|].
      rewrite (on_line_free_text this sep _ line Hsep (conj Ht Hline)).
      unfold continue_field.
      cbn [multilineField walk isMatch negb value currObject objects].
      destruct (is_empty (trim line)); cbn [negb].
      * now apply IH.
      * destruct (warn_only_warnings b ("Ignored header: '" +++ line +++ "'")
                                     Hb) as (b1 & Hwarn & Hb1).
        rewrite Hwarn. cbn [bind]. now apply IH.
Qed.

(** X10: an input in which no line has a header gives no record and no
    error, whatever the lines say and wherever separator lines stand:
    the warnings about the ignored lines are lost with the builder. *)
Theorem X10_input_without_headers_gives_no_record
  (this : OrderParser) (sep : RegExp) (lines : list string) :
  recordSeparator (dictionary this) = Ok sep ->
  Forall (fun l => test sep l = true \/ exec (regex this) l 0 = None) lines ->
  parse_lines this lines = Ok [].
Proof.
  intros Hsep Hall. unfold parse_lines.
  destruct (scan_without_headers this sep Hsep lines new_ObjectBuilder Hall)
    as (b & Hscan & Hb); [now left|].
  change initial
    with {| objects := []; currObject := new_ObjectBuilder;
            multilineField := None |}.
  rewrite Hscan. cbn [bind]. unfold on_close, finishMultilineField.
  cbn [multilineField bind]. unfold cook_current. cbn [currObject objects].
  now rewrite (only_warnings_isEmpty b Hb).
Qed.

Lemma X10_witness :
  parse_lines {| dictionary := new_FieldDictionary dict_foo;
                 regex := buildDictionaryRegex (new_FieldDictionary dict_foo) |}
              ["Dear customer,"; "____"; "foo: 1"; ""]
  = Ok [].
Proof.
  refine (X10_input_without_headers_gives_no_record
            {| dictionary := new_FieldDictionary dict_foo;
               regex := buildDictionaryRegex (new_FieldDictionary dict_foo) |}
            DEFAULT_RECORD_SEPARATOR
            ["Dear customer,"; "____"; "foo: 1"; ""] eq_refl _).
  repeat constructor; (now left) || (now right).
Defined.

(** X11: lines without a header, read while a field is open, are added
    to the value of that field, each one after a line feed; nothing else
    changes, and blank lines are kept as they are. *)
Theorem X11_open_field_takes_the_following_lines
  (this : OrderParser) (sep : RegExp) (lines : list string) (st : Scan)
  (header v : string) :
  recordSeparator (dictionary this) = Ok sep ->
  Forall (free_text this sep) lines ->
  multilineField st = Some (header, v) ->
  scan this st lines
  = Ok {| objects := objects st; currObject := currObject st;
          multilineField := Some (header, v +++ continuation lines) |}.
Proof.
  intros Hsep Hall. revert st v.
  induction Hall as [|line rest Hline Hrest IH]; intros st v Hopen.
  - cbn [scan continuation fold_right]. rewrite append_empty_r.
    destruct st as [objs b mf]. cbn in *. now subst mf.
  - cbn [scan]. rewrite (on_line_free_text this sep st line Hsep Hline).
    unfold continue_field. rewrite Hopen.
    cbn [walk isMatch negb value multilineField objects currObject bind].
    rewrite (IH {| objects := objects st; currObject := currObject st;
                   multilineField := Some (header, (v +++ newline) +++ line) |}
                ((v +++ newline) +++ line) eq_refl).
    cbn [objects currObject continuation fold_right].
    now rewrite !append_assoc.
Qed.

Lemma X11_witness :
  scan {| dictionary := new_FieldDictionary dict_foo;
          regex := buildDictionaryRegex (new_FieldDictionary dict_foo) |}
       {| objects := []; currObject := new_ObjectBuilder;
          multilineField := Some ("Foo:", " first") |}
       ["second"; ""; "third"]
  = Ok {| objects := []; currObject := new_ObjectBuilder;
          multilineField :=
            Some ("Foo:", " first" +++ continuation ["second"; ""; "third"]) |}.
Proof.
  refine (X11_open_field_takes_the_following_lines
            {| dictionary := new_FieldDictionary dict_foo;
               regex := buildDictionaryRegex (new_FieldDictionary dict_foo) |}
            DEFAULT_RECORD_SEPARATOR ["second"; ""; "third"]
            {| objects := []; currObject := new_ObjectBuilder;
               multilineField := Some ("Foo:", " first") |}
            "Foo:" " first" eq_refl _ eq_refl).
  repeat constructor.
Defined.

(** ** [splitLines] *)

Lemma splitLines_nonempty (s : string) : splitLines s <> [].
Proof.
  induction s as [|c rest IH]; simpl; [discriminate|].
  destruct (Ascii.eqb c LF); [discriminate|].
  destruct (Ascii.eqb c CR && starts_with_lf rest); [assumption|].
  destruct (splitLines rest); discriminate.
Qed.

Lemma join_cons_char (c : ascii) (l : string) (ls : list string) :
  join newline (String c l :: ls) = String c (join newline (l :: ls)).
Proof. destruct ls; reflexivity. Qed.

(** X12: [splitLines] always gives at least one line, no line has a
    line feed in it, and putting the lines together again with line
    feeds gives the text back, but for the carriage returns that stood
    directly before a line feed. *)
Theorem X12_splitLines_round_trip (s : string) :
  splitLines s <> []
  /\ Forall (fun l => has_lf l = false) (splitLines s)
  /\ join newline (splitLines s) = without_cr_before_lf s.
Proof.
  split; [apply splitLines_nonempty|].
  induction s as [|c rest [IHlf IHjoin]].
  - split; [repeat constructor | reflexivity].
  - assert (Hne := splitLines_nonempty rest).
    cbn [splitLines without_cr_before_lf].
    destruct (Ascii.eqb c LF) eqn:Elf.
    + apply Ascii.eqb_eq in Elf; subst c. cbn [Ascii.eqb andb].
      split; [now constructor|].
      change (Ascii.eqb LF CR) with false. cbn [andb].
      destruct (splitLines rest) as [|l ls]; [congruence|].
      rewrite <- IHjoin. reflexivity.
    + destruct (Ascii.eqb c CR && starts_with_lf rest); [now split|].
      destruct (splitLines rest) as [|l ls]; [congruence|].
      inversion IHlf as [|l0 ls0 Hl Hls]; subst. split.
      * constructor; [|assumption]. cbn [has_lf]. now rewrite Elf.
      * now rewrite join_cons_char, IHjoin.
Qed.

(** ** The cells of a table *)

Lemma zipObject_into_other (k : string) :
  forall props values acc,
    ~ In k props -> prop k (zipObject_into acc props values) = prop k acc.
Proof.
  induction props as [|p ps IH]; intros values acc H; [reflexivity|].
  cbn [zipObject_into]. rewrite IH by (intros Hin; apply H; now right).
  apply prop_set_other. intros ->. apply H. now left.
Qed.

(** A name reads the value that stands where the name stands last. *)
Lemma zipObject_into_nth :
  forall props values acc j,
    j < List.length props ->
    (forall j', j < j' < List.length props ->
                nth j' props "" <> nth j props "") ->
    prop (nth j props "") (zipObject_into acc props values)
    = nth j values VUndef.
Proof.
  induction props as [|p ps IH]; intros values acc j Hj Hlast;
    [simpl in Hj; lia|].
  cbn [zipObject_into]. destruct j as [|j]; cbn [nth].
  - rewrite zipObject_into_other.
    + rewrite prop_set_same. destruct values; reflexivity.
    + intros Hin. apply (In_nth _ _ "") in Hin as (i & Hi & E).
      apply (Hlast (S i)); [simpl; lia | exact E].
  - rewrite IH.
    + destruct values; [destruct j|]; reflexivity.
    + simpl in Hj. lia.
    + intros j' Hj'. apply (Hlast (S j')). simpl. lia.
Qed.

Lemma table_rows_nth (C : Z) (data : list string) (i : nat) :
  (0 < C)%Z ->
  ((Z.of_nat i + 2) * C <= Z.of_nat (List.length data))%Z ->
  nth i (table_rows C data) VUndef
  = VObj (zipObject
            (firstn (Z.to_nat C) data)
            (map VStr (firstn (Z.to_nat C)
                              (skipn ((i + 1) * Z.to_nat C) data)))).
Proof.
  intros HC Hbound. unfold table_rows.
  set (R := Z.of_nat (List.length data)) in *.
  assert (Hrows : (Z.of_nat i + 2 <= Z.quot R C)%Z).
  { rewrite Z.quot_div_nonneg by lia. apply Z.div_le_lower_bound; lia. }
  rewrite nth_map_seq by lia.
  rewrite (js_slice_within 0 C) by (fold R; nia).
  rewrite (js_slice_within ((Z.of_nat i + 1) * C) ((Z.of_nat i + 2) * C))
    by (fold R; nia).
  rewrite Z.sub_0_r. cbn [Z.to_nat skipn].
  replace ((Z.of_nat i + 2) * C - (Z.of_nat i + 1) * C)%Z with C by ring.
  replace (Z.to_nat ((Z.of_nat i + 1) * C)) with ((i + 1) * Z.to_nat C)
    by (rewrite Z2Nat.inj_mul by lia; f_equal; lia).
  reflexivity.
Qed.

(** X13: the cells of a table.  With [C > 0] columns and table lines
    that divide into rows, the row [i] of the table reads, under the
    name that stands in column [j] of the header row, the table line
    [(i + 1) * C + j], provided that name does not stand again in a
    later column; of two columns of the same name the later one is
    read. *)
Theorem X13_table_cell_is_a_table_line
  (opts : FieldDef) (fieldName tableName : string) (C : Z)
  (obj : Obj) (header s : string) :
  field_name opts = Some fieldName ->
  table_name opts = Some tableName ->
  num_columns opts = Some C ->
  fieldName <> "" -> tableName <> "" ->
  (0 < C)%Z ->
  let data := tableLines_of (splitLines s) in
  let R := Z.of_nat (List.length data) in
  (R mod C = 0)%Z ->
  exists p obj' rows,
    field_followed_by_table opts = Ok p
    /\ p obj header (VStr s) = Ok obj'
    /\ prop tableName obj' = VArr rows
    /\ forall i j,
         ((Z.of_nat i + 2) * C <= R)%Z ->
         j < Z.to_nat C ->
         (forall j', j < j' < Z.to_nat C -> nth j' data "" <> nth j data "") ->
         exists row,
           nth i rows VUndef = VObj row
           /\ prop (nth j data "") row
              = VStr (nth ((i + 1) * Z.to_nat C + j) data "").
Proof.
  intros Hf Ht Hc Hfne Htne HC data R Hmod.
  unfold field_followed_by_table, requiredOption.
  rewrite Hf, Ht, Hc, !truthy_string_nonempty by assumption.
  replace (truthy_number C) with true
    by (unfold truthy_number; symmetry; apply negb_true_iff, Z.eqb_neq; lia).
  cbn [bind].
  assert (HR0 : (0 <= R)%Z) by (unfold R; lia).
  assert (Hrem : Z.rem R C = 0%Z) by (rewrite Z.rem_mod_nonneg; lia).
  eexists _, _, (table_rows C data).
  split; [reflexivity|].
  split.
  { cbn [as_string bind]. fold data. fold R. rewrite Hrem. simpl.
    reflexivity. }
  split; [now rewrite prop_set_same|].
  intros i j Hi Hj Hlast.
  rewrite (table_rows_nth C data i HC Hi).
  eexists. split; [reflexivity|].
  assert (HC' : Z.to_nat C <= List.length data) by (fold R in Hi; nia).
  assert (Hrow : (i + 1) * Z.to_nat C + Z.to_nat C <= List.length data)
    by (fold R in Hi; nia).
  assert (Hnth : forall k, k < Z.to_nat C ->
                   nth k (firstn (Z.to_nat C) data) "" = nth k data "").
  { intros k Hk. rewrite nth_firstn.
    apply Nat.ltb_lt in Hk. now rewrite Hk. }
  rewrite <- (Hnth j Hj). unfold zipObject.
  rewrite zipObject_into_nth.
  - rewrite (nth_indep _ VUndef (VStr ""))
      by (rewrite length_map, length_firstn, length_skipn; lia).
    rewrite map_nth, nth_firstn.
    apply Nat.ltb_lt in Hj. rewrite Hj. now rewrite nth_skipn.
  - rewrite length_firstn. lia.
  - rewrite length_firstn. intros j' Hj'.
    rewrite !Hnth by lia. apply Hlast. lia.
Qed.

Lemma X13_witness :
  exists p obj' rows,
    field_followed_by_table (table_def (Some 2%Z)) = Ok p
    /\ p [] "Due:" (VStr (text_of_lines ["today"; "A"; "B"; "1"; "2"; "3"; "4"]))
       = Ok obj'
    /\ prop "items" obj' = VArr rows
    /\ forall i j,
         ((Z.of_nat i + 2) * 2 <= 6)%Z ->
         j < 2 ->
         (forall j', j < j' < 2 ->
                     nth j' ["A"; "B"; "1"; "2"; "3"; "4"] ""
                     <> nth j ["A"; "B"; "1"; "2"; "3"; "4"] "") ->
         exists row,
           nth i rows VUndef = VObj row
           /\ prop (nth j ["A"; "B"; "1"; "2"; "3"; "4"] "") row
              = VStr (nth ((i + 1) * 2 + j) ["A"; "B"; "1"; "2"; "3"; "4"] "").
Proof.
  exact (X13_table_cell_is_a_table_line
           (table_def (Some 2%Z)) "due" "items" 2 [] "Due:"
           (text_of_lines ["today"; "A"; "B"; "1"; "2"; "3"; "4"])
           eq_refl eq_refl eq_refl
           ltac:(discriminate) ltac:(discriminate) eq_refl eq_refl).
Defined.

(** ** The patterns of the location processor *)










Lemma append_cancel_l (p a b : string) : p +++ a = p +++ b -> a = b.
Proof.
  induction p as [|c p IH]; simpl; intros H; [assumption|].
  injection H as H. now apply IH.
Qed.




(** ** Slices of the lines of a capture *)








(** ** Contacts *)










(** ** Cooking a record of plain fields *)

Lemma In_unique {A B : Type} (g : A -> B) :
  forall l x y,
    NoDup (map g l) -> In x l -> In y l -> g x = g y -> x = y.
Proof.
  induction l as [|a l IH]; intros x y Hnd Hx Hy E; [destruct Hx|].
  cbn [map] in Hnd. inversion Hnd as [|a0 l0 Hnot Hrest]; subst.
  destruct Hx as [<-|Hx], Hy as [<-|Hy].
  - reflexivity.
  - exfalso. apply Hnot. rewrite E. now apply in_map.
  - exfalso. apply Hnot. rewrite <- E. now apply in_map.
  - now apply IH.
Qed.

Lemma find_by_header (fs : list (string * string)) (f h : string) :
  NoDup (map snd fs) -> In (f, h) fs ->
  find (fun e : string * string => String.eqb (snd e) h) fs = Some (f, h).
Proof.
  induction fs as [|[f0 h0] fs IH]; intros Hnd Hin; [destruct Hin|].
  cbn [map snd] in Hnd. inversion Hnd as [|a0 l0 Hnot Hrest]; subst.
  cbn [find snd]. destruct Hin as [E|Hin].
  - injection E as -> ->. now rewrite String.eqb_refl.
  - destruct (String.eqb h0 h) eqn:E.
    + apply String.eqb_eq in E. subst h0. exfalso. apply Hnot.
      now apply (in_map snd _ (f, h)).
    + now apply IH.
Qed.

Lemma process_plain (d : FieldDictionary) (T : string) (td : TypeDef)
  (fs : list (string * string)) (f h s : string) (obj : Obj) :
  lookup_type d T = Some td ->
  fields td = Some fs ->
  NoDup (map snd fs) -> In (f, h) fs ->
  h <> "_meta" -> f <> "" ->
  process d obj T h (VStr s) = Ok (obj_set f (VStr (trim s)) obj).
Proof.
  intros Hl Hf Hnd Hin Hh Hne. unfold process.
  apply String.eqb_neq in Hh. rewrite Hh, Hl, Hf.
  rewrite (find_by_header fs f h Hnd Hin).
  unfold trimmed, only_field, requiredOption. cbn [field].
  now rewrite truthy_string_nonempty.
Qed.

Lemma obj_get_not_in_keys (k : string) (o : Obj) :
  ~ In k (keys o) -> obj_get k o = None.
Proof.
  induction o as [|[k' v] o IH]; intros H; [reflexivity|].
  cbn [obj_get]. destruct (String.eqb k k') eqn:E.
  - apply String.eqb_eq in E. subst k'. exfalso. apply H. now left.
  - apply IH. intros Hin. apply H. now right.
Qed.

Lemma process_all_plain (d : FieldDictionary) (T : string) (td : TypeDef)
  (fs : list (string * string)) :
  lookup_type d T = Some td ->
  fields td = Some fs ->
  NoDup (map fst fs) -> NoDup (map snd fs) ->
  ~ In "" (map fst fs) ->
  ~ In "_meta" (map fst fs) -> ~ In "_meta" (map snd fs) ->
  forall raw acc,
    NoDup (keys raw) ->
    Forall (fun e => fst e = "_meta"
                     \/ (In (fst e) (map snd fs) /\ exists s, snd e = VStr s))
           raw ->
    exists result,
      process_all d T raw acc = Ok result
      /\ (forall f h s, In (f, h) fs -> obj_get h raw = Some (VStr s) ->
                        obj_get f result = Some (VStr (trim s)))
      /\ (forall f h, In (f, h) fs -> obj_get h raw = None ->
                      obj_get f result = obj_get f acc)
      /\ obj_get "_meta" result
         = match obj_get "_meta" raw with
           | Some v => Some v
           | None => obj_get "_meta" acc
           end
      /\ (forall k, k <> "_meta" -> ~ In k (map fst fs) ->
                    obj_get k result = obj_get k acc).
Proof.
  intros Hl Hf Hndf Hndh Hempty Hmf Hmh.
  assert (Hfield : forall f h, In (f, h) fs -> f <> "" /\ f <> "_meta").
  { intros f h Hin. split; intros ->;
      [apply Hempty | apply Hmf]; now apply (in_map fst _ (_, h)). }
  assert (Hheader : forall f h, In (f, h) fs -> h <> "_meta").
  { intros f h Hin ->. apply Hmh. now apply (in_map snd _ (f, _)). }
  induction raw as [|[h0 v0] rest IH]; intros acc Hnd Hall.
  - exists acc. cbn [process_all obj_get].
    refine (conj eq_refl (conj _ (conj (fun _ _ _ _ => eq_refl)
                                       (conj eq_refl (fun _ _ _ => eq_refl))))).
    intros f h s _ H. discriminate H.
  - cbn [keys map fst] in Hnd.
    inversion Hnd as [|a0 l0 Hnot Hrest]; subst.
    inversion Hall as [|e0 r0 Hhead Htail]; subst.
    assert (Hnone : obj_get h0 rest = None)
      by now apply obj_get_not_in_keys.
    cbn [fst snd] in Hhead. cbn [process_all].
    destruct Hhead as [->|[Hin0 (s0 & ->)]].
    + change (process d acc T "_meta" v0) with (Ok (obj_set "_meta" v0 acc)).
      cbn [bind].
      destruct (IH (obj_set "_meta" v0 acc) Hrest Htail)
        as (result & Hrun & H1 & H2 & H3 & H4).
      exists result. split; [assumption|].
      assert (Hother : forall h, h <> "_meta" ->
                obj_get h (("_meta", v0) :: rest) = obj_get h rest).
      { intros h Hh. cbn [obj_get]. apply String.eqb_neq in Hh.
        now rewrite Hh. }
      split; [|split; [|split]].
      * intros f h s Hin Hget.
        rewrite Hother in Hget by now apply (Hheader f).
        now apply (H1 f h).
      * intros f h Hin Hget.
        rewrite Hother in Hget by now apply (Hheader f).
        rewrite (H2 f h Hin Hget). apply obj_get_set_other.
        intros E. now apply (Hfield f h Hin).
      * rewrite H3, Hnone, obj_get_set_same. reflexivity.
      * intros k Hk Hnf. rewrite (H4 k Hk Hnf).
        apply obj_get_set_other. congruence.
    + apply in_map_iff in Hin0 as ([f0 h] & E & Hin0).
      cbn [snd] in E. subst h.
      destruct (Hfield f0 h0 Hin0) as [Hf0 Hf0m].
      assert (Hh0 := Hheader f0 h0 Hin0).
      rewrite (process_plain d T td fs f0 h0 s0 acc Hl Hf Hndh Hin0 Hh0 Hf0).
      cbn [bind].
      destruct (IH (obj_set f0 (VStr (trim s0)) acc) Hrest Htail)
        as (result & Hrun & H1 & H2 & H3 & H4).
      exists result. split; [assumption|].
      split; [|split; [|split]].
      * intros f h s Hin Hget. cbn [obj_get] in Hget.
        destruct (String.eqb h h0) eqn:E.
        -- apply String.eqb_eq in E. subst h. injection Hget as <-.
           assert (f = f0).
           { assert (Ep : (f, h0) = (f0, h0))
               by (apply (In_unique snd fs); auto).
             now injection Ep. }
           subst f. rewrite (H2 f0 h0 Hin0 Hnone).
           apply obj_get_set_same.
        -- now apply (H1 f h).
      * intros f h Hin Hget. cbn [obj_get] in Hget.
        destruct (String.eqb h h0) eqn:E; [discriminate|].
        rewrite (H2 f h Hin Hget). apply obj_get_set_other.
        intros ->.
        assert (Ep : (f, h0) = (f, h)) by (apply (In_unique fst fs); auto).
        injection Ep as ->. now rewrite String.eqb_refl in E.
      * rewrite H3. cbn [obj_get].
        replace (String.eqb "_meta" h0) with false
          by (symmetry; apply String.eqb_neq; congruence).
        destruct (obj_get "_meta" rest); [reflexivity|].
        apply obj_get_set_other. assumption.
      * intros k Hk Hnf. rewrite (H4 k Hk Hnf).
        apply obj_get_set_other. intros ->. apply Hnf.
        now apply (in_map fst _ (_, h0)).
Qed.



(** ** When [parse] does not come back *)

Lemma splitByMatches_good_headers (hs : list string) (line : string) :
  hs <> [] -> ~ In "" hs ->
  exists parts, splitByMatches (alternation hs) line = Ok parts.
Proof.
  intros Hne Hno.
  destruct (allMatches_terminates (alternation hs) line) with
    (fuel := enough_fuel line) (li := 0) as (ms & E).
  - intros li m li' E. apply exec_alternation_text in E as [[E _]|Hin];
      [contradiction|]. intros Hempty. apply Hno. now rewrite <- Hempty.
  - unfold enough_fuel. lia.
  - unfold enough_fuel. lia.
  - unfold splitByMatches, allMatches. rewrite E. now eexists.
Qed.

Lemma splitByMatches_bad_headers (hs : list string) (line : string) :
  hs = [] \/ In "" hs ->
  splitByMatches (alternation hs) line = Hang.
Proof.
  intros Hbad. apply splitByMatches_Hang. intros fuel.
  apply allMatches_never_ends; [|lia].
  intros from. destruct Hbad as [->|Hin].
  - simpl. discriminate.
  - apply (rmatch_alternation_complete (String.length line) _ _ from) in Hin.
    simpl in Hin. intros E. rewrite E in Hin. destruct Hin.
Qed.

Lemma returns_scan (this : OrderParser) :
  (forall line, returns (splitByMatches (regex this) line)) ->
  forall lines st, returns (scan this st lines).
Proof.
  intros Hsplit. induction lines as [|line rest IH]; intros st;
    [apply returns_Ok|].
  cbn [scan]. apply returns_bind; [|intros st'; apply IH].
  now apply returns_on_line.
Qed.

Lemma returns_on_close (this : OrderParser) (st : Scan) :
  returns (on_close this st).
Proof.
  unfold on_close.
  apply returns_bind; [apply returns_finishMultilineField | intros st'].
  apply returns_cook_current.
Qed.

Lemma first_non_separator (sep : RegExp) :
  forall lines,
    Exists (fun l => test sep l = false) lines ->
    exists pre x post,
      lines = pre ++ x :: post
      /\ Forall (fun l => test sep l = true) pre /\ test sep x = false.
Proof.
  induction lines as [|a lines IH]; intros H; [inversion H|].
  destruct (test sep a) eqn:E.
  - inversion H as [a0 l0 Ha|a0 l0 Hl]; subst; [congruence|].
    destruct (IH Hl) as (pre & x & post & -> & Hpre & Hx).
    exists (a :: pre), x, post. split; [reflexivity|].
    split; [now constructor | assumption].
  - exists [], a, lines. split; [reflexivity|].
    split; [constructor | assumption].
Qed.

Lemma separators_or_not (sep : RegExp) :
  forall lines,
    Forall (fun l => test sep l = true) lines
    \/ Exists (fun l => test sep l = false) lines.
Proof.
  induction lines as [|a lines [IH|IH]].
  - left. constructor.
  - destruct (test sep a) eqn:E; [left | right]; now constructor.
  - right. now constructor.
Qed.

(** X17: when [parse] does not come back.  That happens exactly when
    the dictionary declares no header at all, or declares the empty
    string as a header, and the input has a line that is not a record
    separator.  With such a dictionary an input of separator lines only
    is parsed (to no record), and with any other dictionary every input
    is parsed or rejected. *)
Theorem X17_parse_hangs_exactly_on_bad_headers
  (d : Dictionary) (this : OrderParser) (sep : RegExp) (lines : list string) :
  new_OrderParser d = Ok this ->
  recordSeparator (dictionary this) = Ok sep ->
  parse_lines this lines = Hang
  <-> (allHeaders (dictionary this) = []
       \/ In "" (allHeaders (dictionary this)))
      /\ Exists (fun l => test sep l = false) lines.
Proof.
  intros Hnew Hsep.
  assert (Hre : regex this = alternation (allHeaders (dictionary this)))
    by (injection Hnew as <-; reflexivity).
  split.
  - intros Hhang.
    assert (Hbad : allHeaders (dictionary this) = []
                   \/ In "" (allHeaders (dictionary this))).
    { destruct (allHeaders (dictionary this)) as [|h hs] eqn:Eh;
        [now left|].
      destruct (in_dec string_dec "" (h :: hs)) as [Hin|Hno]; [now right|].
      exfalso. revert Hhang. unfold parse_lines.
      apply returns_bind; [|intros st; apply returns_on_close].
      apply returns_scan. intros line. rewrite Hre.
      destruct (splitByMatches_good_headers (h :: hs) line) as (parts & ->);
        [discriminate | assumption | apply returns_Ok]. }
    split; [assumption|].
    destruct (separators_or_not sep lines) as [Hall|Hex]; [|assumption].
    exfalso.
    assert (Hnone : parse_lines this lines = Ok []).
    { unfold parse_lines.
      destruct (scan_without_headers this sep Hsep lines new_ObjectBuilder)
        as (b & Hscan & Hb).
      - revert Hall. apply Forall_impl. intros l Hl. now left.
      - now left.
      - change initial
          with {| objects := []; currObject := new_ObjectBuilder;
                  multilineField := None |}.
        rewrite Hscan. cbn [bind]. unfold on_close, finishMultilineField.
        cbn [multilineField bind]. unfold cook_current.
        cbn [currObject objects].
        now rewrite (only_warnings_isEmpty b Hb). }
    congruence.
  - intros [Hbad Hex].
    destruct (first_non_separator sep lines Hex)
      as (pre & x & post & -> & Hpre & Hx).
    unfold parse_lines. change initial with (with_objects [] initial).
    rewrite (scan_separators_fresh this sep [] Hsep pre _ Hpre).
    cbn [scan]. unfold on_line at 1. rewrite Hsep. cbn [bind].
    rewrite Hx, Hre, (splitByMatches_bad_headers _ x Hbad). reflexivity.
Qed.

Lemma X17_witness :
  parse_lines {| dictionary := new_FieldDictionary dict_empty;
                 regex := buildDictionaryRegex
                            (new_FieldDictionary dict_empty) |}
              ["___"; "Foo: 1"] = Hang
  <-> (allHeaders (new_FieldDictionary dict_empty) = []
       \/ In "" (allHeaders (new_FieldDictionary dict_empty)))
      /\ Exists (fun l => test DEFAULT_RECORD_SEPARATOR l = false)
                ["___"; "Foo: 1"].
Proof.
  exact (X17_parse_hangs_exactly_on_bad_headers
           dict_empty
           {| dictionary := new_FieldDictionary dict_empty;
              regex := buildDictionaryRegex (new_FieldDictionary dict_empty) |}
           DEFAULT_RECORD_SEPARATOR ["___"; "Foo: 1"] eq_refl eq_refl).
Defined.

(** ** A type without [fields] *)

Lemma process_all_without_fields (d : FieldDictionary) (T : string)
  (td : TypeDef) :
  lookup_type d T = Some td ->
  fields td = None ->
  forall raw acc,
    (exists k, In k (keys raw) /\ k <> "_meta") ->
    exists message, process_all d T raw acc = Err (TypeError message).
Proof.
  intros Hl Hf. induction raw as [|[h v] rest IH]; intros acc (k & Hin & Hk);
    [destruct Hin|].
  cbn [process_all]. unfold process at 1.
  destruct (String.eqb h "_meta") eqn:E.
  - cbn [bind]. apply IH. exists k. split; [|assumption].
    destruct Hin as [<-|Hin]; [|assumption].
    apply String.eqb_eq in E. contradiction.
  - rewrite Hl, Hf. cbn [bind]. now eexists.
Qed.

(** X18: a type may be declared with [fields_by_header] alone: the
    dictionary completes a missing [fields_by_header] but not a missing
    [fields], the headers of such a type are recognised, and a record is
    classified as of that type.  Cooking it fails: [process] reads the
    entries of [fields] before anything else, and that is a TypeError as
    soon as the record has a captured field. *)
Theorem X18_type_without_fields_cannot_be_cooked
  (d : FieldDictionary) (T : string) (td : TypeDef) (raw : Obj)
  (currObjects : list Obj) :
  identifyObjectType raw d = Ok (Some T) ->
  lookup_type d T = Some td ->
  fields td = None ->
  (exists k, In k (keys raw) /\ k <> "_meta") ->
  exists message,
    cookObject raw currObjects d = Err (TypeError message).
Proof.
  intros Hid Hl Hf Hk. unfold cookObject. rewrite Hid. cbn [bind].
  destruct (process_all_without_fields d T td Hl Hf raw [] Hk)
    as (message & ->).
  cbn [bind]. now exists message.
Qed.

Lemma X18_witness :
  exists message,
    cookObject [("Due:", VStr " today")] []
      (new_FieldDictionary
         {| types :=
              [("Order",
                {| fields := None;
                   fields_by_header := Some [("Due:", table_def (Some 2%Z))];
                   belongs_to := None |})];
            options := None |})
    = Err (TypeError message).
Proof.
  refine (X18_type_without_fields_cannot_be_cooked
            (new_FieldDictionary
               {| types :=
                    [("Order",
                      {| fields := None;
                         fields_by_header :=
                           Some [("Due:", table_def (Some 2%Z))];
                         belongs_to := None |})];
                  options := None |})
            "Order"
            {| fields := None;
               fields_by_header := Some [("Due:", table_def (Some 2%Z))];
               belongs_to := None |}
            [("Due:", VStr " today")] [] eq_refl eq_refl eq_refl _).
  exists "Due:". split; [now left | discriminate].
Defined.

(** ** [isEmpty] *)

Lemma keys_update (k : string) (v : Val) (o : Obj) :
  keys (obj_update k v o) = keys o.
Proof.
  induction o as [|[k' v'] o IH]; [reflexivity|].
  cbn [obj_update]. destruct (String.eqb k k'); cbn [keys map fst].
  - reflexivity.
  - f_equal. exact IH.
Qed.

Lemma obj_get_in_keys (k : string) (o : Obj) (v : Val) :
  obj_get k o = Some v -> In k (keys o).
Proof.
  induction o as [|[k' v'] o IH]; [discriminate|].
  cbn [obj_get keys map fst]. destruct (String.eqb k k') eqn:E.
  - apply String.eqb_eq in E. now left.
  - intros H. right. now apply IH.
Qed.

Lemma isEmpty_set_meta (v : Val) (o : Obj) :
  isEmpty {| object := obj_set "_meta" v o |} = isEmpty {| object := o |}.
Proof.
  unfold isEmpty, obj_set. cbn [object].
  destruct (obj_has "_meta" o) eqn:H; [now rewrite keys_update|].
  change (array_index "_meta") with (@None N).
  unfold keys. rewrite map_app. cbn [map fst].
  destruct o as [|[k1 v1] [|[k2 v2] o']]; [reflexivity| |reflexivity].
  cbn [map fst app]. unfold obj_has in H. cbn [obj_get] in H.
  destruct (String.eqb "_meta" k1) eqn:E; [discriminate|].
  rewrite String.eqb_sym. now rewrite E.
Qed.

Lemma warn_isEmpty (b b' : ObjectBuilder) (warnType message : string) :
  warn b warnType message = Ok b' -> isEmpty b' = isEmpty b.
Proof.
  destruct b as [o]. unfold warn. cbn [object].
  set (o1 := if negb (truthy (prop "_meta" o))
             then obj_set "_meta" (VObj []) o else o).
  assert (H1 : isEmpty {| object := o1 |} = isEmpty {| object := o |})
    by (unfold o1; destruct (negb _);
        [apply isEmpty_set_meta | reflexivity]).
  destruct (prop "_meta" o1) as [| | | |meta]; try discriminate.
  destruct (prop warnType _) as [| | |items|]; try discriminate.
  intros H. injection H as <-. now rewrite isEmpty_set_meta.
Qed.

Lemma isEmpty_with_field (k : string) (o : Obj) :
  In k (keys o) -> k <> "_meta" -> isEmpty {| object := o |} = false.
Proof.
  intros Hin Hne. unfold isEmpty. cbn [object].
  destruct (keys o) as [|k1 [|k2 ks]]; [destruct Hin| |reflexivity].
  destruct Hin as [->|[]]. now apply String.eqb_neq.
Qed.

(** X19: a warning never changes what [isEmpty] tells, whatever its
    kind: a builder that holds nothing but warnings stays empty, and is
    dropped with its warnings at the next separator. *)
Theorem X19_warning_does_not_change_isEmpty
  (b b' : ObjectBuilder) (warnType message : string) :
  warn b warnType message = Ok b' -> isEmpty b' = isEmpty b.
Proof. apply warn_isEmpty. Qed.

Lemma X19_witness :
  isEmpty {| object := [("_meta", VObj [("ignored_text", VArr [VStr "x"])])] |}
  = isEmpty new_ObjectBuilder.
Proof.
  exact (X19_warning_does_not_change_isEmpty
           new_ObjectBuilder
           {| object := [("_meta", VObj [("ignored_text", VArr [VStr "x"])])] |}
           "ignored_text" "x" eq_refl).
Defined.

(** X20: a stored field makes the builder non-empty, whatever it held
    before and whether or not the store raised a warning, with two
    exceptions in which [isEmpty] stays as it was: the field [_meta],
    which [isEmpty] does not count, and the field [__proto__] on a
    builder without a property of its own by that name, where the
    assignment creates none. *)
Theorem X20_stored_field_makes_the_builder_non_empty
  (b b' : ObjectBuilder) (field value : string) :
  store b field value = Ok b' ->
  (field <> "_meta" ->
   field <> "__proto__" \/ obj_get field (object b) <> None ->
   isEmpty b' = false)
  /\ (field = "_meta" -> isEmpty b' = isEmpty b)
  /\ (field = "__proto__" -> obj_get field (object b) = None ->
      isEmpty b' = isEmpty b).
Proof.
  intros H. unfold store in H.
  destruct (match stored (object b) field with
            | Some shown => warn b "ignored_text" (repeated_text field shown)
            | None => Ok b
            end) as [b1| |] eqn:E; cbn [bind] in H; try discriminate.
  injection H as <-.
  assert (H1 : isEmpty b1 = isEmpty b
               /\ (field <> "_meta" ->
                   obj_get field (object b1) = obj_get field (object b))).
  { destruct (stored (object b) field).
    - split; [now apply warn_isEmpty in E|].
      intros Hne. now apply (warn_get_other _ _ _ _ field E).
    - injection E as <-. now split. }
  destruct H1 as [H1 H2].
  split; [|split].
  - intros Hne Hown. apply (isEmpty_with_field field); [|assumption].
    apply obj_get_in_keys with (VStr value), assign_get_same.
    rewrite (H2 Hne). tauto.
  - intros ->. unfold assign. cbn [String.eqb Ascii.eqb Bool.eqb andb].
    rewrite isEmpty_set_meta. now destruct b1.
  - intros -> Hnone. unfold assign, obj_has.
    rewrite H2 by discriminate. rewrite Hnone.
    cbn [String.eqb Ascii.eqb Bool.eqb andb negb]. now destruct b1.
Qed.

Lemma X20_witness :
  ("Foo:" <> "_meta" ->
   "Foo:" <> "__proto__" \/ obj_get "Foo:" (object new_ObjectBuilder) <> None ->
   isEmpty {| object := [("Foo:", VStr " 1")] |} = false)
  /\ ("Foo:" = "_meta" ->
      isEmpty {| object := [("Foo:", VStr " 1")] |}
      = isEmpty new_ObjectBuilder)
  /\ ("Foo:" = "__proto__" ->
      obj_get "Foo:" (object new_ObjectBuilder) = None ->
      isEmpty {| object := [("Foo:", VStr " 1")] |}
      = isEmpty new_ObjectBuilder).
Proof.
  exact (X20_stored_field_makes_the_builder_non_empty
           new_ObjectBuilder {| object := [("Foo:", VStr " 1")] |}
           "Foo:" " 1" eq_refl).
Defined.

(** ** A line that begins with a header *)

Lemma rmatch_alternation_find (n : nat) (hs : list string) (x h : string) :
  find (fun h' => has_prefix h' x) hs = Some h ->
  exists r more, x = h +++ r /\ rmatch n (alternation hs) x = r :: more.
Proof.
  intros H.
  assert (Hne : hs <> []) by (destruct hs; [discriminate | discriminate]).
  rewrite rmatch_alternation_flat by assumption. clear Hne.
  induction hs as [|h0 t IH]; [discriminate|].
  cbn [find flat_map] in *.
  destruct (rmatch_lit_cases n h0 x) as [[H1 H2]|(r & Hx & H1 & H2)];
    rewrite H1 in H; rewrite H2.
  - now apply IH.
  - injection H as <-. exists r. eexists. split; [assumption | reflexivity].
Qed.

Lemma rmatch_alternation_nil (n : nat) (hs : list string) (x : string) :
  hs <> [] ->
  existsb (fun h => has_prefix h x) hs = false ->
  rmatch n (alternation hs) x = [].
Proof.
  intros Hne. rewrite rmatch_alternation_flat by assumption. clear Hne.
  induction hs as [|h0 t IH]; [reflexivity|].
  cbn [existsb flat_map]. intros H. apply orb_false_iff in H as [H0 Ht].
  destruct (rmatch_lit_cases n h0 x) as [[_ H2]|(r & _ & H1 & _)];
    [|congruence].
  rewrite H2. now apply IH.
Qed.

Lemma search_header_free (n : nat) (hs : list string) :
  hs <> [] ->
  forall v, header_free hs v = true -> search n (alternation hs) v = None.
Proof.
  intros Hne. induction v as [|c t IH]; intros H; rewrite search_unfold;
    cbn [header_free] in H; apply andb_true_iff in H as [H0 Ht];
    apply negb_true_iff in H0;
    rewrite (rmatch_alternation_nil n hs _ Hne H0); [reflexivity|].
  now apply IH.
Qed.

Lemma splitByMatches_header_line (hs : list string) (h v : string) :
  find (fun h' => has_prefix h' (h +++ v)) hs = Some h ->
  header_free hs v = true ->
  splitByMatches (alternation hs) (h +++ v)
  = Ok ({| value := h; isMatch := true |}
        :: if is_empty v then []
           else [{| value := v; isMatch := false |}]).
Proof.
  intros Hfind Hfree.
  assert (Hne : hs <> []) by (destruct hs; discriminate).
  destruct (rmatch_alternation_find (String.length (h +++ v)) hs _ h Hfind)
    as (r & more & Hr & Hm).
  apply append_cancel_l in Hr. subst r.
  assert (H0 : exec (alternation hs) (h +++ v) 0
               = Some ({| index := 0; text := h |}, String.length h)).
  { exact (exec_here (alternation hs) "" h v more Hm). }
  assert (H1 : exec (alternation hs) (h +++ v) (String.length h) = None).
  { unfold exec. rewrite drop_length_app.
    now rewrite (search_header_free _ hs Hne v Hfree). }
  unfold splitByMatches, allMatches, enough_fuel.
  rewrite Nat.add_comm. cbn [Nat.add].
  rewrite allMatches_from_S, H0, allMatches_from_S, H1. cbn [option_map].
  unfold splitByMatches_of.
  cbn [regions_of index text Nat.eqb app List.length Nat.add orb].
  rewrite orb_false_r, length_append.
  destruct v as [|c t].
  - cbn [String.length is_empty]. rewrite Nat.add_0_r, Nat.eqb_refl.
    reflexivity.
  - replace (String.length h =? String.length h + String.length (String c t))%nat
      with false by (symmetry; apply Nat.eqb_neq; simpl; lia).
    cbn [negb is_empty app]. unfold str_slice.
    rewrite (substring_drop _ _ _ _ (drop_length_app h (String c t))).
    replace (String.length h + String.length (String c t) - String.length h)
      with (String.length (String c t)) by lia.
    now rewrite take_all.
Qed.

Lemma on_line_header_line (this : OrderParser) (sep : RegExp) (st : Scan)
  (h v : string) :
  regex this = alternation (allHeaders (dictionary this)) ->
  recordSeparator (dictionary this) = Ok sep ->
  test sep (h +++ v) = false ->
  find (fun h' => has_prefix h' (h +++ v)) (allHeaders (dictionary this))
  = Some h ->
  header_free (allHeaders (dictionary this)) v = true ->
  on_line this st (h +++ v)
  = let* st1 := finishMultilineField (continue_field st) in
    Ok {| objects := objects st1; currObject := currObject st1;
          multilineField := Some (h, v) |}.
Proof.
  intros Hre Hsep Htest Hfind Hfree.
  unfold on_line. rewrite Hsep. cbn [bind]. rewrite Htest, Hre.
  rewrite (splitByMatches_header_line _ h v Hfind Hfree). cbn [bind].
  cbn [walk isMatch negb value].
  destruct (finishMultilineField (continue_field st)) as [st1| |];
    cbn [bind]; try reflexivity.
  destruct v; reflexivity.
Qed.

(** X21: a line that begins with a header and has no header after it.
    The value of the field that was open gets a line feed at its end and
    is stored; the header of the line opens the next field, with the
    rest of the line as its value.  When several headers are at the
    start of the line, the one that the dictionary lists first is the
    header of the line. *)
Theorem X21_header_line_opens_a_field
  (d : Dictionary) (this : OrderParser) (sep : RegExp) (st : Scan)
  (h v : string) :
  new_OrderParser d = Ok this ->
  recordSeparator (dictionary this) = Ok sep ->
  test sep (h +++ v) = false ->
  find (fun h' => has_prefix h' (h +++ v)) (allHeaders (dictionary this))
  = Some h ->
  header_free (allHeaders (dictionary this)) v = true ->
  on_line this st (h +++ v)
  = let* st1 := finishMultilineField (continue_field st) in
    Ok {| objects := objects st1; currObject := currObject st1;
          multilineField := Some (h, v) |}.
Proof.
  intros Hnew. apply on_line_header_line.
  injection Hnew as <-. reflexivity.
Qed.

Lemma X21_witness :
  on_line {| dictionary := new_FieldDictionary dict_foo_bar;
             regex := buildDictionaryRegex
                        (new_FieldDictionary dict_foo_bar) |}
          {| objects := []; currObject := new_ObjectBuilder;
             multilineField := Some ("Foo:", " 1") |}
          ("Bar:" +++ " two")
  = let* st1 :=
      finishMultilineField
        (continue_field {| objects := []; currObject := new_ObjectBuilder;
                           multilineField := Some ("Foo:", " 1") |}) in
    Ok {| objects := objects st1; currObject := currObject st1;
          multilineField := Some ("Bar:", " two") |}.
Proof.
  exact (X21_header_line_opens_a_field
           dict_foo_bar
           {| dictionary := new_FieldDictionary dict_foo_bar;
              regex := buildDictionaryRegex
                         (new_FieldDictionary dict_foo_bar) |}
           DEFAULT_RECORD_SEPARATOR
           {| objects := []; currObject := new_ObjectBuilder;
              multilineField := Some ("Foo:", " 1") |}
           "Bar:" " two" eq_refl eq_refl eq_refl eq_refl eq_refl).
Defined.

(** ** A record written with one line for each field *)

Lemma trim_right_newline (x : string) :
  trim_right (x +++ newline) = trim_right x.
Proof.
  induction x as [|c t IH]; [reflexivity|].
  cbn [String.append trim_right]. now rewrite IH.
Qed.

Lemma trim_left_newline (v : string) :
  trim_left (v +++ newline) = trim_left v +++ newline
  \/ (trim_left v = "" /\ trim_left (v +++ newline) = "").
Proof.
  induction v as [|c t IH]; [right; now split|].
  cbn [String.append trim_left].
  destruct (is_ws c); [exact IH | now left].
Qed.

Lemma trim_newline (v : string) : trim (v +++ newline) = trim v.
Proof.
  unfold trim. destruct (trim_left_newline v) as [->|[-> ->]];
    [apply trim_right_newline | reflexivity].
Qed.

Lemma bind_assoc {A B C : Type} (m : outcome A) (f : A -> outcome B)
  (g : B -> outcome C) :
  bind (bind m f) g = bind m (fun a => bind (f a) g).
Proof. destruct m; reflexivity. Qed.

Lemma obj_get_none_keys (k : string) (o : Obj) :
  obj_get k o = None -> ~ In k (keys o).
Proof.
  induction o as [|[k' v] o IH]; intros H Hin; [destruct Hin|].
  cbn [obj_get] in H. destruct (String.eqb k k') eqn:E; [discriminate|].
  cbn [keys map fst In] in Hin.
  destruct Hin as [->|Hin]; [now rewrite String.eqb_refl in E|].
  now apply IH.
Qed.

Lemma keys_insert_index (n : N) (k : string) (v : Val) (k' : string) :
  forall o,
    In k' (keys (obj_insert_index n k v o)) <-> k' = k \/ In k' (keys o).
Proof.
  induction o as [|[k1 v1] o IH]; cbn [obj_insert_index].
  - cbn. intuition congruence.
  - destruct (array_index k1) as [m|].
    + destruct (n <? m)%N.
      * cbn. intuition congruence.
      * cbn [keys map fst In]. fold (keys (obj_insert_index n k v o)).
        fold (keys o). rewrite IH. intuition congruence.
    + cbn. intuition congruence.
Qed.

Lemma NoDup_keys_insert_index (n : N) (k : string) (v : Val) :
  forall o,
    ~ In k (keys o) -> NoDup (keys o) ->
    NoDup (keys (obj_insert_index n k v o)).
Proof.
  induction o as [|[k1 v1] o IH]; intros Hnot Hnd; cbn [obj_insert_index].
  - repeat constructor. intros [].
  - assert (Hcons : NoDup (keys ((k, v) :: (k1, v1) :: o)))
      by (cbn [keys map fst]; now constructor).
    destruct (array_index k1) as [m|]; [|exact Hcons].
    destruct (n <? m)%N; [exact Hcons|].
    cbn [keys map fst] in *. fold (keys o) in *.
    fold (keys (obj_insert_index n k v o)).
    inversion Hnd as [|a l Hk1 Hrest]; subst. constructor.
    + rewrite keys_insert_index. intros [->|Hin]; [|contradiction].
      apply Hnot. now left.
    + apply IH; [|assumption]. intros Hin. apply Hnot. now right.
Qed.

Lemma NoDup_snoc {A : Type} (x : A) :
  forall l, ~ In x l -> NoDup l -> NoDup (l ++ [x]).
Proof.
  induction l as [|a l IH]; intros Hnot Hnd; cbn [app].
  - repeat constructor. intros [].
  - inversion Hnd as [|a0 l0 Ha Hrest]; subst. constructor.
    + rewrite in_app_iff. intros [Hin|[->|[]]]; [contradiction|].
      apply Hnot. now left.
    + apply IH; [|assumption]. intros Hin. apply Hnot. now right.
Qed.

Lemma keys_set (k : string) (v : Val) (o : Obj) (k' : string) :
  In k' (keys (obj_set k v o)) <-> k' = k \/ In k' (keys o).
Proof.
  unfold obj_set, obj_has.
  destruct (obj_get k o) as [x|] eqn:G.
  - rewrite keys_update. apply obj_get_in_keys in G.
    split; [now right | intros [->|H]; assumption].
  - destruct (array_index k); [apply keys_insert_index|].
    unfold keys. rewrite map_app, in_app_iff. cbn. intuition congruence.
Qed.

Lemma NoDup_keys_set (k : string) (v : Val) (o : Obj) :
  NoDup (keys o) -> NoDup (keys (obj_set k v o)).
Proof.
  intros Hnd. unfold obj_set, obj_has.
  destruct (obj_get k o) as [x|] eqn:G; [now rewrite keys_update|].
  apply obj_get_none_keys in G.
  destruct (array_index k); [now apply NoDup_keys_insert_index|].
  unfold keys. rewrite map_app. now apply NoDup_snoc.
Qed.

Lemma Forall_update (P : string * Val -> Prop) (k : string) (v : Val) :
  forall o, P (k, v) -> Forall P o -> Forall P (obj_update k v o).
Proof.
  induction o as [|[k1 v1] o IH]; intros Hkv Hall; [constructor|].
  inversion Hall as [|a l H1 Hrest]; subst. cbn [obj_update].
  destruct (String.eqb k k1) eqn:E.
  - apply String.eqb_eq in E. subst k1. now constructor.
  - constructor; [assumption | now apply IH].
Qed.

Lemma Forall_insert_index (P : string * Val -> Prop) (n : N) (k : string)
  (v : Val) :
  forall o, P (k, v) -> Forall P o -> Forall P (obj_insert_index n k v o).
Proof.
  induction o as [|[k1 v1] o IH]; intros Hkv Hall; cbn [obj_insert_index];
    [now repeat constructor|].
  destruct (array_index k1) as [m|]; [|now constructor].
  destruct (n <? m)%N; [now constructor|].
  inversion Hall as [|a l H1 Hrest]; subst.
  constructor; [assumption | now apply IH].
Qed.

Lemma Forall_set (P : string * Val -> Prop) (k : string) (v : Val) (o : Obj) :
  P (k, v) -> Forall P o -> Forall P (obj_set k v o).
Proof.
  intros Hkv Hall. unfold obj_set.
  destruct (obj_has k o); [now apply Forall_update|].
  destruct (array_index k); [now apply Forall_insert_index|].
  apply Forall_app. split; [assumption | now repeat constructor].
Qed.

Lemma captured_keys (k : string) :
  forall pairs o h0 v0,
    In k (keys (captured o h0 v0 pairs))
    <-> In k (keys o) \/ k = h0 \/ In k (map fst pairs).
Proof.
  induction pairs as [|[h v] rest IH]; intros o h0 v0; cbn [captured].
  - rewrite keys_set. cbn. tauto.
  - rewrite IH, keys_set. cbn [map fst In]. intuition congruence.
Qed.

Lemma captured_NoDup :
  forall pairs o h0 v0,
    NoDup (keys o) -> NoDup (keys (captured o h0 v0 pairs)).
Proof.
  induction pairs as [|[h v] rest IH]; intros o h0 v0 H; cbn [captured].
  - now apply NoDup_keys_set.
  - now apply IH, NoDup_keys_set.
Qed.

Lemma captured_Forall (P : string * Val -> Prop) :
  forall pairs o h0 v0,
    Forall P o ->
    (forall x, P (h0, VStr x)) ->
    (forall p x, In p pairs -> P (fst p, VStr x)) ->
    Forall P (captured o h0 v0 pairs).
Proof.
  induction pairs as [|[h v] rest IH]; intros o h0 v0 Ho H0 Hp;
    cbn [captured].
  - now apply Forall_set.
  - apply IH.
    + now apply Forall_set.
    + intros x. apply (Hp (h, v)). now left.
    + intros p x Hin. apply Hp. now right.
Qed.

Lemma captured_other (k : string) :
  forall pairs o h0 v0,
    k <> h0 -> ~ In k (map fst pairs) ->
    obj_get k (captured o h0 v0 pairs) = obj_get k o.
Proof.
  induction pairs as [|[h v] rest IH]; intros o h0 v0 H0 Hp; cbn [captured].
  - apply obj_get_set_other. congruence.
  - cbn [map fst] in Hp. rewrite IH.
    + apply obj_get_set_other. congruence.
    + intros ->. apply Hp. now left.
    + intros Hin. apply Hp. now right.
Qed.

Lemma captured_value :
  forall pairs o h0 v0,
    NoDup (h0 :: map fst pairs) ->
    forall h v,
      In (h, v) ((h0, v0) :: pairs) ->
      exists v', obj_get h (captured o h0 v0 pairs) = Some (VStr v')
                 /\ trim v' = trim v.
Proof.
  induction pairs as [|[h1 v1] rest IH]; intros o h0 v0 Hnd h v Hin;
    cbn [captured].
  - destruct Hin as [E|[]]. injection E as <- <-.
    exists v0. split; [apply obj_get_set_same | reflexivity].
  - cbn [map fst] in Hnd. inversion Hnd as [|a l Hnot Hrest]; subst.
    destruct Hin as [E|Hin].
    + injection E as <- <-. exists (v0 +++ newline).
      split; [|apply trim_newline].
      rewrite captured_other.
      * apply obj_get_set_same.
      * intros ->. apply Hnot. now left.
      * intros Hin. apply Hnot. now right.
    + now apply IH.
Qed.

Lemma store_fresh (b : ObjectBuilder) (h v : string) :
  obj_get h (object b) = None ->
  inherited h = None ->
  store b h v = Ok {| object := obj_set h (VStr v) (object b) |}.
Proof.
  intros H Hi. unfold store, stored. rewrite H, Hi. cbn [bind].
  unfold assign. destruct (String.eqb h "__proto__") eqn:E; [|reflexivity].
  apply String.eqb_eq in E. subst h. discriminate Hi.
Qed.

Lemma scan_field_lines (this : OrderParser) (sep : RegExp) :
  regex this = alternation (allHeaders (dictionary this)) ->
  recordSeparator (dictionary this) = Ok sep ->
  forall pairs objs o h0 v0,
    NoDup (h0 :: map fst pairs) ->
    (forall k, In k (h0 :: map fst pairs) ->
               obj_get k o = None /\ inherited k = None) ->
    Forall (fun p =>
              test sep (fst p +++ snd p) = false
              /\ find (fun h' => has_prefix h' (fst p +++ snd p))
                      (allHeaders (dictionary this)) = Some (fst p)
              /\ header_free (allHeaders (dictionary this)) (snd p) = true)
           pairs ->
    bind (scan this {| objects := objs;
                       currObject := {| object := o |};
                       multilineField := Some (h0, v0) |}
               (field_lines pairs))
         finishMultilineField
    = Ok {| objects := objs;
            currObject := {| object := captured o h0 v0 pairs |};
            multilineField := None |}.
Proof.
  intros Hre Hsep.
  induction pairs as [|[h v] rest IH]; intros objs o h0 v0 Hnd Hfresh Hall.
  - cbn [field_lines map scan bind captured].
    unfold finishMultilineField. cbn [multilineField currObject objects].
    rewrite store_fresh by (apply Hfresh; now left). reflexivity.
  - inversion Hall as [|p0 r0 (Ht & Hf & Hfree) Hrest]; subst.
    cbn [fst snd] in Ht, Hf, Hfree.
    cbn [map fst] in Hnd. inversion Hnd as [|a l Hnot Hnd']; subst.
    cbn [field_lines map scan fst snd captured].
    rewrite (on_line_header_line this sep _ h v Hre Hsep Ht Hf Hfree).
    unfold continue_field at 1. cbn [multilineField objects currObject].
    unfold finishMultilineField at 1.
    cbn [multilineField objects currObject].
    rewrite store_fresh by (apply Hfresh; now left).
    cbn [bind objects currObject object].
    apply (IH objs _ h v Hnd'); [|assumption].
    intros k Hk. split; [|apply Hfresh; now right].
    rewrite obj_get_set_other.
    + apply Hfresh. now right.
    + intros <-. contradiction.
Qed.

Lemma identify_from_all (d : FieldDictionary) (T : string) :
  forall ks,
    Forall (fun k => typesForHeader d k = [T]) ks ->
    identify_from d ks (Some T) = Ok (Some T).
Proof.
  induction 1 as [|k ks Hk _ IH]; [reflexivity|].
  cbn [identify_from]. now rewrite Hk, String.eqb_refl.
Qed.

(** X22: a record written with one line for each field, under a type
    that stands alone and has plain fields.  Every line begins with a
    header that only this type declares, no header is used twice, no
    header stands in a value, and no line is a record separator.  No
    header is the name of a member of [Object.prototype], which [store]
    would take for a value stored before, and no field is called
    [__proto__], a name under which an assignment of a string creates no
    property.  Then [parse] returns exactly one record; each field whose
    header is in the input holds the rest of its line, trimmed; the
    other fields of the type are absent, and so is every other
    property. *)
Theorem X22_record_of_one_line_fields
  (d : Dictionary) (this : OrderParser) (sep : RegExp) (T : string)
  (td : TypeDef) (fs : list (string * string))
  (pairs : list (string * string)) :
  new_OrderParser d = Ok this ->
  recordSeparator (dictionary this) = Ok sep ->
  lookup_type (dictionary this) T = Some td ->
  fields td = Some fs ->
  belongs_to td = None ->
  NoDup (map fst fs) -> NoDup (map snd fs) ->
  ~ In "" (map fst fs) ->
  ~ In "_meta" (map fst fs) -> ~ In "_meta" (map snd fs) ->
  ~ In "__proto__" (map fst fs) ->
  pairs <> [] ->
  NoDup (map fst pairs) ->
  Forall (fun p =>
            In (fst p) (map snd fs)
            /\ inherited (fst p) = None
            /\ typesForHeader (dictionary this) (fst p) = [T]
            /\ test sep (fst p +++ snd p) = false
            /\ find (fun h' => has_prefix h' (fst p +++ snd p))
                    (allHeaders (dictionary this)) = Some (fst p)
            /\ header_free (allHeaders (dictionary this)) (snd p) = true)
         pairs ->
  exists record,
    parse_lines this (field_lines pairs) = Ok [record]
    /\ (forall f h v, In (f, h) fs -> In (h, v) pairs ->
                      prop f record = VStr (trim v))
    /\ (forall f h, In (f, h) fs -> ~ In h (map fst pairs) ->
                    obj_get f record = None)
    /\ (forall k, ~ In k (map fst fs) -> obj_get k record = None).
Proof.
  intros Hnew Hsep Hl Hf Hb Hndf Hndh Hempty Hmf Hmh _ Hne Hndp Hall.
  assert (Hre : regex this = alternation (allHeaders (dictionary this)))
    by (injection Hnew as <-; reflexivity).
  destruct pairs as [|[h1 v1] rest]; [congruence|]. clear Hne.
  set (raw := captured [] h1 v1 rest).
  assert (Hlines : Forall (fun p =>
              test sep (fst p +++ snd p) = false
              /\ find (fun h' => has_prefix h' (fst p +++ snd p))
                      (allHeaders (dictionary this)) = Some (fst p)
              /\ header_free (allHeaders (dictionary this)) (snd p) = true)
            ((h1, v1) :: rest))
    by (revert Hall; apply Forall_impl; intros p H; tauto).
  assert (Hheaders : forall p, In p ((h1, v1) :: rest) ->
            In (fst p) (map snd fs)
            /\ typesForHeader (dictionary this) (fst p) = [T])
    by (intros p Hp; rewrite Forall_forall in Hall;
        destruct (Hall p Hp) as (H1 & _ & H2 & _); now split).
  assert (Hplain : forall k, In k (h1 :: map fst rest) ->
            obj_get k [] = None /\ inherited k = None).
  { intros k Hk. split; [reflexivity|].
    change (h1 :: map fst rest) with (map fst ((h1, v1) :: rest)) in Hk.
    apply in_map_iff in Hk as (p & <- & Hp).
    rewrite Forall_forall in Hall. now destruct (Hall p Hp) as (_ & H & _). }
  (* the scan *)
  assert (Hscan : parse_lines this (field_lines ((h1, v1) :: rest))
                  = cook_current this
                      {| objects := []; currObject := {| object := raw |};
                         multilineField := None |}).
  { inversion Hlines as [|p0 r0 (Ht & Hfi & Hfree) Hrest]; subst.
    cbn [fst snd] in Ht, Hfi, Hfree.
    unfold parse_lines. cbn [field_lines map fst snd scan].
    rewrite (on_line_header_line this sep _ h1 v1 Hre Hsep Ht Hfi Hfree).
    cbn [continue_field initial multilineField finishMultilineField bind
         objects currObject].
    unfold on_close. rewrite <- bind_assoc.
    change new_ObjectBuilder with {| object := [] |}.
    fold (field_lines rest).
    rewrite (scan_field_lines this sep Hre Hsep rest [] [] h1 v1);
      [reflexivity | assumption | assumption | assumption]. }
  (* the captured fields *)
  assert (Hraw : Forall (fun e : string * Val =>
                   (In (fst e) (map snd fs)
                    /\ typesForHeader (dictionary this) (fst e) = [T])
                   /\ exists s, snd e = VStr s) raw).
  { apply captured_Forall.
    - constructor.
    - intros x. split; [apply (Hheaders (h1, v1)); now left | now exists x].
    - intros p x Hp. split; [apply (Hheaders p); now right | now exists x]. }
  assert (Hnd : NoDup (keys raw)) by (apply captured_NoDup; constructor).
  assert (Hh1 : In h1 (keys raw)) by (apply captured_keys; auto).
  assert (Hh1m : h1 <> "_meta").
  { intros ->. apply Hmh. apply (Hheaders ("_meta", v1)). now left. }
  assert (Hid : identifyObjectType raw (dictionary this) = Ok (Some T)).
  { unfold identifyObjectType.
    assert (Hk : Forall (fun k => typesForHeader (dictionary this) k = [T])
                        (keys raw)).
    { unfold keys. apply Forall_map. revert Hraw. apply Forall_impl.
      intros e H. tauto. }
    destruct (keys raw) as [|k ks]; [destruct Hh1|].
    inversion Hk as [|k0 ks0 Hk0 Hks]; subst.
    cbn [identify_from]. rewrite Hk0. now apply identify_from_all. }
  destruct (process_all_plain (dictionary this) T td fs Hl Hf Hndf Hndh
                              Hempty Hmf Hmh raw [] Hnd)
    as (record & Hrun & H1 & H2 & H3 & H4).
  { revert Hraw. apply Forall_impl. intros e H. right. tauto. }
  exists record. split; [|split; [|split]].
  - rewrite Hscan. unfold cook_current. cbn [currObject objects object].
    rewrite (isEmpty_with_field h1 raw Hh1 Hh1m). cbn [negb].
    unfold cookObject. rewrite Hid. cbn [bind]. rewrite Hrun. cbn [bind].
    unfold ownerOf. rewrite Hl, Hb. reflexivity.
  - intros f h v Hin Hp.
    destruct (captured_value rest [] h1 v1 Hndp h v Hp) as (v' & Hget & Ht).
    fold raw in Hget. unfold prop.
    now rewrite (H1 f h v' Hin Hget), Ht.
  - intros f h Hin Hnot. rewrite (H2 f h Hin); [reflexivity|].
    unfold raw. rewrite captured_other; [reflexivity| |].
    + intros ->. apply Hnot. now left.
    + intros Hr. apply Hnot. now right.
  - intros k Hk. destruct (string_dec k "_meta") as [->|Hkm].
    + rewrite H3.
      assert (Hm : obj_get "_meta" raw = None).
      { unfold raw. rewrite captured_other; [reflexivity|congruence|].
        intros Hin. apply in_map_iff in Hin as (p & E & Hp).
        apply Hmh. rewrite <- E. apply (Hheaders p). now right. }
      now rewrite Hm.
    + now rewrite (H4 k Hkm Hk).
Qed.

Lemma X22_witness :
  exists record,
    parse_lines {| dictionary := new_FieldDictionary dict_foo_bar;
                   regex := buildDictionaryRegex
                              (new_FieldDictionary dict_foo_bar) |}
                (field_lines [("Bar:", " two "); ("Foo:", " 1")])
    = Ok [record]
    /\ (forall f h v,
          In (f, h) [("foo", "Foo:"); ("bar", "Bar:")] ->
          In (h, v) [("Bar:", " two "); ("Foo:", " 1")] ->
          prop f record = VStr (trim v))
    /\ (forall f h,
          In (f, h) [("foo", "Foo:"); ("bar", "Bar:")] ->
          ~ In h (map fst [("Bar:", " two "); ("Foo:", " 1")]) ->
          obj_get f record = None)
    /\ (forall k, ~ In k (map fst [("foo", "Foo:"); ("bar", "Bar:")]) ->
                  obj_get k record = None).
Proof.
  refine (X22_record_of_one_line_fields
            dict_foo_bar
            {| dictionary := new_FieldDictionary dict_foo_bar;
               regex := buildDictionaryRegex
                          (new_FieldDictionary dict_foo_bar) |}
            DEFAULT_RECORD_SEPARATOR "Order"
            {| fields := Some [("foo", "Foo:"); ("bar", "Bar:")];
               fields_by_header := Some []; belongs_to := None |}
            [("foo", "Foo:"); ("bar", "Bar:")]
            [("Bar:", " two "); ("Foo:", " 1")]
            eq_refl eq_refl eq_refl eq_refl eq_refl _ _ _ _ _ _ _ _ _).
  - repeat constructor; cbn; intuition discriminate.
  - repeat constructor; cbn; intuition discriminate.
  - cbn. intuition discriminate.
  - cbn. intuition discriminate.
  - cbn. intuition discriminate.
  - cbn. intuition discriminate.
  - discriminate.
  - repeat constructor; cbn; intuition discriminate.
  - constructor; [|constructor; [|constructor]]; cbn [fst snd];
      (split; [cbn; auto|]);
      refine (conj eq_refl
                (conj eq_refl (conj eq_refl (conj eq_refl eq_refl)))).
Defined.

(** ** Headers are looked for everywhere in a line *)

Lemma search_none_inv (n : nat) (r : RegExp) (s : string) :
  search n r s = None ->
  rmatch n r s = []
  /\ match s with "" => True | String _ t => search n r t = None end.
Proof.
  rewrite search_unfold. destruct (rmatch n r s); [|discriminate].
  intros H. split; [reflexivity|]. now destruct s.
Qed.

Lemma rmatch_nil_no_prefix (n : nat) (hs : list string) (x : string) :
  rmatch n (alternation hs) x = [] ->
  existsb (fun h => has_prefix h x) hs = false.
Proof.
  intros Hm. destruct (existsb _ hs) eqn:E; [|reflexivity]. exfalso.
  apply existsb_exists in E as (h & Hin & Hp).
  destruct (find (fun h' => has_prefix h' x) hs) as [h'|] eqn:F.
  - apply (rmatch_alternation_find n) in F as (r & more & _ & F). congruence.
  - apply (find_none _ _ F h) in Hin. congruence.
Qed.

Lemma header_free_search (n : nat) (hs : list string) :
  forall v, search n (alternation hs) v = None -> header_free hs v = true.
Proof.
  induction v as [|c t IH]; intros H;
    apply search_none_inv in H as [Hm Ht]; cbn [header_free];
    rewrite (rmatch_nil_no_prefix n hs _ Hm); cbn [negb andb];
    [reflexivity | now apply IH].
Qed.

(** X23: the header pattern finds nothing in a line exactly when no
    declared header stands anywhere in the line: a header is recognised
    wherever its text occurs, at the start of the line, in the middle of
    a value or at its end. *)
Theorem X23_no_match_iff_no_header_anywhere
  (d : Dictionary) (this : OrderParser) (line : string) :
  new_OrderParser d = Ok this ->
  allHeaders (dictionary this) <> [] ->
  exec (regex this) line 0 = None
  <-> header_free (allHeaders (dictionary this)) line = true.
Proof.
  intros Hnew Hne.
  assert (Hre : regex this = alternation (allHeaders (dictionary this)))
    by (injection Hnew as <-; reflexivity).
  rewrite Hre. unfold exec. cbn [drop]. split.
  - destruct (search _ _ line) as [[from rest]|] eqn:E; [discriminate|].
    intros _. now apply header_free_search in E.
  - intros H. now rewrite (search_header_free _ _ Hne line H).
Qed.

Lemma X23_witness :
  exec (regex {| dictionary := new_FieldDictionary dict_foo;
                 regex := buildDictionaryRegex
                            (new_FieldDictionary dict_foo) |})
       "see Foo: 1" 0 = None
  <-> header_free (allHeaders (new_FieldDictionary dict_foo)) "see Foo: 1"
      = true.
Proof.
  refine (X23_no_match_iff_no_header_anywhere
            dict_foo
            {| dictionary := new_FieldDictionary dict_foo;
               regex := buildDictionaryRegex (new_FieldDictionary dict_foo) |}
            "see Foo: 1" eq_refl _).
  discriminate.
Defined.

(** * Configuration errors *)

Lemma process_configured (d : FieldDictionary) (T h : string) (fd : FieldDef)
  (obj : Obj) (v : Val) :
  configuration_for d T h = Some fd ->
  process d obj T h v
  = match FIELD_TYPES (type fd) with
    | None => Err (TypeError "FIELD_TYPES[fieldDef.type] is not a function")
    | Some make => let* processor := make fd in processor obj h v
    end.
Proof.
  unfold configuration_for, process.
  destruct (String.eqb h "_meta"); [discriminate|].
  destruct (lookup_type d T) as [td|]; [|discriminate].
  destruct (fields td) as [fs|]; [|discriminate].
  destruct (find _ fs) as [[f0 h0]|].
  - intros H. injection H as <-. reflexivity.
  - destruct (fields_by_header td) as [fbh|]; [|discriminate].
    destruct (find _ fbh) as [[h0 fd0]|]; [|discriminate].
    intros H. injection H as <-. reflexivity.
Qed.

Lemma process_not_configured (d : FieldDictionary) (T h : string) (obj : Obj)
  (v : Val) (e : JsError) :
  configuration_for d T h = None ->
  process d obj T h v = Err e -> ~ configuration_error e.
Proof.
  unfold configuration_for, process.
  destruct (String.eqb h "_meta"); [discriminate|].
  destruct (lookup_type d T) as [td|];
    [|intros _ H [E|E]; rewrite E in H; discriminate].
  destruct (fields td) as [fs|];
    [|intros _ H [E|E]; rewrite E in H; discriminate].
  destruct (find _ fs) as [[f0 h0]|]; [discriminate|].
  destruct (fields_by_header td) as [fbh|];
    [|intros _ H [E|E]; rewrite E in H; discriminate].
  destruct (find _ fbh) as [[h0 fd0]|]; [discriminate|].
  intros _ H [E|E]; rewrite E in H; discriminate.
Qed.

(** A configuration that is not bad gives a processor, and what the
    processor raises is no configuration error. *)
Lemma good_configuration (fd : FieldDef) (obj : Obj) (h : string) (v : Val)
  (e : JsError) :
  bad_configuration fd = false ->
  match FIELD_TYPES (type fd) with
  | None => False
  | Some make =>
      (let* processor := make fd in processor obj h v) = Err e ->
      ~ configuration_error e
  end.
Proof.
  unfold bad_configuration, FIELD_TYPES. intros H.
  destruct (String.eqb (type fd) "trimmed").
  { unfold trimmed, requiredOption, present_string, truthy_string in *.
    destruct (field fd) as [f|]; [|discriminate].
    destruct (is_empty f); [discriminate|]. cbn [negb bind].
    destruct v; cbn [as_string bind]; intros E [C|C]; rewrite C in E;
      discriminate. }
  destruct (String.eqb (type fd) "field_followed_by_table").
  { unfold field_followed_by_table, requiredOption, present_string,
      present_number, truthy_string, truthy_number in *.
    destruct (field_name fd) as [f|]; [|discriminate].
    destruct (is_empty f); [discriminate|].
    destruct (table_name fd) as [t|]; [|discriminate].
    destruct (is_empty t); [discriminate|].
    destruct (num_columns fd) as [c|]; [|discriminate].
    destruct (c =? 0)%Z; [discriminate|]. cbn [negb bind].
    destruct v; cbn [as_string bind];
      try (intros E [C|C]; rewrite C in E; discriminate).
    destruct (negb (Z.rem _ _ =? 0)%Z); intros E [C|C]; rewrite C in E;
      discriminate. }
  destruct (String.eqb (type fd) "primary_secondary_location");
    [|discriminate].
  unfold primary_secondary_location, requiredOption, present_string,
    truthy_string in *.
  destruct (location_field fd) as [f|]; [|discriminate].
  destruct (is_empty f); [discriminate|].
  destruct (contacts_field fd) as [t|]; [|discriminate].
  destruct (is_empty t); [discriminate|]. cbn [negb bind].
  destruct v; cbn [as_string bind]; intros E [C|C]; rewrite C in E;
    discriminate.
Qed.

Lemma process_bad (d : FieldDictionary) (T h : string) (fd : FieldDef)
  (obj : Obj) (v : Val) :
  configuration_for d T h = Some fd ->
  bad_configuration fd = true ->
  exists e, process d obj T h v = Err e /\ configuration_error e.
Proof.
  intros Hc Hbad. rewrite (process_configured d T h fd obj v Hc).
  pose proof (bad_configuration_fails fd obj h v Hbad) as H.
  destruct (FIELD_TYPES (type fd)) as [make|].
  - rewrite H. eexists. split; [reflexivity | now left].
  - eexists. split; [reflexivity | now right].
Qed.

Lemma process_configuration_error (d : FieldDictionary) (T h : string)
  (obj : Obj) (v : Val) (e : JsError) :
  process d obj T h v = Err e -> configuration_error e ->
  exists fd, configuration_for d T h = Some fd
             /\ bad_configuration fd = true.
Proof.
  intros H He.
  destruct (configuration_for d T h) as [fd|] eqn:Hc;
    [|now apply (process_not_configured d T h obj v e Hc) in H].
  exists fd. split; [reflexivity|].
  destruct (bad_configuration fd) eqn:Hbad; [reflexivity|]. exfalso.
  rewrite (process_configured d T h fd obj v Hc) in H.
  pose proof (good_configuration fd obj h v e Hbad) as G.
  destruct (FIELD_TYPES (type fd)) as [make|]; [now apply G | exact G].
Qed.

Lemma process_all_app (d : FieldDictionary) (T : string) :
  forall a b acc,
    process_all d T (a ++ b) acc
    = let* acc' := process_all d T a acc in process_all d T b acc'.
Proof.
  induction a as [|[h v] a IH]; intros b acc; [reflexivity|].
  cbn [app process_all].
  destruct (process d acc T h v) as [acc1| |]; cbn [bind];
    [apply IH | reflexivity | reflexivity].
Qed.

Lemma process_all_bad (d : FieldDictionary) (T h : string) (v : Val)
  (fd : FieldDef) (before after : Obj) (acc : Obj) :
  configuration_for d T h = Some fd ->
  bad_configuration fd = true ->
  exists e,
    process_all d T (before ++ (h, v) :: after) acc = Err e
    /\ (configuration_error e \/ process_all d T before acc = Err e).
Proof.
  intros Hc Hbad. rewrite process_all_app.
  pose proof (returns_process_all d T before acc) as R.
  destruct (process_all d T before acc) as [acc1|e|] eqn:E; cbn [bind].
  - cbn [process_all].
    destruct (process_bad d T h fd acc1 v Hc Hbad) as (e & -> & He).
    exists e. split; [reflexivity | now left].
  - exists e. split; [reflexivity | now right].
  - now contradiction R.
Qed.

Lemma process_all_configuration_error (d : FieldDictionary) (T : string)
  (e : JsError) :
  configuration_error e ->
  forall raw acc,
    process_all d T raw acc = Err e ->
    exists h fd, In h (keys raw)
                 /\ configuration_for d T h = Some fd
                 /\ bad_configuration fd = true.
Proof.
  intros He. induction raw as [|[h v] rest IH]; intros acc H;
    [discriminate|].
  cbn [process_all] in H.
  destruct (process d acc T h v) as [acc1|e1|] eqn:E; cbn [bind] in H;
    [|injection H as ->|discriminate].
  - destruct (IH acc1 H) as (h' & fd & Hin & Hc & Hbad).
    exists h', fd. split; [now right | now split].
  - destruct (process_configuration_error d T h acc v e E He)
      as (fd & Hc & Hbad).
    exists h, fd. split; [now left | now split].
Qed.

Lemma cookObject_bad (d : FieldDictionary) (T h : string) (fd : FieldDef)
  (raw : Obj) (objs : list Obj) :
  configuration_for d T h = Some fd ->
  bad_configuration fd = true ->
  identifyObjectType raw d = Ok (Some T) ->
  In h (keys raw) ->
  exists e, cookObject raw objs d = Err e.
Proof.
  intros Hc Hbad Hid Hin.
  apply in_map_iff in Hin as ([h0 v] & E & Hin). cbn [fst] in E. subst h0.
  apply in_split in Hin as (before & after & ->).
  unfold cookObject. rewrite Hid. cbn [bind].
  destruct (process_all_bad d T h v fd before after [] Hc Hbad)
    as (e & -> & _).
  now exists e.
Qed.

Lemma cookObject_configuration_error (d : FieldDictionary) (raw : Obj)
  (objs : list Obj) (e : JsError) :
  cookObject raw objs d = Err e -> configuration_error e ->
  exists T h fd,
    identifyObjectType raw d = Ok (Some T)
    /\ In h (keys raw)
    /\ configuration_for d T h = Some fd
    /\ bad_configuration fd = true.
Proof.
  unfold cookObject. intros H He.
  destruct (identifyObjectType raw d) as [[T|]|e0|] eqn:Hid; cbn [bind] in H;
    try discriminate.
  - destruct (process_all d T raw []) as [result|e1|] eqn:Hp;
      cbn [bind] in H; [|injection H as ->|discriminate].
    + exfalso. unfold ownerOf in H.
      destruct (lookup_type d T) as [td|]; cbn [bind] in H;
        [|destruct He as [C|C]; rewrite C in H; discriminate].
      destruct (belongs_to td) as [owner|]; [|discriminate].
      destruct (find _ objs) as [ownerObj|]; [|discriminate].
      destruct (prop _ _); try discriminate;
        destruct He as [C|C]; rewrite C in H; discriminate.
    + destruct (process_all_configuration_error d T e He raw [] Hp)
        as (h & fd & Hin & Hc & Hbad).
      now exists T, h, fd.
  - exfalso. destruct He as [C|C]; rewrite C in H; discriminate.
  - exfalso. unfold identifyObjectType in Hid.
    injection H as ->.
    assert (Hthrown : forall hs ot,
              identify_from d hs ot = Err e -> exists m, e = Thrown m).
    { induction hs as [|h0 hs IH]; intros ot; cbn [identify_from];
        [discriminate|].
      destruct (typesForHeader d h0) as [|t [|t' ts]]; try apply IH.
      destruct ot as [c|]; [|apply IH].
      destruct (String.eqb c t); [apply IH|].
      intros E. injection E as <-. now eexists. }
    destruct (Hthrown _ _ Hid) as (m & ->).
    destruct He as [C|C]; discriminate.
Qed.

(** ** Where a parse can raise a configuration error *)

Lemma warn_no_configuration_error (b : ObjectBuilder) (t m : string)
  (e : JsError) :
  warn b t m = Err e -> ~ configuration_error e.
Proof.
  unfold warn. cbv zeta.
  destruct (prop "_meta" _) as [| | | |meta];
    try (intros H [C|C]; rewrite C in H; discriminate).
  destruct (prop t _) as [| | |items|];
    intros H [C|C]; rewrite C in H; discriminate.
Qed.

Lemma finishMultilineField_no_configuration_error (st : Scan) (e : JsError) :
  finishMultilineField st = Err e -> ~ configuration_error e.
Proof.
  unfold finishMultilineField, store.
  destruct (multilineField st) as [[h v]|]; [|discriminate].
  destruct (stored (object (currObject st)) h) as [shown|];
    [|discriminate].
  destruct (warn (currObject st) "ignored_text" _) as [b1|e1|] eqn:E;
    cbn [bind]; try discriminate.
  intros H. injection H as <-.
  now apply warn_no_configuration_error in E.
Qed.

Lemma walk_no_configuration_error (e : JsError) :
  forall parts st, walk parts st = Err e -> ~ configuration_error e.
Proof.
  fix IH 1. intros [|part rest] st; cbn [walk]; [discriminate|].
  destruct (negb (isMatch part)).
  - destruct (multilineField st) as [[h v]|]; [apply IH|].
    destruct (negb _); [|apply IH].
    destruct (warn (currObject st) "ignored_text" _) as [b1|e1|] eqn:E;
      cbn [bind]; [apply IH| |discriminate].
    intros H. injection H as H. rewrite H in E.
    exact (warn_no_configuration_error _ _ _ _ E).
  - destruct (finishMultilineField st) as [st1|e1|] eqn:E; cbn [bind];
      [| |discriminate].
    + destruct rest as [|next rest']; [discriminate | apply IH].
    + intros H. injection H as H. rewrite H in E.
      exact (finishMultilineField_no_configuration_error _ _ E).
Qed.

(** Only the cooking of the record at a separator line can. *)
Lemma on_line_configuration_error (this : OrderParser) (st : Scan)
  (line : string) (e : JsError) :
  on_line this st line = Err e -> configuration_error e ->
  exists st1,
    finishMultilineField st = Ok st1 /\ cook_current this st1 = Err e.
Proof.
  unfold on_line. intros H He.
  destruct (recordSeparator (dictionary this)) as [sep|e0|] eqn:R;
    cbn [bind] in H; [| |discriminate].
  2: { exfalso. injection H as ->. unfold recordSeparator in R.
       destruct (options (data (dictionary this))) as [o|];
         [destruct (record_separator o); discriminate|].
       destruct He as [C|C]; rewrite C in R; discriminate. }
  destruct (test sep line).
  - unfold on_separator in H.
    destruct (finishMultilineField st) as [st1|e1|] eqn:E; cbn [bind] in H;
      [| |discriminate].
    + exists st1. split; [reflexivity|].
      destruct (cook_current this st1) as [objs|e2|]; cbn [bind] in H;
        [discriminate | now injection H as -> | discriminate].
    + injection H as ->.
      now apply finishMultilineField_no_configuration_error in E.
  - destruct (splitByMatches (regex this) line) as [parts|e1|] eqn:S;
      cbn [bind] in H; [| |discriminate].
    + now apply walk_no_configuration_error in H.
    + unfold splitByMatches in S.
      destruct (allMatches _ _ _); discriminate.
Qed.

Lemma cook_current_configuration_error (this : OrderParser) (st : Scan)
  (e : JsError) :
  cook_current this st = Err e -> configuration_error e ->
  exists T h fd,
    In h (keys (object (currObject st)))
    /\ configuration_for (dictionary this) T h = Some fd
    /\ bad_configuration fd = true.
Proof.
  unfold cook_current. destruct (negb _); [|discriminate].
  intros H He.
  destruct (cookObject_configuration_error _ _ _ _ H He)
    as (T & h & fd & _ & Hin & Hc & Hbad).
  now exists T, h, fd.
Qed.

(** ** The names that the scanner holds come from the input *)

Lemma occurs_more (h : string) (l1 l2 : list string) :
  occurs h l1 -> (forall x, In x l1 -> In x l2) -> occurs h l2.
Proof.
  intros (line & pre & post & Hin & E) Hincl.
  exists line, pre, post. split; [now apply Hincl | assumption].
Qed.

Lemma seen_more (l1 l2 : list string) (st : Scan) :
  seen l1 st -> (forall x, In x l1 -> In x l2) -> seen l2 st.
Proof.
  intros [Hk Hf] Hincl. split.
  - intros k Hin. destruct (Hk k Hin) as [->|H]; [now left | right].
    now apply occurs_more with l1.
  - intros h v Hopen. apply occurs_more with l1; [|assumption].
    now apply (Hf h v).
Qed.

Lemma warn_keys (b b' : ObjectBuilder) (t m k : string) :
  warn b t m = Ok b' ->
  In k (keys (object b')) -> k = "_meta" \/ In k (keys (object b)).
Proof.
  destruct b as [o]. unfold warn. cbn [object]. intros H.
  set (o1 := if negb (truthy (prop "_meta" o))
             then obj_set "_meta" (VObj []) o else o) in *.
  assert (H1 : In k (keys o1) -> k = "_meta" \/ In k (keys o)).
  { unfold o1. destruct (negb _); [|now right].
    intros Hin. now apply keys_set in Hin. }
  destruct (prop "_meta" o1) as [| | | |meta]; try discriminate.
  destruct (prop t _) as [| | |items|]; try discriminate.
  injection H as <-. cbn [object]. intros Hin.
  apply keys_set in Hin as [->|Hin]; [now left | now apply H1].
Qed.

Lemma store_keys (b b' : ObjectBuilder) (h v k : string) :
  store b h v = Ok b' ->
  In k (keys (object b')) ->
  k = "_meta" \/ k = h \/ In k (keys (object b)).
Proof.
  unfold store. intros H.
  destruct (match stored (object b) h with
            | Some shown => warn b "ignored_text" (repeated_text h shown)
            | None => Ok b
            end) as [b1| |] eqn:E; cbn [bind] in H; try discriminate.
  injection H as <-. cbn [object]. intros Hin.
  assert (H1 : In k (keys (object b1)) ->
               k = "_meta" \/ In k (keys (object b))).
  { destruct (stored (object b) h).
    - now apply warn_keys with "ignored_text" (repeated_text h s).
    - injection E as <-. now right. }
  unfold assign in Hin.
  destruct (String.eqb h "__proto__" && negb (obj_has h (object b1))).
  - destruct (H1 Hin) as [->|H2]; [now left | now right; right].
  - apply keys_set in Hin as [->|Hin]; [now right; left|].
    destruct (H1 Hin) as [->|H2]; [now left | now right; right].
Qed.

Lemma finishMultilineField_seen (lines : list string) (st st1 : Scan) :
  finishMultilineField st = Ok st1 -> seen lines st -> seen lines st1.
Proof.
  unfold finishMultilineField. intros H [Hk Hf].
  destruct (multilineField st) as [[h v]|] eqn:Hopen;
    [|injection H as <-; split; [exact Hk|];
      intros h v E; rewrite Hopen in E; discriminate].
  destruct (store (currObject st) h v) as [b| |] eqn:E; cbn [bind] in H;
    try discriminate.
  injection H as <-. split; [|discriminate].
  cbn [currObject]. intros k Hin.
  destruct (store_keys _ _ _ _ _ E Hin) as [->|[->|H1]];
    [now left | right; now apply (Hf h v) | now apply Hk].
Qed.

Lemma regions_occur (line : string) :
  forall parts pre,
    pre +++ text_of_regions parts = line ->
    forall p, In p parts -> occurs (value p) [line].
Proof.
  induction parts as [|q parts IH]; intros pre E p Hin; [destruct Hin|].
  cbn [text_of_regions fold_right] in E.
  destruct Hin as [<-|Hin].
  - exists line, pre, (text_of_regions parts).
    split; [now left | now symmetry].
  - apply (IH (pre +++ value q)); [|assumption].
    now rewrite append_assoc.
Qed.

Lemma walk_seen (lines : list string) :
  forall parts st st',
    (forall p, In p parts -> occurs (value p) lines) ->
    walk parts st = Ok st' -> seen lines st -> seen lines st'.
Proof.
  fix IH 1. intros [|part rest] st st' Hparts; cbn [walk].
  - intros H Hs. injection H as <-. exact Hs.
  - assert (Hrest : forall p, In p rest -> occurs (value p) lines)
      by (intros p Hp; apply Hparts; right; exact Hp).
    destruct (negb (isMatch part)).
    + destruct (multilineField st) as [[h v]|] eqn:Hopen.
      * intros H Hs. apply (IH rest _ st' Hrest H).
        destruct Hs as [Hk Hf]. split; [exact Hk|].
        cbn [multilineField]. intros h0 v0 E. injection E as <- _.
        exact (Hf h v Hopen).
      * destruct (negb _); [|exact (IH rest st st' Hrest)].
        destruct (warn (currObject st) "ignored_text" _) as [b1| |] eqn:E;
          cbn [bind]; try discriminate.
        intros H Hs. apply (IH rest _ st' Hrest H).
        destruct Hs as [Hk Hf]. split; [|discriminate].
        cbn [currObject]. intros k Hin.
        destruct (warn_keys _ _ _ _ _ E Hin) as [->|H1];
          [left; reflexivity | exact (Hk k H1)].
    + destruct (finishMultilineField st) as [st1| |] eqn:E; cbn [bind];
        try discriminate.
      intros H Hs.
      assert (Hs1 := finishMultilineField_seen lines st st1 E Hs).
      assert (Hhere : occurs (value part) lines)
        by (apply Hparts; left; reflexivity).
      destruct Hs1 as [Hk1 _].
      destruct rest as [|next rest'].
      * injection H as <-. split; [exact Hk1|].
        cbn [multilineField]. intros h0 v0 E0. injection E0 as <- _.
        exact Hhere.
      * refine (IH rest' _ st' _ H _).
        -- intros p Hp. apply Hrest. right. exact Hp.
        -- split; [exact Hk1|].
           cbn [multilineField]. intros h0 v0 E0. injection E0 as <- _.
           exact Hhere.
Qed.

Lemma on_line_seen (this : OrderParser) (lines : list string) (st st' : Scan)
  (line : string) :
  on_line this st line = Ok st' ->
  seen lines st -> seen (lines ++ [line]) st'.
Proof.
  unfold on_line. intros H Hs.
  destruct (recordSeparator (dictionary this)) as [sep| |]; cbn [bind] in H;
    try discriminate.
  destruct (test sep line).
  - unfold on_separator in H.
    destruct (finishMultilineField st) as [st1| |]; cbn [bind] in H;
      try discriminate.
    destruct (cook_current this st1) as [objs| |]; cbn [bind] in H;
      try discriminate.
    injection H as <-. split; [intros k []|discriminate].
  - destruct (splitByMatches (regex this) line) as [parts| |] eqn:E;
      cbn [bind] in H; try discriminate.
    apply (walk_seen (lines ++ [line]) parts (continue_field st) st');
      [|assumption|].
    + intros p Hp.
      apply occurs_more with [line];
        [|intros x [<-|[]]; apply in_or_app; right; now left].
      apply (regions_occur line parts ""); [|assumption].
      now apply splitByMatches_text in E.
    + apply seen_more with lines; [|intros x Hx; apply in_or_app; now left].
      destruct Hs as [Hk Hf]. unfold continue_field.
      destruct (multilineField st) as [[h v]|] eqn:Hopen;
        [|split; [exact Hk|now rewrite Hopen]].
      split; [exact Hk|]. cbn [multilineField].
      intros h0 v0 E0. injection E0 as <- _. now apply (Hf h v).
Qed.

Lemma configuration_for_meta (d : FieldDictionary) (T : string) :
  configuration_for d T "_meta" = None.
Proof. reflexivity. Qed.

Lemma close_configuration_error (this : OrderParser) (lines : list string)
  (st : Scan) (e : JsError) :
  seen lines st ->
  (let* st1 := finishMultilineField st in cook_current this st1) = Err e ->
  configuration_error e ->
  exists T h fd,
    occurs h lines
    /\ configuration_for (dictionary this) T h = Some fd
    /\ bad_configuration fd = true.
Proof.
  intros Hs H He.
  destruct (finishMultilineField st) as [st1|e1|] eqn:E; cbn [bind] in H;
    [| |discriminate].
  - destruct (cook_current_configuration_error this st1 e H He)
      as (T & h & fd & Hin & Hc & Hbad).
    exists T, h, fd. split; [|now split].
    destruct (finishMultilineField_seen lines st st1 E Hs) as [Hk _].
    destruct (Hk h Hin) as [->|Ho]; [|assumption].
    now rewrite configuration_for_meta in Hc.
  - injection H as ->.
    now apply finishMultilineField_no_configuration_error in E.
Qed.

Lemma scan_configuration_error (this : OrderParser) (e : JsError) :
  configuration_error e ->
  forall rest lines st,
    seen lines st ->
    (let* st' := scan this st rest in on_close this st') = Err e ->
    exists T h fd,
      occurs h (lines ++ rest)
      /\ configuration_for (dictionary this) T h = Some fd
      /\ bad_configuration fd = true.
Proof.
  intros He. induction rest as [|line rest IH]; intros lines st Hs H.
  - cbn [scan bind] in H. rewrite app_nil_r.
    now apply (close_configuration_error this lines st e).
  - cbn [scan] in H.
    destruct (on_line this st line) as [st'|e1|] eqn:E; cbn [bind] in H;
      [| |discriminate].
    + destruct (IH (lines ++ [line]) st' (on_line_seen _ _ _ _ _ E Hs) H)
        as (T & h & fd & Ho & Hc & Hbad).
      exists T, h, fd. split; [|now split].
      now rewrite <- app_assoc in Ho.
    + injection H as ->.
      destruct (on_line_configuration_error this st line e E He)
        as (st1 & Hf & Hcook).
      destruct (close_configuration_error this lines st e Hs) as
        (T & h & fd & Ho & Hc & Hbad); [now rewrite Hf | assumption|].
      exists T, h, fd. split; [|now split].
      apply occurs_more with lines; [assumption|].
      intros x Hx. apply in_or_app. now left.
Qed.

(** C1 (as amended): constructing the parser raises nothing, whatever
    the processor configurations are.  Take a configuration that
    [process] uses for a header in the records of a type, and that lacks
    a required option or names an unknown kind.  Cooking a record of
    that type that captured the header fails, and with the configuration
    error if the fields captured before it are processed without error;
    so a parse fails when such a record is closed by the end of the
    input, and as well when a separator line closes it.  Conversely a
    parse that raises a configuration error has such a configuration for
    a header that stands in one of its lines. *)
Theorem C1_configuration_is_checked_when_a_record_is_cooked (d : Dictionary) :
  (exists this, new_OrderParser d = Ok this)
  /\ forall this,
       new_OrderParser d = Ok this ->
       (forall T h fd raw objs,
          configuration_for (dictionary this) T h = Some fd ->
          bad_configuration fd = true ->
          identifyObjectType raw (dictionary this) = Ok (Some T) ->
          In h (keys raw) ->
          exists e, cookObject raw objs (dictionary this) = Err e)
       /\ (forall T h v fd before after objs acc,
             configuration_for (dictionary this) T h = Some fd ->
             bad_configuration fd = true ->
             identifyObjectType (before ++ (h, v) :: after) (dictionary this)
             = Ok (Some T) ->
             process_all (dictionary this) T before [] = Ok acc ->
             exists e,
               cookObject (before ++ (h, v) :: after) objs (dictionary this)
               = Err e
               /\ configuration_error e)
       /\ (forall T h fd lines st st1,
             configuration_for (dictionary this) T h = Some fd ->
             bad_configuration fd = true ->
             scan this initial lines = Ok st ->
             finishMultilineField st = Ok st1 ->
             identifyObjectType (object (currObject st1)) (dictionary this)
             = Ok (Some T) ->
             In h (keys (object (currObject st1))) ->
             exists e,
               parse_lines this lines = Err e
               /\ forall sep S more,
                    recordSeparator (dictionary this) = Ok sep ->
                    test sep S = true ->
                    parse_lines this (lines ++ S :: more) = Err e)
       /\ (forall lines e,
             parse_lines this lines = Err e ->
             configuration_error e ->
             exists T h fd,
               occurs h lines
               /\ configuration_for (dictionary this) T h = Some fd
               /\ bad_configuration fd = true).
Proof.
  split; [eexists; reflexivity|].
  intros this _. split; [|split; [|split]].
  - intros T h fd raw objs. apply cookObject_bad.
  - intros T h v fd before after objs acc Hc Hbad Hid Hbefore.
    unfold cookObject. rewrite Hid. cbn [bind].
    destruct (process_all_bad (dictionary this) T h v fd before after []
                              Hc Hbad) as (e & He & [Hcfg|Hb]).
    + rewrite He. now exists e.
    + congruence.
  - intros T h fd lines st st1 Hc Hbad Hscan Hfin Hid Hin.
    assert (Hh : h <> "_meta")
      by (intros ->; now rewrite configuration_for_meta in Hc).
    destruct (cookObject_bad (dictionary this) T h fd
                (object (currObject st1)) (objects st1) Hc Hbad Hid Hin)
      as (e & He).
    assert (Hcook : cook_current this st1 = Err e).
    { unfold cook_current.
      assert (Hi : isEmpty (currObject st1) = false).
      { clear He. destruct (currObject st1) as [o].
        exact (isEmpty_with_field h o Hin Hh). }
      now rewrite Hi. }
    exists e. split.
    + unfold parse_lines, on_close. rewrite Hscan. cbn [bind].
      rewrite Hfin. exact Hcook.
    + intros sep S more Hsep HS. unfold parse_lines.
      rewrite scan_app, Hscan. cbn [bind scan].
      rewrite (on_line_separator this st S sep Hsep HS).
      unfold on_separator. rewrite Hfin. cbn [bind].
      now rewrite Hcook.
  - intros lines e H He.
    apply (scan_configuration_error this e He lines [] initial);
      [|exact H].
    split; [intros k []|discriminate].
Qed.

(** The table of [dict_table] without [num_columns]: the record of the
    line [Due: today] is never cooked. *)
Lemma C1_witness :
  exists e,
    parse_lines {| dictionary := new_FieldDictionary (dict_table None);
                   regex := buildDictionaryRegex
                              (new_FieldDictionary (dict_table None)) |}
                ["Due: today"] = Err e
    /\ forall sep S more,
         recordSeparator (new_FieldDictionary (dict_table None)) = Ok sep ->
         test sep S = true ->
         parse_lines {| dictionary := new_FieldDictionary (dict_table None);
                        regex := buildDictionaryRegex
                                   (new_FieldDictionary (dict_table None)) |}
                     (["Due: today"] ++ S :: more) = Err e.
Proof.
  pose (this := {| dictionary := new_FieldDictionary (dict_table None);
                   regex := buildDictionaryRegex
                              (new_FieldDictionary (dict_table None)) |}).
  refine (proj1 (proj2 (proj2
            (proj2 (C1_configuration_is_checked_when_a_record_is_cooked
                      (dict_table None)) this eq_refl)))
            "Order" "Due:" (table_def None) ["Due: today"]
            {| objects := []; currObject := new_ObjectBuilder;
               multilineField := Some ("Due:", " today") |}
            {| objects := [];
               currObject := {| object := [("Due:", VStr " today")] |};
               multilineField := None |}
            eq_refl eq_refl eq_refl eq_refl eq_refl _).
  now left.
Defined.

(** A bad entry of [fields_by_header] under a header that [fields]
    declares too is never used: [process] takes the field. *)
Example shadowed_configuration_is_not_used :
  configuration_for (new_FieldDictionary dict_shadowed) "Order" "Due:"
  = Some (only_field "due")
  /\ bad_configuration (only_field "due") = false
  /\ run dict_shadowed (text_of_lines ["Foo: 1"; "Due: today"])
     = Ok [[("foo", VStr "1"); ("due", VStr "today")]].
Proof.
  split; [reflexivity|]. split; [reflexivity|]. vm_compute. reflexivity.
Qed.
